(** * stdx: the sharded concurrent map and its hashing subsystem

    A shallow embedding of the Go packages [optional], [hash] and [cmap]
    of marouanesouiri/stdx and of the parts of [collectors] and [stream]
    that work on options, with the properties of the design document
    checked against them and further properties read off the code.

    Conventions.
    - Go's [int] is taken to be 64 bits wide (the amd64/arm64 ports); a
      signed or unsigned machine integer is a [Z] and every conversion or
      overflowing operation writes its wrap-around out ([int64], [uint64],
      [uint32], ...).
    - A Go map is a [gmap] keyed by what is stored in the key; the
      slice of shard pointers is a [list] of maps, read with the list
      lookup and written with the list insert.  For key types with a
      float, complex or interface part the native map's [==] is not
      that identity: the properties of what a map holds carry
      [exact_keys], and the float keys are evaluated where two equal
      keys hash to different shards.
    - The maps are mutated in place by the Go code; here every operation
      takes the map and returns the map after the call with its results;
      a run-time panic is [None].
    - Locks are not modelled: the operations are the sequential code
      that runs while the shard lock is held. *)

From Stdlib Require Import ZArith Lia String Ascii.
From stdpp Require Import base decidable option list gmap strings.

Local Open Scope Z_scope.

(** ** Machine integers *)

Definition uint8 (z : Z) : Z := z mod 2 ^ 8.
Definition uint16 (z : Z) : Z := z mod 2 ^ 16.
Definition uint32 (z : Z) : Z := z mod 2 ^ 32.
Definition uint64 (z : Z) : Z := z mod 2 ^ 64.

(** Two's complement wrap-around of the 64-bit signed [int]. *)
Definition int64 (z : Z) : Z := (z + 2 ^ 63) mod 2 ^ 64 - 2 ^ 63.

(** The zero value every Go type has ([var zero T]). *)
Class ZeroValue (T : Type) := zeroValue : T.

#[export] Instance Z_zero : ZeroValue Z := 0.
#[export] Instance string_zero : ZeroValue string := EmptyString.

(** ** Package optional (src/optional/doc.go) *)

Module optional.

(** [type state int8] with [stateAbsent = iota], [statePresent], [stateNil]. *)
Inductive state := stateAbsent | statePresent | stateNil.

#[global] Instance state_eq_dec : EqDecision state.
Proof. solve_decision. Defined.

Record Option (T : Type) := mkOption { st : state; value : T }.
Arguments mkOption {T} _ _.
Arguments st {T} _.
Arguments value {T} _.

Section methods.
Context {T : Type} {ZV : ZeroValue T}.

Definition IsPresent (o : Option T) : bool :=
  bool_decide (st o = statePresent).

(** [return o.state != stateAbsent] *)
Definition IsAbsent (o : Option T) : bool :=
  negb (bool_decide (st o = stateAbsent)).

Definition Get (o : Option T) : T := value o.

(** [MustGet] panics unless the value is present. *)
Definition MustGet (o : Option T) : option T :=
  if negb (bool_decide (st o = statePresent)) then Datatypes.None
  else Datatypes.Some (value o).

Definition OrElse (o : Option T) (fallback : T) : T :=
  if negb (bool_decide (st o = statePresent)) then fallback else value o.

Definition IsZero (o : Option T) : bool :=
  bool_decide (st o = stateAbsent).

Definition Some (v : T) : Option T := mkOption statePresent v.

(** [Option[T]{state: stateAbsent}]: the value field is T's zero value. *)
Definition None : Option T := mkOption stateAbsent zeroValue.

Definition Nil : Option T := mkOption stateNil zeroValue.

Definition FromPair (v : T) (ok : bool) : Option T :=
  if negb ok then None else Some v.
End methods.

(** *** The other constructors, the accessors and the combinators

    A pointer [*T] is read only through [ptr == nil] and [*ptr]: it is
    [Datatypes.None] (nil) or the value it points to.  An [error] is
    its message, [nil] is [Datatypes.None].  A callback that works on
    what its closure captures takes that state [S] and returns it. *)

Definition error := string.

Section accessors.
Context {T : Type} {ZV : ZeroValue T}.

Definition FromPtr (ptr : option T) : Option T :=
  match ptr with
  | Datatypes.None => None
  | Datatypes.Some v => Some v
  end.

(** [FromZero]: [T comparable], [value == zero]. *)
Definition FromZero {Teq : EqDecision T} (v : T) : Option T :=
  if bool_decide (v = zeroValue) then None else Some v.

Definition GetErr (o : Option T) : T * option error :=
  if bool_decide (st o = stateNil)
  then (zeroValue, Datatypes.Some "value is nil"%string)
  else if bool_decide (st o = stateAbsent)
  then (zeroValue, Datatypes.Some "value is absent"%string)
  else (value o, Datatypes.None).

Definition OrElseGet (o : Option T) (supplier : unit → T) : T :=
  if negb (bool_decide (st o = statePresent)) then supplier tt else value o.

Definition OrElseErr (o : Option T) (supplier : unit → option error)
    : T * option error :=
  if negb (bool_decide (st o = statePresent)) then (zeroValue, supplier tt)
  else (value o, Datatypes.None).

Definition OrEmpty (o : Option T) : T :=
  if negb (bool_decide (st o = statePresent)) then zeroValue else value o.

(** [OrPanic]: [inl message] is the panic. *)
Definition OrPanic (o : Option T) (message : string) : string + T :=
  if negb (bool_decide (st o = statePresent)) then inl message
  else inr (value o).

Definition Ptr (o : Option T) : option T :=
  if negb (bool_decide (st o = statePresent)) then Datatypes.None
  else Datatypes.Some (value o).

Definition IfPresent {S : Type} (o : Option T) (fn : T → S → S) (s : S) : S :=
  if bool_decide (st o = statePresent) then fn (value o) s else s.

Definition IfPresentOrElse {S : Type} (o : Option T)
    (ifPresent : T → S → S) (orElse : S → S) (s : S) : S :=
  if bool_decide (st o = statePresent) then ifPresent (value o) s
  else orElse s.

Definition Filter (o : Option T) (predicate : T → bool) : Option T :=
  if negb (bool_decide (st o = statePresent)) then o
  else if predicate (value o) then o
  else None.

Definition And (o other : Option T) : Option T :=
  if negb (bool_decide (st o = statePresent)) then None else other.

(** [if o.state != statePresent { return o }; return other] *)
Definition Or (o other : Option T) : Option T :=
  if negb (bool_decide (st o = statePresent)) then o else other.

(** [if o.state != statePresent { return o }; return supplier()] *)
Definition OrElseOption (o : Option T) (supplier : unit → Option T)
    : Option T :=
  if negb (bool_decide (st o = statePresent)) then o else supplier tt.

Definition Xor (o other : Option T) : Option T :=
  if bool_decide (st o = statePresent)
     && negb (bool_decide (st other = statePresent))
  then o
  else if negb (bool_decide (st o = statePresent))
          && bool_decide (st other = statePresent)
  then other
  else None.

Definition Equal (o other : Option T) (eq : T → T → bool) : bool :=
  if negb (bool_decide (st o = st other)) then false
  else eq (value o) (value other).
End accessors.

Section mappers.
Context {T U : Type} {ZT : ZeroValue T} {ZU : ZeroValue U}.

Definition Map (o : Option T) (mapper : T → U) : Option U :=
  if negb (bool_decide (st o = statePresent)) then None
  else Some (mapper (value o)).

Definition FlatMap (o : Option T) (mapper : T → Option U) : Option U :=
  if negb (bool_decide (st o = statePresent)) then None
  else mapper (value o).

(** [TryMap]: the mapper returns [(U, error)]. *)
Definition TryMap (o : Option T) (mapper : T → U * option error)
    : Option U :=
  if negb (bool_decide (st o = statePresent)) then None
  else
    let '(result, err) := mapper (value o) in
    if bool_decide (err ≠ Datatypes.None) then None
    else Some result.
End mappers.

End optional.

(** ** Package optional, flag-based revision (src/unnamed/part_016)

    The same package with a boolean presence flag; it has no [FromPair]
    and no nil state. *)

Module optional_flag.

Record Option (T : Type) := mkOption { isPresent : bool; value : T }.
Arguments mkOption {T} _ _.
Arguments isPresent {T} _.
Arguments value {T} _.

Section methods.
Context {T : Type} {ZV : ZeroValue T}.

Definition IsPresent (o : Option T) : bool := isPresent o.

(** [return !o.isPresent] *)
Definition IsAbsent (o : Option T) : bool := negb (isPresent o).

Definition Some (v : T) : Option T := mkOption true v.
Definition None : Option T := mkOption false zeroValue.
End methods.

End optional_flag.

(** ** The Go runtime pieces the hash package calls *)

(** [encoding/binary]: [binary.LittleEndian.PutUintN] stores the low
    N/8 bytes of its argument, least significant first. *)
Module binary.

Fixpoint le_bytes (n : nat) (v : Z) : list Z :=
  match n with
  | O => []
  | S n' => v mod 256 :: le_bytes n' (v / 256)
  end.

Definition PutUint16 (v : Z) : list Z := le_bytes 2 v.
Definition PutUint32 (v : Z) : list Z := le_bytes 4 v.
Definition PutUint64 (v : Z) : list Z := le_bytes 8 v.

End binary.

(** [hash/maphash]: the seeded hash of the Go runtime.  Its algorithm is
    not part of the repository; it is a parameter of the development,
    a function from a seed and a byte sequence to a 64-bit value. *)
Module maphash.

(** [maphash.Seed] wraps a 64-bit random value. *)
Definition Seed := Z.

Class Runtime := Bytes : Seed → list Z → Z.

Fixpoint string_bytes (s : string) : list Z :=
  match s with
  | EmptyString => []
  | String a s' => Z.of_N (N_of_ascii a) :: string_bytes s'
  end.

(** [maphash.String(seed, s)] is the hash of the bytes of [s], and so
    is [h.SetSeed(seed); h.WriteString(s); h.Sum64()]. *)
Definition String {RT : Runtime} (seed : Seed) (s : string) : Z :=
  Bytes seed (string_bytes s).

End maphash.

(** [reflect]: kinds and the part of a type descriptor that
    [flattenStruct] and [GetHashFunc] look at. *)
Module reflect.

Inductive Kind :=
| Invalid | Bool | Int | Int8 | Int16 | Int32 | Int64
| Uint | Uint8 | Uint16 | Uint32 | Uint64 | Uintptr
| Float32 | Float64 | Complex64 | Complex128
| Array | Chan | Func | Interface | Map | Pointer | Slice
| String | Struct | UnsafePointer.

#[global] Instance Kind_eq_dec : EqDecision Kind.
Proof. solve_decision. Defined.

(** A type is a predeclared type ([int], [string], ...: the only types
    a [case int:] of a type switch matches), another type that is not a
    struct (a defined type such as [type ID int], a pointer, an array,
    ...), or a struct with its fields: name, byte offset, type. *)
#[warnings="-register-all"]
Inductive rtype :=
| TBuiltin (k : Kind)
| TDefined (k : Kind)
| TStruct (fields : list (string * Z * rtype)).

Definition kind (t : rtype) : Kind :=
  match t with
  | TBuiltin k => k
  | TDefined k => k
  | TStruct _ => Struct
  end.

End reflect.

(** ** Package hash (src/unnamed/part_017) *)

Module hash.

Definition Hasher (T : Type) := maphash.Seed → T → Z.

(** What the hash package sees of a key type [K] through [any(key)],
    [reflect.TypeOf] and [unsafe.Pointer]:
    - [typeOf]: [reflect.TypeOf(k)] of the zero value [k]; it is nil
      ([None]) when [K] is an interface type;
    - [numAt key off]: the numeric object stored [off] bytes into the
      key: the value of an integer, the IEEE bits of a float
      ([math.Float64bits]), the address held by a pointer, 0 or 1 for a
      bool; a scalar key is stored at offset 0;
    - [strAt key off]: the string stored at that offset;
    - [hashMethod]: the method [Hash(seed) uint32] when [K] implements
      [Hashable];
    - [stringMethod]: the method [String() string] when [K] has one. *)
Class KeyType (K : Type) := {
  typeOf : option reflect.rtype;
  numAt : K → Z → Z;
  strAt : K → Z → string;
  hashMethod : option (K → maphash.Seed → Z);
  stringMethod : option (K → string);
}.

Record fieldInfo := mkFieldInfo { offset : Z; fkind : reflect.Kind }.

Section primitive_hashers.
Context {RT : maphash.Runtime}.

Definition StringHasher (seed : maphash.Seed) (s : string) : Z :=
  uint32 (maphash.String seed s).

Definition IntHasher (seed : maphash.Seed) (n : Z) : Z :=
  uint32 (maphash.Bytes seed (binary.PutUint64 (uint64 n))).

Definition Int8Hasher (seed : maphash.Seed) (n : Z) : Z :=
  uint32 (maphash.Bytes seed [uint8 n]).

Definition Int16Hasher (seed : maphash.Seed) (n : Z) : Z :=
  uint32 (maphash.Bytes seed (binary.PutUint16 (uint16 n))).

Definition Int32Hasher (seed : maphash.Seed) (n : Z) : Z :=
  uint32 (maphash.Bytes seed (binary.PutUint32 (uint32 n))).

Definition Int64Hasher (seed : maphash.Seed) (n : Z) : Z :=
  uint32 (maphash.Bytes seed (binary.PutUint64 (uint64 n))).

Definition UintHasher (seed : maphash.Seed) (n : Z) : Z :=
  uint32 (maphash.Bytes seed (binary.PutUint64 (uint64 n))).

Definition Uint8Hasher (seed : maphash.Seed) (n : Z) : Z :=
  uint32 (maphash.Bytes seed [n]).

Definition Uint16Hasher (seed : maphash.Seed) (n : Z) : Z :=
  uint32 (maphash.Bytes seed (binary.PutUint16 n)).

Definition Uint32Hasher (seed : maphash.Seed) (n : Z) : Z :=
  uint32 (maphash.Bytes seed (binary.PutUint32 n)).

Definition Uint64Hasher (seed : maphash.Seed) (n : Z) : Z :=
  uint32 (maphash.Bytes seed (binary.PutUint64 n)).

Definition UintptrHasher (seed : maphash.Seed) (n : Z) : Z :=
  uint32 (maphash.Bytes seed (binary.PutUint64 (uint64 n))).

(** The argument is [math.Float32bits(f)]. *)
Definition Float32Hasher (seed : maphash.Seed) (bits : Z) : Z :=
  uint32 (maphash.Bytes seed (binary.PutUint32 bits)).

(** The argument is [math.Float64bits(f)]. *)
Definition Float64Hasher (seed : maphash.Seed) (bits : Z) : Z :=
  uint32 (maphash.Bytes seed (binary.PutUint64 bits)).

Definition BoolHasher (seed : maphash.Seed) (v : bool) : Z :=
  let val := if v then 1 else 0 in
  uint32 (maphash.Bytes seed [val]).
End primitive_hashers.

(** [flattenStruct]: the descriptors of the fields of a struct type,
    nested structs flattened, in declaration order.  Offsets are byte
    offsets inside one value, far below the range of [uintptr]. *)
Fixpoint flattenStruct (st : reflect.rtype) (baseOffset : Z) : list fieldInfo :=
  match st with
  | reflect.TStruct fs =>
      (fix fields_of (fs : list (string * Z * reflect.rtype)) : list fieldInfo :=
         match fs with
         | [] => []
         | (name, off, ft) :: rest =>
             (if String.eqb name "_" then []
              else
                match ft with
                | reflect.TStruct _ => flattenStruct ft (baseOffset + off)
                | _ =>
                    match reflect.kind ft with
                    | reflect.String | reflect.Int | reflect.Int8 | reflect.Int16
                    | reflect.Int32 | reflect.Int64 | reflect.Uint | reflect.Uint8
                    | reflect.Uint16 | reflect.Uint32 | reflect.Uint64
                    | reflect.Uintptr | reflect.Float32 | reflect.Float64
                    | reflect.Bool | reflect.Pointer | reflect.UnsafePointer =>
                        [mkFieldInfo (baseOffset + off) (reflect.kind ft)]
                    | _ => []
                    end
                end) ++ fields_of rest
         end) fs
  | _ => []
  end.

Section hashers.
Context {K : Type} {KT : KeyType K} {RT : maphash.Runtime}.

(** The body of the [switch f.kind] of [CreateStructHasher]: the
    digest [fHash] of one field; [fHash] keeps its zero value when no
    case applies. *)
Definition fieldHash (seed : maphash.Seed) (key : K) (f : fieldInfo) : Z :=
  match fkind f with
  | reflect.String => StringHasher seed (strAt key (offset f))
  | reflect.Int => IntHasher seed (numAt key (offset f))
  | reflect.Int8 => Int8Hasher seed (numAt key (offset f))
  | reflect.Int16 => Int16Hasher seed (numAt key (offset f))
  | reflect.Int32 => Int32Hasher seed (numAt key (offset f))
  | reflect.Int64 => Int64Hasher seed (numAt key (offset f))
  | reflect.Uint => UintHasher seed (numAt key (offset f))
  | reflect.Uint8 => Uint8Hasher seed (numAt key (offset f))
  | reflect.Uint16 => Uint16Hasher seed (numAt key (offset f))
  | reflect.Uint32 => Uint32Hasher seed (numAt key (offset f))
  | reflect.Uint64 => Uint64Hasher seed (numAt key (offset f))
  | reflect.Uintptr => UintptrHasher seed (numAt key (offset f))
  | reflect.Float32 => Float32Hasher seed (numAt key (offset f))
  | reflect.Float64 => Float64Hasher seed (numAt key (offset f))
  | reflect.Bool => BoolHasher seed (negb (numAt key (offset f) =? 0))
  | reflect.Pointer | reflect.UnsafePointer =>
      uint32 (maphash.Bytes seed
                (binary.PutUint64 (uint64 (numAt key (offset f)))))
  | _ => 0
  end.

(** [h ^= fHash + 0x9e3779b9 + (h << 6) + (h >> 2)] on [uint32]:
    the shift and each addition wrap on their own. *)
Definition mixStep (h fHash : Z) : Z :=
  Z.lxor h
    (uint32 (uint32 (uint32 (fHash + 0x9e3779b9) + uint32 (Z.shiftl h 6))
             + Z.shiftr h 2)).

(** The loop [for _, f := range fields] with its accumulator [h]. *)
Fixpoint hashFields (seed : maphash.Seed) (key : K)
    (fields : list fieldInfo) (h : Z) : Z :=
  match fields with
  | [] => h
  | f :: rest => hashFields seed key rest (mixStep h (fieldHash seed key f))
  end.

Definition CreateStructHasher (t : reflect.rtype) : Hasher K :=
  let fields := flattenStruct t 0 in
  fun seed key => hashFields seed key fields 0.

(** The closure of the [default] branch for a key that is not a
    struct. *)
Definition fallbackHasher : Hasher K :=
  fun seed key =>
    match hashMethod (K:=K) with
    | Some hashOf => hashOf key seed
    | None =>
        match stringMethod (K:=K) with
        | Some stringOf => uint32 (maphash.String seed (stringOf key))
        | None => uint32 (maphash.Bytes seed [])
        end
    end.

(** [GetHashFunc]: [None] is the nil-pointer panic of [t.Kind()] for
    an interface-typed [K]. *)
Definition GetHashFunc : option (Hasher K) :=
  match typeOf (K:=K) with
  | Some (reflect.TBuiltin reflect.String) =>
      Some (fun seed key => StringHasher seed (strAt key 0))
  | Some (reflect.TBuiltin reflect.Int) =>
      Some (fun seed key => IntHasher seed (numAt key 0))
  | Some (reflect.TBuiltin reflect.Int8) =>
      Some (fun seed key => Int8Hasher seed (numAt key 0))
  | Some (reflect.TBuiltin reflect.Int16) =>
      Some (fun seed key => Int16Hasher seed (numAt key 0))
  | Some (reflect.TBuiltin reflect.Int32) =>
      Some (fun seed key => Int32Hasher seed (numAt key 0))
  | Some (reflect.TBuiltin reflect.Int64) =>
      Some (fun seed key => Int64Hasher seed (numAt key 0))
  | Some (reflect.TBuiltin reflect.Uint) =>
      Some (fun seed key => UintHasher seed (numAt key 0))
  | Some (reflect.TBuiltin reflect.Uint8) =>
      Some (fun seed key => Uint8Hasher seed (numAt key 0))
  | Some (reflect.TBuiltin reflect.Uint16) =>
      Some (fun seed key => Uint16Hasher seed (numAt key 0))
  | Some (reflect.TBuiltin reflect.Uint32) =>
      Some (fun seed key => Uint32Hasher seed (numAt key 0))
  | Some (reflect.TBuiltin reflect.Uint64) =>
      Some (fun seed key => Uint64Hasher seed (numAt key 0))
  | Some (reflect.TBuiltin reflect.Uintptr) =>
      Some (fun seed key => UintptrHasher seed (numAt key 0))
  | Some (reflect.TBuiltin reflect.Float32) =>
      Some (fun seed key => Float32Hasher seed (numAt key 0))
  | Some (reflect.TBuiltin reflect.Float64) =>
      Some (fun seed key => Float64Hasher seed (numAt key 0))
  | Some (reflect.TBuiltin reflect.Bool) =>
      Some (fun seed key => BoolHasher seed (negb (numAt key 0 =? 0)))
  | Some t =>
      if bool_decide (reflect.kind t = reflect.Struct)
      then Some (CreateStructHasher t)
      else Some fallbackHasher
  | None => None
  end.
End hashers.

End hash.

(** ** Package cmap (src/cmap/doc.go) *)

Module cmap.

Definition SHARD_COUNT : Z := 32.

(** The runtime's [maxAlloc] on the 64-bit ports (48 address bits): the
    most bytes one allocation can take. *)
Definition maxAlloc : Z := 2 ^ 48.

(** [nextPowerOf2] on the 64-bit [int]: [n--] and [n++] wrap, [>>] is
    the arithmetic shift, [|] the bitwise or of two's complement. *)
Definition nextPowerOf2 (n : Z) : Z :=
  if n <=? 0 then 1
  else
    let n := int64 (n - 1) in
    let n := Z.lor n (Z.shiftr n 1) in
    let n := Z.lor n (Z.shiftr n 2) in
    let n := Z.lor n (Z.shiftr n 4) in
    let n := Z.lor n (Z.shiftr n 8) in
    let n := Z.lor n (Z.shiftr n 16) in
    let n := int64 (n + 1) in
    n.

Section cmap.
Context {K V : Type} {Keq : EqDecision K} {Kcnt : Countable K}.
Context {KT : hash.KeyType K} {RT : maphash.Runtime} {ZV : ZeroValue V}.

(** A shard is its [items] map; the slice holds one pointer per
    shard, each to a shard of its own. *)
Record ConcurrentMap := mkMap {
  shards : list (gmap K V);
  shardMask : Z;
  hashFunc : hash.Hasher K;
  seed : maphash.Seed;
}.

(** [type Option func(ConcurrentMap) ConcurrentMap] *)
Definition Option := ConcurrentMap → ConcurrentMap.

Definition WithHash (f : hash.Hasher K) : Option :=
  fun m => mkMap (shards m) (shardMask m) f (seed m).

Definition WithSeed (s : maphash.Seed) : Option :=
  fun m => mkMap (shards m) (shardMask m) (hashFunc m) s.

(** [WithShards]; [freshSeed] is the value [maphash.MakeSeed()]
    draws.  [make([]*shard[K, V], shardCount)] panics on a negative
    length and on a length whose 8-byte pointers take more than
    [maxAlloc] bytes ("makeslice: len out of range"), and
    [hash.GetHashFunc] on an interface-typed key. *)
Definition WithShards (shardCount : Z) (freshSeed : maphash.Seed)
    (opts : list Option) : option ConcurrentMap :=
  let shardCount := if shardCount <=? 0 then SHARD_COUNT else shardCount in
  let shardCount := nextPowerOf2 shardCount in
  if (shardCount <? 0) || (maxAlloc <? 8 * shardCount) then None
  else
    match hash.GetHashFunc (K:=K) with
    | None => None
    | Some h =>
        let m := {| shards := replicate (Z.to_nat shardCount) ∅;
                    shardMask := uint32 (shardCount - 1);
                    hashFunc := h;
                    seed := freshSeed |} in
        Some (foldl (fun m opt => opt m) m opts)
    end.

Definition New (freshSeed : maphash.Seed) (opts : list Option)
    : option ConcurrentMap :=
  WithShards SHARD_COUNT freshSeed opts.

(** [getShard]: the index [hashVal & m.shardMask] and the shard it
    selects; indexing past the end of the slice panics. *)
Definition shardIndex (m : ConcurrentMap) (key : K) : nat :=
  let hashVal := hashFunc m (seed m) key in
  let index := Z.land hashVal (shardMask m) in
  Z.to_nat index.

Definition getShard (m : ConcurrentMap) (key : K) : option (gmap K V) :=
  shards m !! shardIndex m key.

(** The map after the shard of [key] has been given the contents
    [items] (the write through the shard pointer). *)
Definition putShard (m : ConcurrentMap) (key : K) (items : gmap K V)
    : ConcurrentMap :=
  mkMap (<[shardIndex m key := items]> (shards m))
        (shardMask m) (hashFunc m) (seed m).

(** [val, ok := items[key]] *)
Definition commaOk (items : gmap K V) (key : K) : V * bool :=
  match items !! key with
  | Some v => (v, true)
  | None => (zeroValue, false)
  end.

(** A method: the map after the call and the value returned, or a
    panic. *)
Definition Method (R : Type) := ConcurrentMap → option (ConcurrentMap * R).

Definition Set_ (key : K) (value : V) : Method unit :=
  fun m =>
    items ← getShard m key;
    Some (putShard m key (<[key := value]> items), tt).

Definition Get (key : K) : Method (optional.Option V) :=
  fun m =>
    items ← getShard m key;
    let '(val, ok) := commaOk items key in
    Some (m, optional.FromPair val ok).

Definition Delete (key : K) : Method unit :=
  fun m =>
    items ← getShard m key;
    Some (putShard m key (delete key items), tt).

Definition Has (key : K) : Method bool :=
  fun m =>
    '(m', o) ← Get key m;
    Some (m', optional.IsPresent o).

Definition GetOrSet (key : K) (value : V) : Method (V * bool) :=
  fun m =>
    items ← getShard m key;
    let '(existingVal, ok) := commaOk items key in
    if ok then Some (m, (existingVal, true))
    else Some (putShard m key (<[key := value]> items), (value, false)).

Definition SetIfAbsent (key : K) (value : V) : Method bool :=
  fun m =>
    items ← getShard m key;
    let '(_, ok) := commaOk items key in
    if ok then Some (m, false)
    else Some (putShard m key (<[key := value]> items), true).

Definition Remove (key : K) : Method (optional.Option V) :=
  fun m =>
    items ← getShard m key;
    let '(val, ok) := commaOk items key in
    let m' := if ok then putShard m key (delete key items) else m in
    Some (m', optional.FromPair val ok).

Definition Compute (key : K) (fn : optional.Option V → V) : Method V :=
  fun m =>
    items ← getShard m key;
    let '(oldValue, exists_) := commaOk items key in
    let newValue := fn (optional.FromPair oldValue exists_) in
    Some (putShard m key (<[key := newValue]> items), newValue).

(** [count += len(shard.items)] over the shards, on [int]. *)
Definition Len : Method Z :=
  fun m =>
    Some (m, foldl (fun count items => int64 (count + Z.of_nat (size items)))
                   0 (shards m)).

Definition Clear : Method unit :=
  fun m =>
    Some (mkMap ((fun _ => ∅) <$> shards m)
                (shardMask m) (hashFunc m) (seed m), tt).

(** *** Iteration and snapshots

    The order in which [for k, v := range shard.items] visits a Go map
    is not specified and changes from one loop to the next: every call
    that iterates takes the order [ord] of its loops as an argument.
    The callback of [Range] works on the state [S] its closure
    captures and returns it with its verdict; it is not given the map
    ([Range] holds the read lock of the shard while it runs). *)

Record Item := mkItem { Key : K; Value : V }.

Definition MapOrder := gmap K V → list (K * V).

(** The loop over one shard; [false] is the [return] of [Range]. *)
Fixpoint rangeItems {S : Type} (fn : K → V → S → S * bool)
    (kvs : list (K * V)) (s : S) : S * bool :=
  match kvs with
  | [] => (s, true)
  | (k, v) :: rest =>
      let '(s', continue_) := fn k v s in
      if continue_ then rangeItems fn rest s' else (s', false)
  end.

(** The loop over the shards. *)
Fixpoint rangeShards {S : Type} (ord : MapOrder) (fn : K → V → S → S * bool)
    (shs : list (gmap K V)) (s : S) : S :=
  match shs with
  | [] => s
  | items :: rest =>
      let '(s', continue_) := rangeItems fn (ord items) s in
      if continue_ then rangeShards ord fn rest s' else s'
  end.

Definition Range {S : Type} (ord : MapOrder) (fn : K → V → S → S * bool)
    (s : S) (m : ConcurrentMap) : S :=
  rangeShards ord fn (shards m) s.

(** [make([]K, 0, m.Len())] panics on a negative capacity. *)
Definition Keys (ord : MapOrder) : Method (list K) :=
  fun m =>
    '(m, n) ← Len m;
    if n <? 0 then None
    else Some (m, Range ord (fun key _ keys => (keys ++ [key], true)) [] m).

Definition Values (ord : MapOrder) : Method (list V) :=
  fun m =>
    '(m, n) ← Len m;
    if n <? 0 then None
    else Some (m, Range ord (fun _ value values => (values ++ [value], true))
                        [] m).

Definition Items (ord : MapOrder) : Method (list Item) :=
  fun m =>
    '(m, n) ← Len m;
    if n <? 0 then None
    else Some (m, Range ord (fun key value items =>
                               (items ++ [mkItem key value], true)) [] m).

(** [Clone]: the callback calls [clone.Set]; a panic in it ends the
    call.  [freshSeed] is the seed [WithShards] draws before [WithSeed]
    replaces it. *)
Definition Clone (ord : MapOrder) (freshSeed : maphash.Seed)
    : Method ConcurrentMap :=
  fun m =>
    clone ← WithShards (Z.of_nat (length (shards m))) freshSeed
                       [WithHash (hashFunc m); WithSeed (seed m)];
    clone ← Range ord (fun key value (clone : option ConcurrentMap) =>
                         match (clone ≫= Set_ key value) with
                         | Some (clone', _) => (Some clone', true)
                         | None => (None, false)
                         end)
                  (Some clone) m;
    Some (m, clone).

(** *** Sequences of calls *)

Inductive Call :=
| CallSet (key : K) (value : V)
| CallGet (key : K)
| CallDelete (key : K)
| CallHas (key : K)
| CallGetOrSet (key : K) (value : V)
| CallSetIfAbsent (key : K) (value : V)
| CallRemove (key : K)
| CallCompute (key : K) (fn : optional.Option V → V)
| CallLen
| CallClear.

(** The map after one call, its result dropped. *)
Definition exec (c : Call) (m : ConcurrentMap) : option ConcurrentMap :=
  match c with
  | CallSet k v => fst <$> Set_ k v m
  | CallGet k => fst <$> Get k m
  | CallDelete k => fst <$> Delete k m
  | CallHas k => fst <$> Has k m
  | CallGetOrSet k v => fst <$> GetOrSet k v m
  | CallSetIfAbsent k v => fst <$> SetIfAbsent k v m
  | CallRemove k => fst <$> Remove k m
  | CallCompute k fn => fst <$> Compute k fn m
  | CallLen => fst <$> Len m
  | CallClear => fst <$> Clear m
  end.

Fixpoint run (cs : list Call) (m : ConcurrentMap) : option ConcurrentMap :=
  match cs with
  | [] => Some m
  | c :: cs' => m' ← exec c m; run cs' m'
  end.

(** A write of the "N set and M delete calls" scenario. *)
Inductive Write :=
| WSet (key : K) (value : V)
| WDelete (key : K).

Definition call_of (w : Write) : Call :=
  match w with
  | WSet k v => CallSet k v
  | WDelete k => CallDelete k
  end.

(** The keys that survive a sequence of writes: set and not deleted
    afterwards. *)
Fixpoint surviving (ws : list Write) (live : gset K) : gset K :=
  match ws with
  | [] => live
  | WSet k _ :: ws' => surviving ws' ({[k]} ∪ live)
  | WDelete k :: ws' => surviving ws' (live ∖ {[k]})
  end.

(** *** Views used in the statements *)

(** The value the map holds for a key: the entry of the key's shard. *)
Definition find (m : ConcurrentMap) (key : K) : option V :=
  items ← getShard m key; items !! key.

(** Shape invariant: the mask addresses existing shards only. *)
Definition wf (m : ConcurrentMap) : Prop :=
  0 ≤ shardMask m < Z.of_nat (length (shards m)).

(** An option that leaves the shard slice and the mask alone, as
    [WithHash] and [WithSeed] do. *)
Definition keeps_shards (opt : Option) : Prop :=
  ∀ m, shards (opt m) = shards m ∧ shardMask (opt m) = shardMask m.
End cmap.

Arguments ConcurrentMap K V {_ _}.
Arguments Call K V : clear implicits.
Arguments Write K V : clear implicits.
Arguments Item K V : clear implicits.
Arguments MapOrder K V {_ _}.

End cmap.

(** ** Package collectors (src/collectors/collectors.go): the
    collectors that work on an [optional.Option], and [ToSlice] *)

Module collectors.

(** [type Collector[T, A, R any] interface]: its three methods. *)
Record Collector (T A R : Type) := mkCollector {
  Supplier : A;
  Accumulator : A → T → A;
  Finisher : A → R;
}.
Arguments mkCollector {T A R} _ _ _.
Arguments Supplier {T A R} _.
Arguments Accumulator {T A R} _ _ _.
Arguments Finisher {T A R} _ _.

Definition ToSlice {T : Type} : Collector T (list T) (list T) :=
  mkCollector [] (fun acc elem => acc ++ [elem]) (fun acc => acc).

Definition MinBy {T : Type} {ZV : ZeroValue T} (less : T → T → bool)
    : Collector T (optional.Option T) (optional.Option T) :=
  mkCollector optional.None
    (fun acc elem =>
       if optional.IsAbsent acc then optional.Some elem
       else if less elem (optional.Get acc) then optional.Some elem
       else acc)
    (fun acc => acc).

Definition MaxBy {T : Type} {ZV : ZeroValue T} (less : T → T → bool)
    : Collector T (optional.Option T) (optional.Option T) :=
  mkCollector optional.None
    (fun acc elem =>
       if optional.IsAbsent acc then optional.Some elem
       else if less (optional.Get acc) elem then optional.Some elem
       else acc)
    (fun acc => acc).

End collectors.

(** ** Package stream (src/unnamed/part_009): streams of a slice and
    the terminal operations that return an [optional.Option]

    [iter.Seq[T]] is [func(yield func(T) bool)]: the body of a
    [for v := range seq] loop is the [yield], it works on the
    variables [S] of the enclosing function and answers [false] when
    it leaves the loop. *)

Module stream.

Record Stream (T : Type) := mkStream {
  seq : ∀ S : Type, (T → S → S * bool) → S → S;
}.
Arguments mkStream {T} _.
Arguments seq {T} _ {S} _ _.

(** The loop [for _, v := range slice { if !yield(v) { return } }]. *)
Fixpoint rangeSlice {T S : Type} (slice : list T) (yield : T → S → S * bool)
    (s : S) : S :=
  match slice with
  | [] => s
  | v :: rest =>
      let '(s', continue_) := yield v s in
      if continue_ then rangeSlice rest yield s' else s'
  end.

Definition From {T : Type} (slice : list T) : Stream T :=
  mkStream (fun S yield s => rangeSlice slice yield s).

Definition Of {T : Type} (values : list T) : Stream T := From values.

Definition Empty {T : Type} : Stream T := mkStream (fun S yield s => s).

Definition Filter {T : Type} (s : Stream T) (predicate : T → bool) : Stream T :=
  mkStream (fun S yield st =>
    seq s (fun v st => if predicate v then yield v st else (st, true)) st).

Definition CollectTo {T A R : Type} (s : Stream T)
    (collector : collectors.Collector T A R) : R :=
  let acc := collectors.Supplier collector in
  let acc := seq s (fun v acc => (collectors.Accumulator collector acc v, true))
                 acc in
  collectors.Finisher collector acc.

Definition ToSlice {T : Type} (s : Stream T) : list T :=
  seq s (fun v result => (result ++ [v], true)) [].

Definition Reduce {T : Type} (s : Stream T) (identity : T)
    (accumulator : T → T → T) : T :=
  seq s (fun v result => (accumulator result v, true)) identity.

Section terminal.
Context {T : Type} {ZV : ZeroValue T}.

(** The loop variables are [result] and [first]. *)
Definition ReduceOptional (s : Stream T) (accumulator : T → T → T)
    : optional.Option T :=
  let '(result, first) :=
    seq s (S := T * bool) (fun v '(result, first) =>
             if first then ((v, false), true)
             else ((accumulator result v, first), true))
          (zeroValue, true) in
  if first then optional.None else optional.Some result.

(** [for v := range s.seq { return optional.Some(v) }] *)
Definition FindFirst (s : Stream T) : optional.Option T :=
  match seq s (S := option (optional.Option T))
            (fun v _ => (Datatypes.Some (optional.Some v), false))
            Datatypes.None with
  | Datatypes.Some o => o
  | Datatypes.None => optional.None
  end.

Definition FindAny (s : Stream T) : optional.Option T := FindFirst s.

Definition Min (s : Stream T) (less : T → T → bool) : optional.Option T :=
  let '(min, first) :=
    seq s (S := T * bool) (fun v '(min, first) =>
             if first || less v min then ((v, false), true)
             else ((min, first), true))
          (zeroValue, true) in
  if first then optional.None else optional.Some min.

Definition Max (s : Stream T) (less : T → T → bool) : optional.Option T :=
  let '(max, first) :=
    seq s (S := T * bool) (fun v '(max, first) =>
             if first || less max v then ((v, false), true)
             else ((max, first), true))
          (zeroValue, true) in
  if first then optional.None else optional.Some max.
End terminal.

End stream.

(** ** The design document's reading of the mixing step *)

(** "h = h XOR (fieldDigest + 0x9e3779b9 + (h << 6) + (h >> 2))", the
    sum taken in 32-bit unsigned arithmetic, that is modulo 2^32. *)
Definition spec_mix (h fieldDigest : Z) : Z :=
  Z.lxor h ((fieldDigest + 0x9e3779b9 + h * 2 ^ 6 + h / 2 ^ 2) mod 2 ^ 32).

(** The left fold of the step over the field digests, from [h = 0]. *)
Definition spec_digest (fieldDigests : list Z) : Z :=
  fold_left spec_mix fieldDigests 0.

(** The kinds [flattenStruct] keeps a descriptor for. *)
Definition described (k : reflect.Kind) : bool :=
  match k with
  | reflect.String | reflect.Int | reflect.Int8 | reflect.Int16
  | reflect.Int32 | reflect.Int64 | reflect.Uint | reflect.Uint8
  | reflect.Uint16 | reflect.Uint32 | reflect.Uint64 | reflect.Uintptr
  | reflect.Float32 | reflect.Float64 | reflect.Bool
  | reflect.Pointer | reflect.UnsafePointer => true
  | _ => false
  end.

(** The primitive kinds of the design document: integers of all widths,
    floating point, boolean, text.  Indirections are not among them. *)
Definition primitive (k : reflect.Kind) : bool :=
  match k with
  | reflect.Pointer | reflect.UnsafePointer => false
  | _ => described k
  end.

(** Two keys hold the same object at a descriptor. *)
Definition same_field {K : Type} {KT : hash.KeyType K} (k1 k2 : K)
    (f : hash.fieldInfo) : Prop :=
  hash.numAt k1 (hash.offset f) = hash.numAt k2 (hash.offset f) ∧
  hash.strAt k1 (hash.offset f) = hash.strAt k2 (hash.offset f).

(** ** Concrete key types and a concrete runtime hash

    Used to evaluate the definitions on examples. *)

(** A stand-in for the runtime's seeded hash: a multiplicative fold over
    the bytes, on 64 bits. *)
Definition sampleBytes (seed : maphash.Seed) (bs : list Z) : Z :=
  fold_left (fun h b => uint64 (h * 1099511628211 + b + 1)) bs (uint64 seed).

Definition sampleRuntime : maphash.Runtime := sampleBytes.

(** [string] keys. *)
#[global] Instance string_key : hash.KeyType string := {|
  hash.typeOf := Some (reflect.TBuiltin reflect.String);
  hash.numAt := fun _ _ => 0;
  hash.strAt := fun s _ => s;
  hash.hashMethod := None;
  hash.stringMethod := None;
|}.

(** [int] keys. *)
#[global] Instance int_key : hash.KeyType Z := {|
  hash.typeOf := Some (reflect.TBuiltin reflect.Int);
  hash.numAt := fun n _ => n;
  hash.strAt := fun _ _ => EmptyString;
  hash.hashMethod := None;
  hash.stringMethod := None;
|}.

(** [type Handle struct { ID int; Ref *int }]: [ID] at offset 0, the
    pointer [Ref] at offset 8. *)
Record Handle := mkHandle { handle_ID : Z; handle_Ref : Z }.

Definition Handle_type : reflect.rtype :=
  reflect.TStruct [("ID"%string, 0, reflect.TBuiltin reflect.Int);
                   ("Ref"%string, 8, reflect.TDefined reflect.Pointer)].

#[global] Instance Handle_key : hash.KeyType Handle := {|
  hash.typeOf := Some Handle_type;
  hash.numAt := fun k off =>
    if off =? 0 then handle_ID k else if off =? 8 then handle_Ref k else 0;
  hash.strAt := fun _ _ => EmptyString;
  hash.hashMethod := None;
  hash.stringMethod := None;
|}.

(** [type Point struct { X, Y int }] with the method
    [func (p Point) Hash(seed maphash.Seed) uint32 { return 7 }]. *)
Record Point := mkPoint { point_X : Z; point_Y : Z }.

Definition Point_type : reflect.rtype :=
  reflect.TStruct [("X"%string, 0, reflect.TBuiltin reflect.Int);
                   ("Y"%string, 8, reflect.TBuiltin reflect.Int)].

#[global] Instance Point_key : hash.KeyType Point := {|
  hash.typeOf := Some Point_type;
  hash.numAt := fun p off =>
    if off =? 0 then point_X p else if off =? 8 then point_Y p else 0;
  hash.strAt := fun _ _ => EmptyString;
  hash.hashMethod := Some (fun _ _ => 7);
  hash.stringMethod := None;
|}.

(** [type Label struct { Name string; _ int32; Tags [2]int; Pos Point }]:
    a string, a blank field, an array (no descriptor) and a nested
    struct. *)
Definition Label_type : reflect.rtype :=
  reflect.TStruct [("Name"%string, 0, reflect.TBuiltin reflect.String);
                   ("_"%string, 16, reflect.TBuiltin reflect.Int32);
                   ("Tags"%string, 24, reflect.TDefined reflect.Array);
                   ("Pos"%string, 40, Point_type)].

(** [cmap.WithShards[string, int](2)] under the sample runtime, seed 1:
    two empty shards, mask 1. *)
Definition twoShards : cmap.ConcurrentMap string Z :=
  cmap.mkMap [∅; ∅] 1
    (fun seed key => hash.StringHasher (RT := sampleRuntime) seed (hash.strAt key 0))
    1.

(** The same map after [Set("a", 1)]. *)
Definition twoShards_a : cmap.ConcurrentMap string Z :=
  cmap.putShard twoShards "a"%string {["a"%string := 1]}.

(** The reading of "Delete returns a boolean reporting whether a removal
    occurred": some boolean read off the value the call returns is true
    exactly when the key was present. *)
Definition Delete_reports_removal (report : unit → bool) : Prop :=
  ∀ (m m' : cmap.ConcurrentMap string Z) (k : string) (r : unit),
    cmap.wf m →
    cmap.Delete k m = Some (m', r) →
    (report r = true ↔ is_Some (cmap.find m k)).

(** [Handle] as a map key: equality and enumeration of its values. *)
#[global] Instance Handle_eq_dec : EqDecision Handle.
Proof. solve_decision. Defined.

#[global] Instance Handle_countable : Countable Handle.
Proof.
  refine (inj_countable' (fun h => (handle_ID h, handle_Ref h))
                         (fun p => mkHandle p.1 p.2) _).
  by intros [].
Defined.

(** [cmap.New[Handle, int]()] under the sample runtime, seed 1: 32 empty
    shards, mask 31, the record-layout hasher of [Handle]. *)
Definition handleMap : cmap.ConcurrentMap Handle Z :=
  cmap.mkMap (replicate 32 ∅) 31
    (hash.CreateStructHasher (RT := sampleRuntime) Handle_type) 1.

(** [type Tagged struct { ID int; Tags [2]int }]: [ID] at offset 0, the
    two elements of the array at offsets 8 and 16. *)
Record Tagged := mkTagged { tagged_ID : Z; tagged_Tag0 : Z; tagged_Tag1 : Z }.

Definition Tagged_type : reflect.rtype :=
  reflect.TStruct [("ID"%string, 0, reflect.TBuiltin reflect.Int);
                   ("Tags"%string, 8, reflect.TDefined reflect.Array)].

#[global] Instance Tagged_key : hash.KeyType Tagged := {|
  hash.typeOf := Some Tagged_type;
  hash.numAt := fun k off =>
    if off =? 0 then tagged_ID k
    else if off =? 8 then tagged_Tag0 k
    else if off =? 16 then tagged_Tag1 k else 0;
  hash.strAt := fun _ _ => EmptyString;
  hash.hashMethod := None;
  hash.stringMethod := None;
|}.

#[global] Instance Tagged_eq_dec : EqDecision Tagged.
Proof. solve_decision. Defined.

#[global] Instance Tagged_countable : Countable Tagged.
Proof.
  refine (inj_countable' (fun k => (tagged_ID k, tagged_Tag0 k, tagged_Tag1 k))
                         (fun p => mkTagged p.1.1 p.1.2 p.2) _).
  by intros [].
Defined.

(** The values of the 64-bit [int]. *)
Definition is_int (z : Z) : Prop := - 2 ^ 63 ≤ z < 2 ^ 63.

(** One line [n |= n >> s] of [nextPowerOf2], and the five of them. *)
Definition orShift (s x : Z) : Z := Z.lor x (Z.shiftr x s).

Definition smear (x : Z) : Z :=
  orShift 16 (orShift 8 (orShift 4 (orShift 2 (orShift 1 x)))).

(** Two states of a map route alike: same hasher, seed, mask and number
    of shards. *)
Definition same_routing {K V : Type} {Keq : EqDecision K} {Kcnt : Countable K}
    (m m' : cmap.ConcurrentMap K V) : Prop :=
  cmap.hashFunc m' = cmap.hashFunc m ∧
  cmap.seed m' = cmap.seed m ∧
  cmap.shardMask m' = cmap.shardMask m ∧
  length (cmap.shards m') = length (cmap.shards m).

(** The number of entries over all shards. *)
Definition totalSize {K V : Type} {Keq : EqDecision K} {Kcnt : Countable K}
    (m : cmap.ConcurrentMap K V) : nat :=
  sum_list_with (fun items : gmap K V => size items) (cmap.shards m).

(** The shards hold exactly the keys of [live], each in the one shard it
    hashes to. *)
Definition holds {K V : Type} {Keq : EqDecision K} {Kcnt : Countable K}
    (m : cmap.ConcurrentMap K V) (live : gset K) : Prop :=
  ∀ (i : nat) (items : gmap K V) (k : K),
    cmap.shards m !! i = Some items →
    (is_Some (items !! k) ↔ k ∈ live ∧ cmap.shardIndex m k = i).

(** ** Views used in the properties of the options, the snapshots and
    the hashers *)

(** The options the constructors and the combinators of the package
    build (all of them but [UnmarshalJSON]). *)
Inductive built : ∀ (T : Type), ZeroValue T → optional.Option T → Prop :=
| built_Some T ZV v : built T ZV (optional.Some v)
| built_None T ZV : built T ZV optional.None
| built_Nil T ZV : built T ZV optional.Nil
| built_FromPtr T ZV ptr : built T ZV (optional.FromPtr ptr)
| built_FromZero T ZV (Teq : EqDecision T) v :
    built T ZV (optional.FromZero v)
| built_FromPair T ZV v ok : built T ZV (optional.FromPair v ok)
| built_Filter T ZV o predicate :
    built T ZV o → built T ZV (optional.Filter o predicate)
| built_And T ZV o other :
    built T ZV o → built T ZV other → built T ZV (optional.And o other)
| built_Or T ZV o other :
    built T ZV o → built T ZV other → built T ZV (optional.Or o other)
| built_OrElseOption T ZV o supplier :
    built T ZV o → built T ZV (supplier tt) →
    built T ZV (optional.OrElseOption o supplier)
| built_Xor T ZV o other :
    built T ZV o → built T ZV other → built T ZV (optional.Xor o other)
| built_Map T U ZT ZU (o : optional.Option T) (mapper : T → U) :
    built T ZT o → built U ZU (optional.Map o mapper)
| built_FlatMap T U ZT ZU (o : optional.Option T)
      (mapper : T → optional.Option U) :
    built T ZT o → (∀ x, built U ZU (mapper x)) →
    built U ZU (optional.FlatMap o mapper)
| built_TryMap T U ZT ZU (o : optional.Option T)
      (mapper : T → U * option optional.error) :
    built T ZT o → built U ZU (optional.TryMap o mapper).

(** An iteration order is valid when it lists every entry of a shard
    once. *)
Definition valid_order {K V : Type} {Keq : EqDecision K} {Kcnt : Countable K}
    (ord : cmap.MapOrder K V) : Prop :=
  ∀ items, ord items ≡ₚ map_to_list items.

(** The entries [Range] visits when it is not stopped: those of the
    first shard, then those of the second, and so on. *)
Definition entries {K V : Type} {Keq : EqDecision K} {Kcnt : Countable K}
    (ord : cmap.MapOrder K V) (m : cmap.ConcurrentMap K V) : list (K * V) :=
  cmap.shards m ≫= ord.

(** The shape [WithShards] gives a map for a hint up to 2^32: the
    number of shards is a power of two and the mask is that number
    less one. *)
Definition sized {K V : Type} {Keq : EqDecision K} {Kcnt : Countable K}
    (m : cmap.ConcurrentMap K V) : Prop :=
  ∃ j, 0 ≤ j ≤ 32 ∧ Z.of_nat (length (cmap.shards m)) = 2 ^ j ∧
       cmap.shardMask m = 2 ^ j - 1.

(** The fields of a nested struct as fields of the struct around it:
    each offset moved by the offset of the nested struct. *)
Definition inlined (off : Z) (fs : list (string * Z * reflect.rtype))
    : list (string * Z * reflect.rtype) :=
  (fun f => (f.1.1, off + f.1.2, f.2)) <$> fs.

(** A field [flattenStruct] keeps no descriptor for: a blank one, or
    one that is no struct and of a kind that is not described. *)
Definition skipped (f : string * Z * reflect.rtype) : Prop :=
  f.1.1 = "_"%string ∨
  ((∀ fs, f.2 ≠ reflect.TStruct fs) ∧ described (reflect.kind f.2) = false).

(** [type UserID int]: a defined type without methods. *)
Definition UserID_key : hash.KeyType Z := {|
  hash.typeOf := Some (reflect.TDefined reflect.Int);
  hash.numAt := fun key _ => key;
  hash.strAt := fun _ _ => EmptyString;
  hash.hashMethod := None;
  hash.stringMethod := None;
|}.

(** [type Blob struct { Sum [32]byte }]: a struct whose only field is
    an array; a key is its bytes. *)
Definition Blob_key : hash.KeyType (list Z) := {|
  hash.typeOf :=
    Some (reflect.TStruct [("Sum"%string, 0, reflect.TDefined reflect.Array)]);
  hash.numAt := fun key off => default 0 (key !! Z.to_nat off);
  hash.strAt := fun _ _ => EmptyString;
  hash.hashMethod := None;
  hash.stringMethod := None;
|}.

(** ** Key types compared by identity, and floating-point keys

    A shard is a map keyed by what is stored in a key, which is what
    the hasher reads.  For the key types below that is the [==] of the
    native map.  It is not for a float or complex key ([+0 == -0],
    [NaN != NaN]) nor for an interface key, which is compared by its
    dynamic value (and makes the native map panic when that value
    cannot be hashed); the elements of an array are not described by
    [reflect.rtype].  What a map holds, key by key, is stated for the
    key types below. *)

Definition exact_kind (k : reflect.Kind) : bool :=
  match k with
  | reflect.Bool | reflect.Int | reflect.Int8 | reflect.Int16 | reflect.Int32
  | reflect.Int64 | reflect.Uint | reflect.Uint8 | reflect.Uint16
  | reflect.Uint32 | reflect.Uint64 | reflect.Uintptr | reflect.String
  | reflect.Pointer | reflect.UnsafePointer | reflect.Chan => true
  | _ => false
  end.

Fixpoint exact_type (t : reflect.rtype) : bool :=
  match t with
  | reflect.TBuiltin k => exact_kind k
  | reflect.TDefined k => exact_kind k
  | reflect.TStruct fs =>
      (fix all (fs : list (string * Z * reflect.rtype)) : bool :=
         match fs with
         | [] => true
         | (_, ft) :: rest => exact_type ft && all rest
         end) fs
  end.

(** The key type [K] has no float, complex, interface or array part:
    two keys are [==] exactly when they are the same. *)
Definition exact_keys (K : Type) {KT : hash.KeyType K} : Prop :=
  ∃ t, hash.typeOf (K := K) = Some t ∧ exact_type t = true.

(** [float64] keys, each given by its IEEE 754 bits
    ([math.Float64bits]), which is what [Float64Hasher] hashes. *)
Definition Float64_key : hash.KeyType Z := {|
  hash.typeOf := Some (reflect.TBuiltin reflect.Float64);
  hash.numAt := fun bits _ => bits;
  hash.strAt := fun _ _ => EmptyString;
  hash.hashMethod := None;
  hash.stringMethod := None;
|}.

(** The bits of [0.0] and of [-0.0]. *)
Definition posZero : Z := 0.
Definition negZero : Z := 2 ^ 63.

Definition float64_isNaN (bits : Z) : bool :=
  (Z.land (Z.shiftr bits 52) 2047 =? 2047)
  && negb (Z.land bits (2 ^ 52 - 1) =? 0).

(** Go's [==] on two [float64] given by their bits: a NaN equals
    nothing, the two zeros are equal, any other value equals itself
    only. *)
Definition float64_eq (a b : Z) : bool :=
  if float64_isNaN a || float64_isNaN b then false
  else if (Z.land a (2 ^ 63 - 1) =? 0) && (Z.land b (2 ^ 63 - 1) =? 0) then true
  else a =? b.

(** [type Temp struct { ID int; T float64 }]: [ID] at offset 0, the
    bits of [T] at offset 8. *)
Record Temp := mkTemp { temp_ID : Z; temp_T : Z }.

Definition Temp_type : reflect.rtype :=
  reflect.TStruct [("ID"%string, 0, reflect.TBuiltin reflect.Int);
                   ("T"%string, 8, reflect.TBuiltin reflect.Float64)].

Definition Temp_key : hash.KeyType Temp := {|
  hash.typeOf := Some Temp_type;
  hash.numAt := fun key off => if off =? 0 then temp_ID key else temp_T key;
  hash.strAt := fun _ _ => EmptyString;
  hash.hashMethod := None;
  hash.stringMethod := None;
|}.

(** [cmap.WithShards[float64, int](256)] under the sample runtime,
    seed 1, and the same map after [Set(0.0, 1)]. *)
Definition floatShards : cmap.ConcurrentMap Z Z :=
  cmap.mkMap (replicate 256 ∅) 255
    (fun seed key => hash.Float64Hasher (RT := sampleRuntime) seed
                       (hash.numAt (KeyType := Float64_key) key 0))
    1.

Definition floatShards_pos : cmap.ConcurrentMap Z Z :=
  cmap.putShard floatShards posZero {[posZero := 1]}.

(** * Properties *)

(** ** Machine integers *)

Lemma uint32_range z : 0 ≤ uint32 z < 2 ^ 32.
Proof. unfold uint32. apply Z.mod_pos_bound. lia. Qed.

Lemma int64_small z : - 2 ^ 63 ≤ z < 2 ^ 63 → int64 z = z.
Proof.
  intros Hz. unfold int64.
  rewrite Z.mod_small by lia. lia.
Qed.

Lemma int64_add_l a b : int64 (int64 a + b) = int64 (a + b).
Proof.
  unfold int64.
  replace ((a + 2 ^ 63) mod 2 ^ 64 - 2 ^ 63 + b + 2 ^ 63)
    with ((a + 2 ^ 63) mod 2 ^ 64 + b) by lia.
  rewrite Zplus_mod_idemp_l.
  do 2 f_equal. lia.
Qed.

(** The bits of [a & b] are bits of [b]. *)
Lemma land_bounded a b : 0 ≤ b → 0 ≤ Z.land a b ≤ b.
Proof.
  intros Hb. split.
  - apply Z.land_nonneg. by right.
  - assert (Hd : Z.ldiff (Z.land a b) b = 0).
    { apply Z.bits_inj'. intros n Hn.
      rewrite Z.ldiff_spec, Z.land_spec, Z.bits_0.
      destruct (Z.testbit a n), (Z.testbit b n); reflexivity. }
    apply Z.sub_nocarry_ldiff in Hd.
    assert (0 ≤ Z.ldiff b (Z.land a b)) by (apply Z.ldiff_nonneg; by left).
    lia.
Qed.

(** ** Package optional *)

Section optional_facts.
Context {T : Type} {ZV : ZeroValue T}.

Lemma FromPair_present (v : T) :
  optional.FromPair v true = optional.Some v.
Proof. reflexivity. Qed.

Lemma FromPair_absent (v : T) :
  optional.FromPair v false = optional.None.
Proof. reflexivity. Qed.

(** On the options [FromPair] builds, [IsAbsent] answers what
    [IsPresent] answers. *)
Lemma FromPair_IsAbsent (v : T) (ok : bool) :
  optional.IsAbsent (optional.FromPair v ok) = ok ∧
  optional.IsPresent (optional.FromPair v ok) = ok.
Proof. by destruct ok. Qed.

(** The flag-based revision negates the flag. *)
Lemma flag_IsAbsent (o : optional_flag.Option T) :
  optional_flag.IsAbsent o = negb (optional_flag.IsPresent o).
Proof. reflexivity. Qed.
End optional_facts.

(** ** Package cmap: single calls *)

Section cmap_facts.
Context {K V : Type} {Keq : EqDecision K} {Kcnt : Countable K}.
Context {KT : hash.KeyType K} {RT : maphash.Runtime} {ZV : ZeroValue V}.
Implicit Types (m : cmap.ConcurrentMap K V) (k key : K) (items : gmap K V).

Lemma shardIndex_bound m k :
  cmap.wf m → (cmap.shardIndex m k < length (cmap.shards m))%nat.
Proof.
  intros [Hlo Hhi]. unfold cmap.shardIndex.
  pose proof (land_bounded (cmap.hashFunc m (cmap.seed m) k) _ Hlo).
  lia.
Qed.

Lemma getShard_is_Some m k : cmap.wf m → is_Some (cmap.getShard m k).
Proof.
  intros Hwf. apply lookup_lt_is_Some_2. by apply shardIndex_bound.
Qed.

Lemma shardIndex_putShard m k items k' :
  cmap.shardIndex (cmap.putShard m k items) k' = cmap.shardIndex m k'.
Proof. reflexivity. Qed.

Lemma wf_putShard m k items : cmap.wf m → cmap.wf (cmap.putShard m k items).
Proof. unfold cmap.wf. simpl. by rewrite length_insert. Qed.

Lemma getShard_putShard m k items k' :
  cmap.wf m →
  cmap.getShard (cmap.putShard m k items) k' =
    if decide (cmap.shardIndex m k = cmap.shardIndex m k')
    then Some items else cmap.getShard m k'.
Proof.
  intros Hwf. unfold cmap.getShard. rewrite shardIndex_putShard. simpl.
  case_decide as Hi.
  - rewrite <- Hi. apply list_lookup_insert_eq. by apply shardIndex_bound.
  - by apply list_lookup_insert_ne.
Qed.

(** Writing a shard back with [key] changed changes what the map
    holds for [key] and for no other key. *)
Lemma find_putShard m key items items' k' :
  cmap.wf m →
  cmap.getShard m key = Some items →
  (∀ k, k ≠ key → items' !! k = items !! k) →
  cmap.find (cmap.putShard m key items') k' =
    if decide (k' = key) then items' !! key else cmap.find m k'.
Proof.
  intros Hwf Hs Hother. unfold cmap.find.
  rewrite getShard_putShard by done.
  destruct (decide (k' = key)) as [->|Hk].
  - by rewrite decide_True.
  - destruct (decide (cmap.shardIndex m key = cmap.shardIndex m k'))
      as [Hi|Hi]; [|done].
    unfold cmap.getShard in *. rewrite <- Hi, Hs. simpl. by apply Hother.
Qed.

Lemma putShard_same m key items :
  cmap.getShard m key = Some items → cmap.putShard m key items = m.
Proof.
  intros Hs. destruct m as [sh mask hf sd]. unfold cmap.putShard. simpl.
  f_equal. by apply list_insert_id.
Qed.
End cmap_facts.

(** ** The single-key operations *)

Section cmap_calls.
Context {K V : Type} {Keq : EqDecision K} {Kcnt : Countable K}.
Context {KT : hash.KeyType K} {RT : maphash.Runtime} {ZV : ZeroValue V}.
Implicit Types (m : cmap.ConcurrentMap K V) (k key : K) (v : V).

Lemma commaOk_Some (items : gmap K V) k x :
  items !! k = Some x → cmap.commaOk items k = (x, true).
Proof. unfold cmap.commaOk. by intros ->. Qed.

Lemma commaOk_None (items : gmap K V) k :
  items !! k = None → cmap.commaOk items k = (zeroValue, false).
Proof. unfold cmap.commaOk. by intros ->. Qed.

Lemma Set_spec m k v :
  cmap.wf m →
  ∃ m', cmap.Set_ k v m = Some (m', tt) ∧ cmap.wf m' ∧
        cmap.find m' k = Some v ∧
        (∀ k', k' ≠ k → cmap.find m' k' = cmap.find m k').
Proof.
  intros Hwf. destruct (getShard_is_Some m k Hwf) as [items Hs].
  exists (cmap.putShard m k (<[k := v]> items)).
  unfold cmap.Set_. rewrite Hs. simpl.
  split; [done|]. split; [by apply wf_putShard|].
  split.
  - rewrite (find_putShard m k items) by
      (try done; intros; by rewrite lookup_insert_ne).
    rewrite decide_True by done. apply lookup_insert_eq.
  - intros k' Hk'.
    rewrite (find_putShard m k items) by
      (try done; intros; by rewrite lookup_insert_ne).
    by rewrite decide_False.
Qed.

(** [GetOrSet] on the key types compared by identity (no float,
    complex, interface or array part).  [GetOrSet(k, v)]: when [k] is
    present
    the call returns the value the map holds with [existed = true] and
    the map is the one it was; otherwise the call returns [v] with
    [existed = false] and the map is the one [Set(k, v)] produces: it
    holds [v] for [k] and what it held before for every other key. *)
Theorem GetOrSet_spec m k v :
  exact_keys K →
  cmap.wf m →
  match cmap.find m k with
  | Some x => cmap.GetOrSet k v m = Some (m, (x, true))
  | None =>
      ∃ m', cmap.GetOrSet k v m = Some (m', (v, false)) ∧
            cmap.Set_ k v m = Some (m', tt) ∧
            cmap.find m' k = Some v ∧
            (∀ k', k' ≠ k → cmap.find m' k' = cmap.find m k')
  end.
Proof.
  intros _ Hwf. destruct (getShard_is_Some m k Hwf) as [items Hs].
  unfold cmap.find, cmap.GetOrSet. rewrite Hs. simpl.
  destruct (items !! k) as [x|] eqn:Hk.
  - by rewrite (commaOk_Some _ _ _ Hk).
  - rewrite (commaOk_None _ _ Hk).
    destruct (Set_spec m k v Hwf) as (m' & HSet & _ & Hk' & Hother).
    exists m'. unfold cmap.Set_ in HSet. rewrite Hs in HSet. simpl in HSet.
    split; [by inversion HSet|].
    split; [unfold cmap.Set_; by rewrite Hs|]. done.
Qed.

(** The shard of [k] written back without [k]. *)
Lemma putShard_delete m k (items : gmap K V) :
  cmap.wf m →
  cmap.getShard m k = Some items →
  cmap.find (cmap.putShard m k (delete k items)) k = None ∧
  (∀ k', k' ≠ k →
     cmap.find (cmap.putShard m k (delete k items)) k' = cmap.find m k').
Proof.
  intros Hwf Hs.
  assert (Hne : ∀ k0, k0 ≠ k → delete k items !! k0 = items !! k0)
    by (intros; by rewrite lookup_delete_ne).
  split.
  - rewrite (find_putShard m k items) by done.
    rewrite decide_True by done. apply lookup_delete_eq.
  - intros k' Hk'. rewrite (find_putShard m k items) by done.
    by rewrite decide_False.
Qed.

(** C7, as the code has it, for the key types compared by identity
    (no float, complex, interface or array part).  [Delete(k)] returns
    no value; after it the map holds nothing for [k] and what it held
    before for every other key, and a map that did not hold [k] is
    left as it was. *)
Theorem Delete_spec m k :
  exact_keys K →
  cmap.wf m →
  ∃ m', cmap.Delete k m = Some (m', tt) ∧
        cmap.find m' k = None ∧
        (∀ k', k' ≠ k → cmap.find m' k' = cmap.find m k') ∧
        (cmap.find m k = None → m' = m).
Proof.
  intros _ Hwf. destruct (getShard_is_Some m k Hwf) as [items Hs].
  exists (cmap.putShard m k (delete k items)).
  unfold cmap.Delete. rewrite Hs. simpl. split; [done|].
  destruct (putShard_delete m k items Hwf Hs) as [Hgone Hother].
  split; [done|]. split; [done|].
  unfold cmap.find. rewrite Hs. simpl. intros Hk.
  rewrite delete_id by done. by apply putShard_same.
Qed.

(** [Remove] on the key types compared by identity (no float, complex,
    interface or array part).  [Remove(k)] returns an [Option]: when
    [k] is present the call returns the value the map held, marked
    present, and the map holds nothing for [k] afterwards and what it
    held for every other key; when [k] is absent the call returns the
    absent option and the map is the one it was. *)
Theorem Remove_spec m k :
  exact_keys K →
  cmap.wf m →
  match cmap.find m k with
  | Some x =>
      ∃ m', cmap.Remove k m = Some (m', optional.Some x) ∧
            optional.IsPresent (optional.Some x) = true ∧
            cmap.find m' k = None ∧
            (∀ k', k' ≠ k → cmap.find m' k' = cmap.find m k')
  | None =>
      cmap.Remove k m = Some (m, optional.None) ∧
      optional.IsPresent (optional.None (T := V)) = false
  end.
Proof.
  intros _ Hwf. destruct (getShard_is_Some m k Hwf) as [items Hs].
  destruct (putShard_delete m k items Hwf Hs) as [Hgone Hother].
  unfold cmap.find, cmap.Remove. rewrite Hs. simpl.
  destruct (items !! k) as [x|] eqn:Hk.
  - rewrite (commaOk_Some _ _ _ Hk).
    exists (cmap.putShard m k (delete k items)). done.
  - by rewrite (commaOk_None _ _ Hk).
Qed.

(** What [Get] and [Has] return, in terms of what the map holds. *)
Lemma Get_spec m k :
  cmap.wf m →
  cmap.Get k m =
    Some (m, match cmap.find m k with
             | Some x => optional.Some x
             | None => optional.None
             end).
Proof.
  intros Hwf. destruct (getShard_is_Some m k Hwf) as [items Hs].
  unfold cmap.find, cmap.Get. rewrite Hs. simpl.
  destruct (items !! k) as [x|] eqn:Hk.
  - by rewrite (commaOk_Some _ _ _ Hk).
  - by rewrite (commaOk_None _ _ Hk).
Qed.

Lemma Has_spec m k :
  cmap.wf m →
  cmap.Has k m = Some (m, bool_decide (is_Some (cmap.find m k))).
Proof.
  intros Hwf. unfold cmap.Has. rewrite Get_spec by done. simpl.
  destruct (cmap.find m k); simpl; f_equal.
Qed.

(** The options [Get] and [Remove] return answer [IsAbsent] the way
    they answer [IsPresent]. *)
Lemma Get_IsAbsent m k m' o :
  cmap.Get k m = Some (m', o) → optional.IsAbsent o = optional.IsPresent o.
Proof.
  unfold cmap.Get. intros Hg.
  destruct (cmap.getShard m k) as [items|]; [|done]. simpl in Hg.
  destruct (cmap.commaOk items k) as [val ok]. inversion Hg; subst.
  by destruct ok.
Qed.

Lemma Remove_IsAbsent m k m' o :
  cmap.Remove k m = Some (m', o) → optional.IsAbsent o = optional.IsPresent o.
Proof.
  unfold cmap.Remove. intros Hg.
  destruct (cmap.getShard m k) as [items|]; [|done]. simpl in Hg.
  destruct (cmap.commaOk items k) as [val ok]. inversion Hg; subst.
  by destruct ok.
Qed.
End cmap_calls.

(** ** The single-key operations on a concrete map *)

Lemma twoShards_constructed :
  cmap.WithShards (RT := sampleRuntime) 2 1 [] = Some twoShards.
Proof. reflexivity. Qed.

Lemma string_keys_exact : exact_keys string.
Proof. exists (reflect.TBuiltin reflect.String). by split. Qed.

Lemma twoShards_wf : cmap.wf twoShards.
Proof. unfold cmap.wf. simpl. lia. Qed.

Lemma twoShards_a_wf : cmap.wf twoShards_a.
Proof. unfold cmap.wf. simpl. lia. Qed.

Lemma twoShards_a_Set :
  cmap.Set_ "a"%string 1 twoShards = Some (twoShards_a, tt).
Proof. reflexivity. Qed.

Example GetOrSet_existing :
  cmap.GetOrSet "a"%string 10 twoShards_a = Some (twoShards_a, (1, true)).
Proof. reflexivity. Qed.

Example GetOrSet_fresh :
  cmap.GetOrSet "a"%string 1 twoShards = Some (twoShards_a, (1, false)).
Proof. reflexivity. Qed.

Lemma GetOrSet_spec_witness :
  exact_keys string ∧
  cmap.wf twoShards ∧
  match cmap.find twoShards "a"%string with
  | Some x => cmap.GetOrSet "a"%string 1 twoShards = Some (twoShards, (x, true))
  | None =>
      ∃ m', cmap.GetOrSet "a"%string 1 twoShards = Some (m', (1, false)) ∧
            cmap.Set_ "a"%string 1 twoShards = Some (m', tt) ∧
            cmap.find m' "a"%string = Some 1 ∧
            (∀ k', k' ≠ "a"%string → cmap.find m' k' = cmap.find twoShards k')
  end.
Proof.
  split; [exact string_keys_exact|]. split; [exact twoShards_wf|].
  exact (GetOrSet_spec twoShards "a"%string 1 string_keys_exact twoShards_wf).
Defined.

Lemma Delete_spec_witness :
  exact_keys string ∧
  cmap.wf twoShards_a ∧
  ∃ m', cmap.Delete "a"%string twoShards_a = Some (m', tt) ∧
        cmap.find m' "a"%string = None ∧
        (∀ k', k' ≠ "a"%string → cmap.find m' k' = cmap.find twoShards_a k') ∧
        (cmap.find twoShards_a "a"%string = None → m' = twoShards_a).
Proof.
  split; [exact string_keys_exact|]. split; [exact twoShards_a_wf|].
  exact (Delete_spec twoShards_a "a"%string string_keys_exact twoShards_a_wf).
Defined.

(** C7 as stated fails: the value [Delete] returns is the same whether
    or not the key was there, so no boolean read off it reports the
    removal.  [Delete("a")] on the map holding "a" and on the empty map. *)
Lemma Delete_reports_removal_cex : ¬ ∃ report, Delete_reports_removal report.
Proof.
  intros [report Hr].
  assert (∃ m', cmap.Delete "a"%string twoShards_a = Some (m', tt))
    as [m1 E1] by (eexists; reflexivity).
  assert (∃ m', cmap.Delete "a"%string twoShards = Some (m', tt))
    as [m0 E0] by (eexists; reflexivity).
  pose proof (Hr _ _ _ _ twoShards_a_wf E1) as [_ H1].
  pose proof (Hr _ _ _ _ twoShards_wf E0) as [H0 _].
  assert (Ht : report tt = true) by (apply H1; by eexists).
  destruct (H0 Ht) as [x Hx]. discriminate Hx.
Qed.

Lemma Remove_spec_witness :
  exact_keys string ∧
  cmap.wf twoShards_a ∧
  match cmap.find twoShards_a "a"%string with
  | Some x =>
      ∃ m', cmap.Remove "a"%string twoShards_a = Some (m', optional.Some x) ∧
            optional.IsPresent (optional.Some x) = true ∧
            cmap.find m' "a"%string = None ∧
            (∀ k', k' ≠ "a"%string → cmap.find m' k' = cmap.find twoShards_a k')
  | None =>
      cmap.Remove "a"%string twoShards_a = Some (twoShards_a, optional.None) ∧
      optional.IsPresent (optional.None (T := Z)) = false
  end.
Proof.
  split; [exact string_keys_exact|]. split; [exact twoShards_a_wf|].
  exact (Remove_spec twoShards_a "a"%string string_keys_exact twoShards_a_wf).
Defined.

Example Remove_present :
  cmap.Remove "a"%string twoShards_a = Some (twoShards, optional.Some 1).
Proof. reflexivity. Qed.

Example Remove_missing :
  cmap.Remove "a"%string twoShards = Some (twoShards, optional.None).
Proof. reflexivity. Qed.

(** C10 at concrete lookups.  On the map holding only "a": [Get("b")]
    finds nothing and its option answers [IsPresent() = false] and
    [IsAbsent() = false]; [Get("a")] finds 1 and its option answers
    [IsPresent() = true] and [IsAbsent() = true]; [Remove] likewise. *)
Theorem Get_IsAbsent_evaluated :
  (∃ o, cmap.Get "b"%string twoShards_a = Some (twoShards_a, o) ∧
        optional.IsPresent o = false ∧ optional.IsAbsent o = false) ∧
  (∃ o, cmap.Get "a"%string twoShards_a = Some (twoShards_a, o) ∧
        optional.IsPresent o = true ∧ optional.IsAbsent o = true) ∧
  (∃ o, cmap.Remove "b"%string twoShards_a = Some (twoShards_a, o) ∧
        optional.IsPresent o = false ∧ optional.IsAbsent o = false) ∧
  (∃ o, cmap.Remove "a"%string twoShards_a = Some (twoShards, o) ∧
        optional.IsPresent o = true ∧ optional.IsAbsent o = true).
Proof.
  repeat split; eexists; (split; [reflexivity|]); split; reflexivity.
Qed.

(** ** Package hash: the record-layout hasher *)

Lemma lxor_uint32 a b :
  0 ≤ a < 2 ^ 32 → 0 ≤ b < 2 ^ 32 → 0 ≤ Z.lxor a b < 2 ^ 32.
Proof.
  intros Ha Hb.
  assert (Hnn : 0 ≤ Z.lxor a b) by (apply Z.lxor_nonneg; lia).
  split; [done|].
  assert (Hlog : ∀ x, 0 ≤ x < 2 ^ 32 → Z.log2 x < 32).
  { intros x Hx. destruct (decide (x = 0)) as [->|]; [done|].
    apply Z.log2_lt_pow2; lia. }
  destruct (decide (Z.lxor a b = 0)) as [->|Hne]; [done|].
  apply Z.log2_lt_pow2; [lia|].
  pose proof (Z.log2_lxor a b ltac:(lia) ltac:(lia)).
  pose proof (Hlog a Ha). pose proof (Hlog b Hb). lia.
Qed.

Section struct_hasher.
Context {K : Type} {KT : hash.KeyType K} {RT : maphash.Runtime}.
Implicit Types (seed : maphash.Seed) (key : K) (f : hash.fieldInfo).

(** One wrap-around of the whole sum is what the wrap-around of each
    operation comes to. *)
Lemma mixStep_spec_mix h fHash : hash.mixStep h fHash = spec_mix h fHash.
Proof.
  unfold hash.mixStep, spec_mix, uint32. f_equal.
  rewrite Z.shiftl_mul_pow2, Z.shiftr_div_pow2 by lia.
  set (M := 2 ^ 32). set (X := fHash + 0x9e3779b9).
  set (Y := h * 2 ^ 6). set (W := h / 2 ^ 2).
  rewrite Zplus_mod_idemp_l.
  replace (X mod M + Y mod M + W) with (X mod M + (Y mod M + W)) by lia.
  rewrite Zplus_mod_idemp_l.
  replace (X + (Y mod M + W)) with (Y mod M + (X + W)) by lia.
  rewrite Zplus_mod_idemp_l.
  f_equal. lia.
Qed.

Lemma mixStep_range h fHash :
  0 ≤ h < 2 ^ 32 → 0 ≤ hash.mixStep h fHash < 2 ^ 32.
Proof. intros Hh. apply lxor_uint32; [done|apply uint32_range]. Qed.

Lemma hashFields_fold seed key fields h :
  hash.hashFields seed key fields h =
    fold_left spec_mix (map (hash.fieldHash seed key) fields) h.
Proof.
  revert h. induction fields as [|f rest IH]; intros h; simpl; [done|].
  by rewrite IH, mixStep_spec_mix.
Qed.

Lemma hashFields_range seed key fields h :
  0 ≤ h < 2 ^ 32 → 0 ≤ hash.hashFields seed key fields h < 2 ^ 32.
Proof.
  revert h. induction fields as [|f rest IH]; intros h Hh; simpl; [done|].
  apply IH. by apply mixStep_range.
Qed.

(** C6. The digest of the record-layout hasher is the left fold of
    [h XOR (fieldDigest + 0x9e3779b9 + (h << 6) + (h >> 2))], the sum
    modulo 2^32, over the digests of the fields in descriptor order,
    from [h = 0]; it is a 32-bit value. *)
Theorem CreateStructHasher_spec_digest (t : reflect.rtype) seed key :
  hash.CreateStructHasher t seed key =
    spec_digest (map (hash.fieldHash seed key) (hash.flattenStruct t 0)) ∧
  0 ≤ hash.CreateStructHasher t seed key < 2 ^ 32.
Proof.
  unfold hash.CreateStructHasher, spec_digest. split.
  - apply hashFields_fold.
  - apply hashFields_range. lia.
Qed.

Lemma same_field_fieldHash seed (k1 k2 : K) f :
  same_field k1 k2 f → hash.fieldHash seed k1 f = hash.fieldHash seed k2 f.
Proof.
  intros [Hnum Hstr]. unfold hash.fieldHash. rewrite Hnum, Hstr. reflexivity.
Qed.

Lemma same_fields_hashFields seed (k1 k2 : K) fields h :
  Forall (same_field k1 k2) fields →
  hash.hashFields seed k1 fields h = hash.hashFields seed k2 fields h.
Proof.
  intros Hall. revert h.
  induction Hall as [|f rest Hf _ IH]; intros h; simpl; [done|].
  by rewrite (same_field_fieldHash seed k1 k2 f Hf), IH.
Qed.

(** The registry gives a struct type its record-layout hasher, whatever
    methods the type has. *)
Lemma GetHashFunc_struct fs :
  hash.typeOf (K := K) = Some (reflect.TStruct fs) →
  hash.GetHashFunc (K := K) = Some (hash.CreateStructHasher (reflect.TStruct fs)).
Proof. unfold hash.GetHashFunc. by intros ->. Qed.

(** A type that is neither predeclared nor a struct gets the fallback
    closure, which calls [Hash] when the type has it. *)
Lemma GetHashFunc_defined_Hashable k hashOf :
  hash.typeOf (K := K) = Some (reflect.TDefined k) →
  k ≠ reflect.Struct →
  hash.hashMethod (K := K) = Some hashOf →
  hash.GetHashFunc (K := K) = Some hash.fallbackHasher ∧
  ∀ seed key, hash.fallbackHasher seed key = hashOf key seed.
Proof.
  intros Ht Hk Hm. unfold hash.GetHashFunc, hash.fallbackHasher.
  rewrite Ht, Hm. simpl. by rewrite bool_decide_eq_false_2.
Qed.
End struct_hasher.

(** *** The descriptor list *)

Lemma flattenStruct_cons name off ft rest base :
  hash.flattenStruct (reflect.TStruct ((name, off, ft) :: rest)) base =
    hash.flattenStruct (reflect.TStruct [(name, off, ft)]) base ++
    hash.flattenStruct (reflect.TStruct rest) base.
Proof. simpl. by rewrite app_nil_r. Qed.

Lemma flattenStruct_app fs1 fs2 base :
  hash.flattenStruct (reflect.TStruct (fs1 ++ fs2)) base =
    hash.flattenStruct (reflect.TStruct fs1) base ++
    hash.flattenStruct (reflect.TStruct fs2) base.
Proof.
  induction fs1 as [|[[name off] ft] rest IH]; [done|].
  rewrite <- app_comm_cons, flattenStruct_cons, IH.
  rewrite (flattenStruct_cons name off ft rest). by rewrite app_assoc.
Qed.

(** A blank field has no descriptor. *)
Lemma flattenStruct_blank off ft base :
  hash.flattenStruct (reflect.TStruct [("_"%string, off, ft)]) base = [].
Proof. reflexivity. Qed.

(** Nor has a field whose type is not a struct and whose kind is not
    among the described ones. *)
Lemma flattenStruct_undescribed name off ft base :
  (∀ fs, ft ≠ reflect.TStruct fs) →
  described (reflect.kind ft) = false →
  hash.flattenStruct (reflect.TStruct [(name, off, ft)]) base = [].
Proof.
  intros Hns Hk. simpl. destruct (String.eqb name "_"); [done|].
  destruct ft as [k|k|fs]; [| |by destruct (Hns fs)];
    simpl in *; by destruct k.
Qed.

(** Induction on a type with the fields of a struct as smaller types. *)
Lemma rtype_fields_ind (P : reflect.rtype → Prop) :
  (∀ k, P (reflect.TBuiltin k)) →
  (∀ k, P (reflect.TDefined k)) →
  (∀ fs, Forall (fun f => P f.2) fs → P (reflect.TStruct fs)) →
  ∀ t, P t.
Proof.
  intros Hb Hd Hs.
  refine (fix IH (t : reflect.rtype) : P t :=
            match t with
            | reflect.TBuiltin k => Hb k
            | reflect.TDefined k => Hd k
            | reflect.TStruct fs =>
                Hs fs ((fix all (fs : list (string * Z * reflect.rtype))
                          : Forall (fun f => P f.2) fs :=
                          match fs as l return Forall (fun f => P f.2) l with
                          | [] => List.Forall_nil _
                          | (p, ft) :: rest =>
                              @List.Forall_cons _ (fun f => P f.2)
                                (p, ft) rest (IH ft) (all rest)
                          end) fs)
            end).
Qed.

(** Every descriptor is of a described kind. *)
Lemma flattenStruct_described t base :
  Forall (fun f => described (hash.fkind f) = true) (hash.flattenStruct t base).
Proof.
  revert base. induction t as [k|k|fs IHfs] using rtype_fields_ind;
    intros base; [constructor..|].
  induction IHfs as [|[[name off] ft] rest Hft _ IHrest]; [constructor|].
  rewrite flattenStruct_cons. apply Forall_app. split; [|exact IHrest].
  simpl. rewrite app_nil_r. destruct (String.eqb name "_"); [constructor|].
  destruct ft as [k|k|fs'].
  - simpl. destruct k; repeat constructor.
  - simpl. destruct k; repeat constructor.
  - apply Hft.
Qed.

Example flattenStruct_Label :
  hash.flattenStruct Label_type 0 =
    [hash.mkFieldInfo 0 reflect.String; hash.mkFieldInfo 40 reflect.Int;
     hash.mkFieldInfo 48 reflect.Int].
Proof. reflexivity. Qed.

Section struct_routing.
Context {K : Type} {Keq : EqDecision K} {Kcnt : Countable K}.
Context {KT : hash.KeyType K} {RT : maphash.Runtime}.

(** C4, as the code has it.  For a struct key type: every descriptor is
    of a described kind, which are the strings, integers, floats and
    booleans and also the pointers; a blank field, and a field that is
    not a struct and is of any other kind, has no descriptor; and two
    keys that hold the same stored value at every descriptor (the same
    integer, boolean, string contents or address, and for a float the
    same IEEE 754 bits, so that [0.0] and [-0.0] do not count as the
    same) get the same digest from the hasher the registry derives,
    hence the same shard in every map that uses it with that seed. *)
Theorem struct_digest_described_fields fs seed (k1 k2 : K) :
  hash.typeOf (K := K) = Some (reflect.TStruct fs) →
  Forall (same_field k1 k2) (hash.flattenStruct (reflect.TStruct fs) 0) →
  Forall (fun f => described (hash.fkind f) = true)
         (hash.flattenStruct (reflect.TStruct fs) 0) ∧
  (∀ fs1 fs2 name off ft,
      fs = fs1 ++ (name, off, ft) :: fs2 →
      name = "_"%string ∨
        ((∀ g, ft ≠ reflect.TStruct g) ∧ described (reflect.kind ft) = false) →
      hash.flattenStruct (reflect.TStruct fs) 0 =
        hash.flattenStruct (reflect.TStruct (fs1 ++ fs2)) 0) ∧
  ∃ h, hash.GetHashFunc (K := K) = Some h ∧
       h seed k1 = h seed k2 ∧
       ∀ (V : Type) (m : cmap.ConcurrentMap K V),
         cmap.hashFunc m = h → cmap.seed m = seed →
         cmap.shardIndex m k1 = cmap.shardIndex m k2.
Proof.
  intros Ht Hsame. split; [apply flattenStruct_described|]. split.
  - intros fs1 fs2 name off ft -> Hskip.
    rewrite !flattenStruct_app, (flattenStruct_cons name off ft fs2).
    destruct Hskip as [->|[Hns Hk]].
    + by rewrite flattenStruct_blank.
    + by rewrite flattenStruct_undescribed.
  - exists (hash.CreateStructHasher (reflect.TStruct fs)).
    split; [by apply GetHashFunc_struct|].
    assert (Heq : hash.CreateStructHasher (reflect.TStruct fs) seed k1 =
                  hash.CreateStructHasher (reflect.TStruct fs) seed k2)
      by (unfold hash.CreateStructHasher; by apply same_fields_hashFields).
    split; [done|].
    intros V m Hh Hseed. unfold cmap.shardIndex. by rewrite Hh, Hseed, Heq.
Qed.
End struct_routing.

Lemma struct_digest_described_fields_witness :
  hash.typeOf (K := Tagged) =
    Some (reflect.TStruct [("ID"%string, 0, reflect.TBuiltin reflect.Int);
                           ("Tags"%string, 8, reflect.TDefined reflect.Array)]) ∧
  Forall (same_field (mkTagged 1 5 6) (mkTagged 1 7 8))
         (hash.flattenStruct Tagged_type 0) ∧
  ∃ h, hash.GetHashFunc (K := Tagged) (RT := sampleRuntime) = Some h ∧
       h 1 (mkTagged 1 5 6) = h 1 (mkTagged 1 7 8).
Proof.
  assert (Hsame : Forall (same_field (mkTagged 1 5 6) (mkTagged 1 7 8))
                         (hash.flattenStruct Tagged_type 0))
    by (repeat constructor).
  split; [reflexivity|]. split; [exact Hsame|].
  destruct (struct_digest_described_fields
              (KT := Tagged_key) (RT := sampleRuntime)
              [("ID"%string, 0, reflect.TBuiltin reflect.Int);
               ("Tags"%string, 8, reflect.TDefined reflect.Array)]
              1 (mkTagged 1 5 6) (mkTagged 1 7 8) eq_refl Hsame)
    as (_ & _ & h & Hh & Heq & _).
  exists h. split; [exact Hh|exact Heq].
Defined.

(** C4 as stated fails on [Handle]: its pointer field has a descriptor,
    and the two keys below, which agree on every field of a primitive
    kind and differ in the pointer only, get different digests and
    different shards under the sample runtime. *)
Lemma pointer_field_hashed_cex :
  hash.flattenStruct Handle_type 0 =
    [hash.mkFieldInfo 0 reflect.Int; hash.mkFieldInfo 8 reflect.Pointer] ∧
  primitive reflect.Pointer = false ∧
  Forall (fun f => primitive (hash.fkind f) = true →
                   same_field (mkHandle 1 4096) (mkHandle 1 8192) f)
         (hash.flattenStruct Handle_type 0) ∧
  hash.GetHashFunc (K := Handle) (RT := sampleRuntime) =
    Some (cmap.hashFunc handleMap) ∧
  cmap.hashFunc handleMap 1 (mkHandle 1 4096) ≠
    cmap.hashFunc handleMap 1 (mkHandle 1 8192) ∧
  cmap.shardIndex handleMap (mkHandle 1 4096) ≠
    cmap.shardIndex handleMap (mkHandle 1 8192).
Proof.
  split; [reflexivity|]. split; [reflexivity|]. split.
  - repeat constructor; simpl in *; discriminate.
  - split; [exact eq_refl|]. split; vm_compute; discriminate.
Qed.

(** C5 at a struct key that has the capability.  [Point] implements
    [Hashable] with [Hash] returning 7; the registry gives it the
    record-layout hasher all the same, and the digest of
    [Point{X: 1, Y: 2}] under seed 1 and the sample runtime is not 7. *)
Theorem GetHashFunc_struct_ignores_Hash :
  (∀ seed p, (hash.hashMethod (K := Point) ≫= fun hashOf => Some (hashOf p seed))
             = Some 7) ∧
  hash.GetHashFunc (K := Point) (RT := sampleRuntime) =
    Some (hash.CreateStructHasher (RT := sampleRuntime) Point_type) ∧
  hash.CreateStructHasher (RT := sampleRuntime) Point_type 1 (mkPoint 1 2)
    = 653170356.
Proof.
  split; [reflexivity|]. split; [exact eq_refl|]. vm_compute. reflexivity.
Qed.

(** ** Construction: the shard count *)

Lemma nextPowerOf2_unfold n :
  0 < n → cmap.nextPowerOf2 n = int64 (smear (int64 (n - 1)) + 1).
Proof.
  intros Hn. unfold cmap.nextPowerOf2.
  destruct (n <=? 0) eqn:E; [lia|]. reflexivity.
Qed.

Lemma orShift_nonneg s x : 0 ≤ x → 0 ≤ orShift s x.
Proof.
  intros Hx. unfold orShift. apply Z.lor_nonneg. split; [done|].
  by apply Z.shiftr_nonneg.
Qed.

Lemma orShift_log2 s x : 0 ≤ x → 0 ≤ s → Z.log2 (orShift s x) = Z.log2 x.
Proof.
  intros Hx Hs. unfold orShift.
  rewrite Z.log2_lor by (try done; by apply Z.shiftr_nonneg).
  destruct (decide (x = 0)) as [->|Hne].
  - by rewrite Z.shiftr_0_l.
  - rewrite Z.log2_shiftr by lia. pose proof (Z.log2_nonneg x). lia.
Qed.

Lemma smear_nonneg x : 0 ≤ x → 0 ≤ smear x.
Proof. intros Hx. unfold smear. by do 5 apply orShift_nonneg. Qed.

Lemma smear_log2 x : 0 ≤ x → Z.log2 (smear x) = Z.log2 x.
Proof.
  intros Hx. unfold smear.
  rewrite !orShift_log2; try lia; by repeat apply orShift_nonneg.
Qed.

(** The bits of [orShift s x] seen from a number [m] whose window of
    [w] bits gives the bits of [x]. *)
Lemma orShift_window m w x :
  0 ≤ w →
  (∀ i, 0 ≤ i →
        Z.testbit x i = true ↔ ∃ d, 0 ≤ d < w ∧ Z.testbit m (i + d) = true) →
  ∀ i, 0 ≤ i →
       Z.testbit (orShift w x) i = true ↔
       ∃ d, 0 ≤ d < 2 * w ∧ Z.testbit m (i + d) = true.
Proof.
  intros Hw Hx i Hi. unfold orShift.
  rewrite Z.lor_spec, Z.shiftr_spec, orb_true_iff by done.
  rewrite (Hx i Hi), (Hx (i + w)) by lia. split.
  - intros [(d & Hd & Hb)|(d & Hd & Hb)].
    + exists d. split; [lia|done].
    + exists (w + d). split; [lia|]. by replace (i + (w + d)) with (i + w + d) by lia.
  - intros (d & Hd & Hb). destruct (decide (d < w)).
    + left. exists d. split; [lia|done].
    + right. exists (d - w). split; [lia|].
      by replace (i + w + (d - w)) with (i + d) by lia.
Qed.

Lemma smear_window m :
  ∀ i, 0 ≤ i →
       Z.testbit (smear m) i = true ↔
       ∃ d, 0 ≤ d < 32 ∧ Z.testbit m (i + d) = true.
Proof.
  unfold smear.
  apply (orShift_window m 16); [lia|].
  apply (orShift_window m 8); [lia|].
  apply (orShift_window m 4); [lia|].
  apply (orShift_window m 2); [lia|].
  apply (orShift_window m 1); [lia|].
  intros i Hi. split.
  - intros Hb. exists 0. split; [lia|]. by rewrite Z.add_0_r.
  - intros (d & Hd & Hb). by replace (i + d) with i in Hb by lia.
Qed.

(** Below 2^32 the five lines set every bit under the highest one. *)
Lemma smear_ones m :
  0 < m < 2 ^ 32 → smear m = Z.ones (Z.log2 m + 1).
Proof.
  intros Hm.
  assert (Hk : 0 ≤ Z.log2 m < 32).
  { split; [apply Z.log2_nonneg|]. apply Z.log2_lt_pow2; lia. }
  apply Z.bits_inj'. intros i Hi. apply eq_iff_eq_true.
  rewrite (smear_window m i Hi), Z.ones_spec_iff by lia. split.
  - intros (d & Hd & Hb). split; [done|].
    destruct (decide (Z.log2 m < i + d)) as [Hgt|]; [|lia].
    rewrite Z.bits_above_log2 in Hb by lia. discriminate.
  - intros [_ Hlt]. exists (Z.log2 m - i). split; [lia|].
    replace (i + (Z.log2 m - i)) with (Z.log2 m) by lia.
    apply Z.bit_log2. lia.
Qed.

(** For a positive hint up to 2^32 the result is the least power of two
    that is not below the hint. *)
Lemma nextPowerOf2_in_range n :
  0 < n ≤ 2 ^ 32 →
  ∃ k, 0 ≤ k ≤ 32 ∧ cmap.nextPowerOf2 n = 2 ^ k ∧ n ≤ 2 ^ k ∧
       ∀ j, 0 ≤ j → n ≤ 2 ^ j → 2 ^ k ≤ 2 ^ j.
Proof.
  intros Hn. rewrite nextPowerOf2_unfold by lia.
  rewrite (int64_small (n - 1)) by lia.
  destruct (decide (n = 1)) as [->|Hn1].
  - exists 0. split; [lia|]. split; [reflexivity|]. split; [done|].
    intros j Hj _. apply Z.pow_le_mono_r; lia.
  - set (m := n - 1). assert (Hm : 0 < m < 2 ^ 32) by lia.
    assert (Hk : 0 ≤ Z.log2 m < 32).
    { split; [apply Z.log2_nonneg|]. apply Z.log2_lt_pow2; lia. }
    destruct (Z.log2_spec m) as [Hlo Hhi]; [lia|].
    rewrite <- Z.add_1_r in Hhi.
    exists (Z.log2 m + 1). split; [lia|].
    rewrite smear_ones, Z.ones_equiv by done.
    assert (Hp : 2 ^ (Z.log2 m + 1) ≤ 2 ^ 32) by (apply Z.pow_le_mono_r; lia).
    split; [rewrite int64_small; lia|]. split; [lia|].
    intros j Hj Hnj.
    assert (Z.log2 m < j) by (apply (Z.pow_lt_mono_r_iff 2); lia).
    apply Z.pow_le_mono_r; lia.
Qed.

(** For a positive [int] the result is positive unless the increment
    overflows. *)
Lemma nextPowerOf2_int n :
  0 < n < 2 ^ 63 → 0 < cmap.nextPowerOf2 n ∨ cmap.nextPowerOf2 n = - 2 ^ 63.
Proof.
  intros Hn. rewrite nextPowerOf2_unfold by lia.
  rewrite (int64_small (n - 1)) by lia.
  set (m := n - 1). assert (Hm : 0 ≤ m < 2 ^ 63) by lia.
  pose proof (smear_nonneg m ltac:(lia)) as Hnn.
  assert (Hlt : smear m < 2 ^ 63).
  { destruct (decide (smear m = 0)) as [->|]; [done|].
    apply Z.log2_lt_pow2; [lia|]. rewrite smear_log2 by lia.
    destruct (decide (m = 0)) as [->|]; [done|].
    apply Z.log2_lt_pow2; lia. }
  destruct (decide (smear m + 1 = 2 ^ 63)) as [->|].
  - right. reflexivity.
  - left. rewrite int64_small; lia.
Qed.

Section construction.
Context {K V : Type} {Keq : EqDecision K} {Kcnt : Countable K}.
Context {KT : hash.KeyType K} {RT : maphash.Runtime}.
Implicit Types (m : cmap.ConcurrentMap K V).
Implicit Types (opts : list (cmap.Option (K := K) (V := V))).

Lemma WithHash_keeps_shards f : cmap.keeps_shards (cmap.WithHash (K := K) (V := V) f).
Proof. by intros m. Qed.

Lemma WithSeed_keeps_shards sd :
  cmap.keeps_shards (cmap.WithSeed (K := K) (V := V) sd).
Proof. by intros m. Qed.

Lemma keeps_shards_foldl opts m :
  Forall cmap.keeps_shards opts →
  cmap.shards (foldl (fun m opt => opt m) m opts) = cmap.shards m ∧
  cmap.shardMask (foldl (fun m opt => opt m) m opts) = cmap.shardMask m.
Proof.
  intros Hall. revert m.
  induction Hall as [|opt rest Hopt _ IH]; intros m; simpl; [done|].
  destruct (IH (opt m)) as [-> ->]. apply Hopt.
Qed.

(** What [WithShards] returns when it returns. *)
Lemma WithShards_Some hint seed0 opts m :
  cmap.WithShards hint seed0 opts = Some m →
  let count := cmap.nextPowerOf2 (if hint <=? 0 then cmap.SHARD_COUNT else hint) in
  0 ≤ count ∧
  ∃ h, hash.GetHashFunc (K := K) = Some h ∧
       m = foldl (fun m opt => opt m)
             (cmap.mkMap (replicate (Z.to_nat count) ∅)
                         (uint32 (count - 1)) h seed0) opts.
Proof.
  unfold cmap.WithShards. intros Hm. simpl.
  destruct (_ <? 0) eqn:Hneg; [done|]. simpl in Hm.
  destruct (_ <? _) eqn:Hbig in Hm; [done|].
  destruct (hash.GetHashFunc (K := K)) as [h|]; [|done].
  split; [lia|]. exists h. split; [done|]. by inversion Hm.
Qed.

(** The shard slice and the mask of a constructed map. *)
Lemma WithShards_shape hint seed0 opts m :
  is_int hint →
  Forall cmap.keeps_shards opts →
  cmap.WithShards hint seed0 opts = Some m →
  let count := cmap.nextPowerOf2 (if hint <=? 0 then cmap.SHARD_COUNT else hint) in
  0 < count ∧
  cmap.shards m = replicate (Z.to_nat count) ∅ ∧
  cmap.shardMask m = uint32 (count - 1) ∧
  cmap.wf m.
Proof.
  intros Hint Hopts Hm.
  destruct (WithShards_Some _ _ _ _ Hm) as (Hc & h & _ & ->). simpl in *.
  destruct (keeps_shards_foldl opts
              (cmap.mkMap (replicate (Z.to_nat (cmap.nextPowerOf2
                 (if hint <=? 0 then cmap.SHARD_COUNT else hint))) ∅)
                 (uint32 (cmap.nextPowerOf2
                 (if hint <=? 0 then cmap.SHARD_COUNT else hint) - 1)) h seed0)
              Hopts) as [Hsh Hmask].
  simpl in *.
  set (count := cmap.nextPowerOf2 _) in *.
  assert (Hpos : 0 < count).
  { destruct (nextPowerOf2_int (if hint <=? 0 then cmap.SHARD_COUNT else hint))
      as [Hp|Hp]; [|done|fold count in Hp; lia].
    destruct (hint <=? 0) eqn:E; [done|]. unfold is_int in Hint. lia. }
  split; [done|]. split; [done|]. split; [done|].
  unfold cmap.wf. rewrite Hsh, Hmask, length_replicate, Z2Nat.id by lia.
  unfold uint32.
  pose proof (Z.mod_pos_bound (count - 1) (2 ^ 32) ltac:(lia)).
  pose proof (Z.mod_le (count - 1) (2 ^ 32) ltac:(lia) ltac:(lia)). lia.
Qed.
End construction.

Section construction_count.
Context {K V : Type} {Keq : EqDecision K} {Kcnt : Countable K}.
Context {KT : hash.KeyType K} {RT : maphash.Runtime}.

(** The map [WithShards] builds without options, when the count is
    not negative, the shard slice can be allocated and the key type
    has a hasher. *)
Lemma WithShards_no_options hint seed0 h :
  hash.GetHashFunc (K := K) = Some h →
  let count := cmap.nextPowerOf2 (if hint <=? 0 then cmap.SHARD_COUNT else hint) in
  0 ≤ count ≤ 2 ^ 45 →
  cmap.WithShards (K := K) (V := V) hint seed0 [] =
    Some (cmap.mkMap (replicate (Z.to_nat count) ∅) (uint32 (count - 1)) h seed0).
Proof.
  intros Hh count Hc. unfold cmap.WithShards. fold count.
  destruct (count <? 0) eqn:E; [lia|].
  destruct (cmap.maxAlloc <? 8 * count) eqn:E'; [unfold cmap.maxAlloc in E'; lia|].
  by rewrite Hh.
Qed.
End construction_count.

Lemma not_a_power_of_two k : 2 ^ k ≠ 8589934591.
Proof.
  intros E. destruct (decide (k ≤ 0)) as [Hk|Hk].
  - destruct (decide (k = 0)) as [->|]; [discriminate|].
    rewrite Z.pow_neg_r in E by lia. discriminate.
  - replace k with (1 + (k - 1)) in E by lia.
    rewrite Z.pow_add_r in E by lia.
    assert (0 ≤ 2 ^ (k - 1)) by (apply Z.pow_nonneg; lia). lia.
Qed.

(** C3 on concrete hints.  The hints 5, 32, 0 and -7 give 8, 32, 32 and
    32 shards.  The hint 2^32 + 1 gives [nextPowerOf2] the value
    2^33 - 1, which is no power of two (the least one not below the hint
    is 2^33): the map is built with 8589934591 shards and the mask
    4294967294. *)
Theorem WithShards_counts :
  (length ∘ cmap.shards <$> cmap.WithShards (V := Z) (RT := sampleRuntime) 5 1 [])
    = Some 8%nat ∧
  (length ∘ cmap.shards <$> cmap.WithShards (V := Z) (RT := sampleRuntime) 32 1 [])
    = Some 32%nat ∧
  (length ∘ cmap.shards <$> cmap.WithShards (V := Z) (RT := sampleRuntime) 0 1 [])
    = Some 32%nat ∧
  (length ∘ cmap.shards <$> cmap.WithShards (V := Z) (RT := sampleRuntime) (-7) 1 [])
    = Some 32%nat ∧
  cmap.nextPowerOf2 4294967297 = 8589934591 ∧
  (∀ k, 2 ^ k ≠ 8589934591) ∧
  4294967297 ≤ 2 ^ 33 < 8589934591 + 2 ∧
  ∃ m : cmap.ConcurrentMap string Z,
    cmap.WithShards (RT := sampleRuntime) 4294967297 1 [] = Some m ∧
    Z.of_nat (length (cmap.shards m)) = 8589934591 ∧
    cmap.shardMask m = 4294967294.
Proof.
  assert (E : cmap.nextPowerOf2 4294967297 = 8589934591)
    by (vm_compute; reflexivity).
  do 4 (split; [vm_compute; reflexivity|]).
  split; [exact E|]. split; [exact not_a_power_of_two|]. split; [lia|].
  eexists. split.
  - apply (WithShards_no_options (KT := string_key) (RT := sampleRuntime)
             4294967297 1 (cmap.hashFunc twoShards) eq_refl).
    change (4294967297 <=? 0) with false. cbv iota. rewrite E. lia.
  - change (4294967297 <=? 0) with false. cbv iota. rewrite E.
    cbn [cmap.shards cmap.shardMask].
    rewrite length_replicate, Z2Nat.id by lia. split; reflexivity.
Qed.

(** ** Sequences of calls *)

Section cmap_runs.
Context {K V : Type} {Keq : EqDecision K} {Kcnt : Countable K}.
Context {KT : hash.KeyType K} {RT : maphash.Runtime} {ZV : ZeroValue V}.
Implicit Types (m : cmap.ConcurrentMap K V) (k key : K) (v : V).
Implicit Types (c : cmap.Call K V) (cs : list (cmap.Call K V)).

Lemma same_routing_refl m : same_routing m m.
Proof. by repeat split. Qed.

Lemma same_routing_trans m1 m2 m3 :
  same_routing m1 m2 → same_routing m2 m3 → same_routing m1 m3.
Proof.
  intros (H1 & H2 & H3 & H4) (G1 & G2 & G3 & G4).
  repeat split; congruence.
Qed.

Lemma same_routing_putShard m k (items : gmap K V) :
  same_routing m (cmap.putShard m k items).
Proof. repeat split. simpl. apply length_insert. Qed.

Lemma same_routing_shardIndex m m' k :
  same_routing m m' → cmap.shardIndex m' k = cmap.shardIndex m k.
Proof.
  intros (H1 & H2 & H3 & _). unfold cmap.shardIndex. by rewrite H1, H2, H3.
Qed.

Lemma same_routing_wf m m' : same_routing m m' → cmap.wf m → cmap.wf m'.
Proof. intros (_ & _ & H3 & H4). unfold cmap.wf. by rewrite H3, H4. Qed.

(** No call touches the hasher, the seed, the mask or the number of
    shards. *)
Lemma exec_same_routing c m m' :
  cmap.exec c m = Some m' → same_routing m m'.
Proof.
  destruct c; simpl;
    unfold cmap.Set_, cmap.Get, cmap.Delete, cmap.Has, cmap.Get,
      cmap.GetOrSet, cmap.SetIfAbsent, cmap.Remove, cmap.Compute,
      cmap.Len, cmap.Clear;
    try (destruct (cmap.getShard m key) as [items|]; [|done]; simpl;
         try destruct (cmap.commaOk items key) as [val []]; simpl;
         intros [= <-];
         first [apply same_routing_refl | apply same_routing_putShard]).
  - intros [= <-]. apply same_routing_refl.
  - intros [= <-]. repeat split. simpl. apply length_fmap.
Qed.

(** On a well-shaped map no call panics. *)
Lemma exec_is_Some c m : cmap.wf m → is_Some (cmap.exec c m).
Proof.
  intros Hwf.
  destruct c; simpl;
    unfold cmap.Set_, cmap.Get, cmap.Delete, cmap.Has, cmap.Get,
      cmap.GetOrSet, cmap.SetIfAbsent, cmap.Remove, cmap.Compute,
      cmap.Len, cmap.Clear;
    try (destruct (getShard_is_Some m key Hwf) as [items ->]; simpl;
         try destruct (cmap.commaOk items key) as [val []]; simpl;
         by eexists).
  - by eexists.
  - by eexists.
Qed.

Lemma run_same_routing cs m :
  cmap.wf m → ∃ m', cmap.run cs m = Some m' ∧ same_routing m m' ∧ cmap.wf m'.
Proof.
  revert m. induction cs as [|c cs IH]; intros m Hwf; simpl.
  - exists m. split; [done|]. split; [apply same_routing_refl|done].
  - destruct (exec_is_Some c m Hwf) as [m1 H1]. rewrite H1. simpl.
    pose proof (exec_same_routing c m m1 H1) as Hr1.
    destruct (IH m1 (same_routing_wf _ _ Hr1 Hwf)) as (m' & Hrun & Hr & Hwf').
    exists m'. split; [done|]. split; [|done].
    by apply (same_routing_trans m m1 m').
Qed.

(** C2. On a constructed map, whatever calls are made afterwards, the
    digest of a key under the map's hasher and seed stays what it was,
    and so does the shard it selects, which exists; with no options the
    hasher is the one the registry derives and the seed the one drawn
    at construction. *)
Theorem shard_routing_stable hint seed0
    (opts : list (cmap.Option (K := K) (V := V))) m cs k :
  is_int hint →
  Forall cmap.keeps_shards opts →
  cmap.WithShards hint seed0 opts = Some m →
  ∃ m', cmap.run cs m = Some m' ∧
        cmap.hashFunc m' (cmap.seed m') k = cmap.hashFunc m (cmap.seed m) k ∧
        cmap.shardIndex m' k = cmap.shardIndex m k ∧
        is_Some (cmap.getShard m' k) ∧
        length (cmap.shards m') = length (cmap.shards m) ∧
        (opts = [] →
         hash.GetHashFunc (K := K) = Some (cmap.hashFunc m') ∧
         cmap.seed m' = seed0).
Proof.
  intros Hint Hopts Hm.
  destruct (WithShards_shape _ _ _ _ Hint Hopts Hm) as (_ & _ & _ & Hwf).
  destruct (run_same_routing cs m Hwf) as (m' & Hrun & Hr & Hwf').
  exists m'. split; [done|].
  pose proof Hr as (H1 & H2 & H3 & H4).
  split; [by rewrite H1, H2|].
  split; [by apply same_routing_shardIndex|].
  split; [by apply getShard_is_Some|]. split; [done|].
  intros ->. destruct (WithShards_Some _ _ _ _ Hm) as (_ & h & Hh & ->).
  simpl in *. by rewrite H1, H2.
Qed.
End cmap_runs.

(** ** Len after a sequence of Set and Delete *)

Lemma sum_list_with_insert {A} (f : A → nat) (l : list A) (i : nat) (x y : A) :
  l !! i = Some y →
  (sum_list_with f (<[i := x]> l) + f y = sum_list_with f l + f x)%nat.
Proof.
  revert i. induction l as [|a l IH]; intros [|i] Hi; simpl in *; try done.
  - inversion Hi; subst. lia.
  - specialize (IH i Hi). lia.
Qed.

Section cmap_len.
Context {K V : Type} {Keq : EqDecision K} {Kcnt : Countable K}.
Context {KT : hash.KeyType K} {RT : maphash.Runtime} {ZV : ZeroValue V}.
Implicit Types (m : cmap.ConcurrentMap K V) (k key : K) (v : V).
Implicit Types (live : gset K) (ws : list (cmap.Write K V)).

(** The loop of [Len] adds the sizes up, modulo the width of [int]. *)
Lemma Len_loop (l : list (gmap K V)) acc :
  foldl (fun count items => int64 (count + Z.of_nat (size items)))
        (int64 acc) l =
    int64 (acc + Z.of_nat (sum_list_with (fun items => size items) l)).
Proof.
  revert acc. induction l as [|items l IH]; intros acc; simpl.
  - by rewrite Z.add_0_r.
  - rewrite int64_add_l, IH. f_equal. lia.
Qed.

Lemma Len_totalSize m :
  cmap.Len m = Some (m, int64 (Z.of_nat (totalSize m))).
Proof.
  unfold cmap.Len, totalSize. do 2 f_equal.
  change 0 with (int64 0) at 1. by rewrite Len_loop.
Qed.

(** Writing the shard of [k] back with only [k] changed keeps the
    shards in step with a set changed at [k] only. *)
Lemma holds_putShard m k (items items' : gmap K V) live live' :
  cmap.wf m →
  holds m live →
  cmap.getShard m k = Some items →
  (∀ k0, k0 ≠ k → items' !! k0 = items !! k0) →
  (∀ k0, k0 ≠ k → k0 ∈ live' ↔ k0 ∈ live) →
  (is_Some (items' !! k) ↔ k ∈ live') →
  holds (cmap.putShard m k items') live'.
Proof.
  intros Hwf Hh Hs Hitems Hlive Hk i its k0 Hi.
  rewrite shardIndex_putShard. simpl in Hi.
  destruct (decide (i = cmap.shardIndex m k)) as [->|Hne].
  - rewrite list_lookup_insert_eq in Hi by (by apply shardIndex_bound).
    inversion Hi; subst its.
    destruct (decide (k0 = k)) as [->|Hk0].
    + rewrite Hk. naive_solver.
    + rewrite Hitems, (Hlive k0) by done. by apply Hh.
  - rewrite list_lookup_insert_ne in Hi by done.
    rewrite (Hh i its k0 Hi).
    destruct (decide (k0 = k)) as [->|Hk0]; [naive_solver|].
    by rewrite (Hlive k0).
Qed.

Lemma totalSize_putShard m k (items items' : gmap K V) :
  cmap.getShard m k = Some items →
  (totalSize (cmap.putShard m k items') + size items =
     totalSize m + size items')%nat.
Proof. intros Hs. unfold totalSize. simpl. by apply sum_list_with_insert. Qed.

(** One write keeps the shards in step with the surviving keys. *)
Lemma write_step m live (w : cmap.Write K V) :
  cmap.wf m → holds m live → totalSize m = size live →
  ∃ m', cmap.exec (cmap.call_of w) m = Some m' ∧
        cmap.wf m' ∧
        holds m' (cmap.surviving [w] live) ∧
        totalSize m' = size (cmap.surviving [w] live).
Proof.
  intros Hwf Hh Hsz. destruct w as [k v|k]; simpl;
    unfold cmap.Set_, cmap.Delete;
    destruct (getShard_is_Some m k Hwf) as [items Hs]; rewrite Hs; simpl;
    eexists; (split; [reflexivity|]); (split; [by apply wf_putShard|]);
    pose proof (Hh _ items k Hs) as Hk.
  - (* Set *)
    split.
    + apply (holds_putShard m k items _ live); try done.
      * intros. by rewrite lookup_insert_ne.
      * set_solver.
      * rewrite lookup_insert_eq. split; [set_solver|by eexists].
    + pose proof (totalSize_putShard m k items (<[k := v]> items) Hs) as Ht.
      destruct (items !! k) as [x|] eqn:Hx.
      * rewrite map_size_insert_Some in Ht by (rewrite Hx; by eexists).
        assert (k ∈ live) by (apply Hk; by eexists).
        replace ({[k]} ∪ live) with live by set_solver. lia.
      * rewrite map_size_insert_None in Ht by done.
        assert (k ∉ live).
        { intros Hin. destruct Hk as [_ Hk]. destruct Hk as [? ?]; done. }
        rewrite size_union, size_singleton by set_solver. lia.
  - (* Delete *)
    split.
    + apply (holds_putShard m k items _ live); try done.
      * intros. by rewrite lookup_delete_ne.
      * set_solver.
      * rewrite lookup_delete_eq. split; [by intros [? ?]|set_solver].
    + pose proof (totalSize_putShard m k items (delete k items) Hs) as Ht.
      destruct (items !! k) as [x|] eqn:Hx.
      * rewrite map_size_delete_Some in Ht by (rewrite Hx; by eexists).
        assert (k ∈ live) by (apply Hk; by eexists).
        assert (size items ≠ 0%nat).
        { apply map_size_ne_0_lookup. exists k. rewrite Hx. by eexists. }
        rewrite size_difference, size_singleton by set_solver.
        assert (size live ≠ 0%nat).
        { intros Hz. apply size_empty_iff in Hz. set_solver. }
        lia.
      * rewrite delete_id in Ht by done. rewrite delete_id by done.
        assert (k ∉ live).
        { intros Hin. destruct Hk as [_ Hk]. destruct Hk as [? ?]; done. }
        replace (live ∖ {[k]}) with live by set_solver. lia.
Qed.

Lemma writes_run ws : ∀ m live,
  cmap.wf m → holds m live → totalSize m = size live →
  ∃ m', cmap.run (cmap.call_of <$> ws) m = Some m' ∧
        cmap.wf m' ∧
        holds m' (cmap.surviving ws live) ∧
        totalSize m' = size (cmap.surviving ws live).
Proof.
  induction ws as [|w ws IH]; intros m live Hwf Hh Hsz.
  - exists m. split; [done|]. split; [done|]. split; done.
  - destruct (write_step m live w Hwf Hh Hsz) as (m1 & H1 & Hwf1 & Hh1 & Hsz1).
    destruct (IH m1 _ Hwf1 Hh1 Hsz1) as (m' & Hrun & Hwf' & Hh' & Hsz').
    exists m'. rewrite fmap_cons. simpl. rewrite H1. simpl.
    split; [done|]. split; [done|].
    destruct w; simpl in *; done.
Qed.

Lemma surviving_size ws : ∀ live,
  (size (cmap.surviving ws live) ≤ size live + length ws)%nat.
Proof.
  induction ws as [|[k v|k] ws IH]; intros live; simpl; [lia| |].
  - specialize (IH ({[k]} ∪ live)).
    assert (size ({[k]} ∪ live) ≤ size live + 1)%nat.
    { pose proof (size_union_alt {[k]} live) as Hu.
      rewrite Hu, size_singleton.
      assert (size (live ∖ {[k]}) ≤ size live)%nat
        by (apply subseteq_size; set_solver). lia. }
    lia.
  - specialize (IH (live ∖ {[k]})).
    assert (size (live ∖ {[k]}) ≤ size live)%nat
      by (apply subseteq_size; set_solver).
    lia.
Qed.

(** A constructed map is empty. *)
Lemma fresh_holds hint seed0 (opts : list (cmap.Option (K := K) (V := V))) m :
  is_int hint →
  Forall cmap.keeps_shards opts →
  cmap.WithShards hint seed0 opts = Some m →
  cmap.wf m ∧ holds m ∅ ∧ totalSize m = 0%nat.
Proof.
  intros Hint Hopts Hm.
  destruct (WithShards_shape _ _ _ _ Hint Hopts Hm) as (_ & Hsh & _ & Hwf).
  split; [done|]. split.
  - intros i items k Hi. rewrite Hsh in Hi.
    apply lookup_replicate in Hi as [-> _].
    rewrite lookup_empty. split; [by intros [? ?]|set_solver].
  - unfold totalSize. rewrite Hsh. clear.
    induction (Z.to_nat _) as [|n IH]; [done|].
    rewrite replicate_S. simpl. by rewrite IH, map_size_empty.
Qed.

(** [Len] on the key types compared by identity (no float, complex,
    interface or array part).  After any sequence of [Set] and
    [Delete] calls on a freshly constructed map, made one after the
    other, no call panics and [Len()] is the number of surviving keys
    (set and not deleted afterwards); the shards hold exactly those
    keys, each in the one shard it hashes to. *)
Theorem Len_counts_surviving hint seed0
    (opts : list (cmap.Option (K := K) (V := V))) m ws :
  exact_keys K →
  is_int hint →
  Forall cmap.keeps_shards opts →
  cmap.WithShards hint seed0 opts = Some m →
  Z.of_nat (length ws) < 2 ^ 63 →
  ∃ m', cmap.run (cmap.call_of <$> ws) m = Some m' ∧
        cmap.Len m' = Some (m', Z.of_nat (size (cmap.surviving ws ∅))) ∧
        holds m' (cmap.surviving ws ∅).
Proof.
  intros _ Hint Hopts Hm Hlen.
  destruct (fresh_holds _ _ _ _ Hint Hopts Hm) as (Hwf & Hh & Hsz).
  rewrite <- (size_empty (C := gset K)) in Hsz.
  destruct (writes_run ws m ∅ Hwf Hh Hsz) as (m' & Hrun & _ & Hh' & Hsz').
  exists m'. split; [done|]. split; [|done].
  rewrite Len_totalSize, Hsz'. do 2 f_equal.
  pose proof (surviving_size ws ∅) as Hb. rewrite size_empty in Hb.
  apply int64_small. lia.
Qed.
End cmap_len.

(** ** Sequences of calls on concrete maps *)

Lemma shard_routing_stable_witness :
  is_int 2 ∧
  Forall cmap.keeps_shards ([] : list (cmap.Option (K := string) (V := Z))) ∧
  cmap.WithShards (RT := sampleRuntime) 2 1 [] = Some twoShards ∧
  ∃ m', cmap.run [cmap.CallSet "a"%string 1; cmap.CallGetOrSet "b"%string 2;
                  cmap.CallDelete "a"%string; cmap.CallClear] twoShards
          = Some m' ∧
        cmap.hashFunc m' (cmap.seed m') "a"%string =
          cmap.hashFunc twoShards (cmap.seed twoShards) "a"%string ∧
        cmap.shardIndex m' "a"%string = cmap.shardIndex twoShards "a"%string ∧
        is_Some (cmap.getShard m' "a"%string) ∧
        length (cmap.shards m') = length (cmap.shards twoShards) ∧
        (([] : list (cmap.Option (K := string) (V := Z))) = [] →
         hash.GetHashFunc (K := string) (RT := sampleRuntime) =
           Some (cmap.hashFunc m') ∧
         cmap.seed m' = 1).
Proof.
  assert (Hint : is_int 2) by (unfold is_int; lia).
  split; [exact Hint|]. split; [constructor|]. split; [exact eq_refl|].
  apply (shard_routing_stable (RT := sampleRuntime) 2 1 [] twoShards);
    [exact Hint|constructor|exact eq_refl].
Defined.

Example Len_after_writes :
  (cmap.run (cmap.call_of <$>
               [cmap.WSet "a"%string 1; cmap.WSet "b"%string 2;
                cmap.WSet "a"%string 3; cmap.WDelete "b"%string;
                cmap.WDelete "c"%string]) twoShards
     ≫= fun m => snd <$> cmap.Len m) = Some 1.
Proof. vm_compute. reflexivity. Qed.

Lemma Len_counts_surviving_witness :
  let ws := [cmap.WSet "a"%string 1; cmap.WSet "b"%string 2;
             cmap.WSet "a"%string 3; cmap.WDelete "b"%string;
             cmap.WDelete "c"%string] in
  exact_keys string ∧
  is_int 2 ∧
  Forall cmap.keeps_shards [cmap.WithSeed (K := string) (V := Z) 7] ∧
  cmap.WithShards (RT := sampleRuntime) 2 1 [cmap.WithSeed 7]
    = Some (cmap.WithSeed 7 twoShards) ∧
  Z.of_nat (length ws) < 2 ^ 63 ∧
  ∃ m', cmap.run (cmap.call_of <$> ws) (cmap.WithSeed 7 twoShards) = Some m' ∧
        cmap.Len m' = Some (m', Z.of_nat (size (cmap.surviving ws ∅))) ∧
        holds m' (cmap.surviving ws ∅).
Proof.
  intros ws.
  assert (Hint : is_int 2) by (unfold is_int; lia).
  assert (Hopts : Forall cmap.keeps_shards
                    [cmap.WithSeed (K := string) (V := Z) 7])
    by (constructor; [apply WithSeed_keeps_shards|constructor]).
  assert (Hlen : Z.of_nat (length ws) < 2 ^ 63) by (simpl; lia).
  split; [exact string_keys_exact|].
  split; [exact Hint|]. split; [exact Hopts|]. split; [exact eq_refl|].
  split; [exact Hlen|].
  apply (Len_counts_surviving (RT := sampleRuntime) 2 1
           [cmap.WithSeed 7] (cmap.WithSeed 7 twoShards) ws);
    [exact string_keys_exact|exact Hint|exact Hopts|exact eq_refl|exact Hlen].
Defined.

(** ** Package cmap: how the calls compose *)

Section cmap_compose.
Context {K V : Type} {Keq : EqDecision K} {Kcnt : Countable K}.
Context {KT : hash.KeyType K} {RT : maphash.Runtime} {ZV : ZeroValue V}.
Implicit Types (m : cmap.ConcurrentMap K V) (k key : K) (v : V).

(** X1. [Set] then [Get], for a key type compared by identity (no float,
    complex, interface or array part):
    after [Set(k, v)] the map answers
    [Get(k)] with [Some(v)] and [Has(k)] with true, and [Get] of any
    other key as before; [Get] and [Has] leave the map as it is. *)
Theorem Set_then_Get m k v :
  exact_keys K →
  cmap.wf m →
  ∃ m', cmap.Set_ k v m = Some (m', tt) ∧
        cmap.Get k m' = Some (m', optional.Some v) ∧
        cmap.Has k m' = Some (m', true) ∧
        ∀ k', k' ≠ k → snd <$> cmap.Get k' m' = snd <$> cmap.Get k' m.
Proof.
  intros _ Hwf. destruct (Set_spec m k v Hwf) as (m' & HSet & Hwf' & Hk & Hother).
  exists m'. split; [done|].
  split; [by rewrite Get_spec, Hk|].
  split; [rewrite Has_spec, Hk by done; do 2 f_equal; by apply bool_decide_eq_true_2|].
  intros k' Hk'. rewrite !Get_spec by done. simpl. by rewrite Hother.
Qed.

(** X2. [Delete] then [Get], for a key type compared by identity (no float,
    complex, interface or array part):
    after [Delete(k)] the map answers
    [Get(k)] with [None] and [Has(k)] with false, [Get] of any other
    key as before, and a second [Delete(k)] changes nothing. *)
Theorem Delete_then_Get m k :
  exact_keys K →
  cmap.wf m →
  ∃ m', cmap.Delete k m = Some (m', tt) ∧
        cmap.Get k m' = Some (m', optional.None) ∧
        cmap.Has k m' = Some (m', false) ∧
        (∀ k', k' ≠ k → snd <$> cmap.Get k' m' = snd <$> cmap.Get k' m) ∧
        cmap.Delete k m' = Some (m', tt).
Proof.
  intros _ Hwf. destruct (getShard_is_Some m k Hwf) as [items Hs].
  destruct (putShard_delete m k items Hwf Hs) as [Hgone Hother].
  set (m' := cmap.putShard m k (delete k items)) in *.
  assert (Hwf' : cmap.wf m') by (by apply wf_putShard).
  exists m'. split; [unfold cmap.Delete; by rewrite Hs|].
  split; [by rewrite Get_spec, Hgone|].
  split; [rewrite Has_spec, Hgone by done; do 2 f_equal;
          apply bool_decide_eq_false_2; by intros [? ?]|].
  split; [intros k' Hk'; rewrite !Get_spec by done; simpl; by rewrite Hother|].
  destruct (getShard_is_Some m' k Hwf') as [items' Hs'].
  unfold cmap.Delete. rewrite Hs'. simpl. do 2 f_equal.
  assert (Hk : items' !! k = None).
  { unfold cmap.find in Hgone. by rewrite Hs' in Hgone. }
  rewrite delete_id by done. by apply putShard_same.
Qed.

(** X3. [SetIfAbsent] never overwrites, for a key type compared by identity (no float,
    complex, interface or array part):
    on a key the map holds it
    returns false and leaves the map as it is; on a key the map does
    not hold it returns true and the map is the one [Set] produces.
    Its answer is the negation of the flag of [GetOrSet]. *)
Theorem SetIfAbsent_spec m k v :
  exact_keys K →
  cmap.wf m →
  match cmap.find m k with
  | Some x => cmap.SetIfAbsent k v m = Some (m, false)
  | None => ∃ m', cmap.SetIfAbsent k v m = Some (m', true) ∧
                  cmap.Set_ k v m = Some (m', tt) ∧
                  cmap.Get k m' = Some (m', optional.Some v)
  end ∧
  cmap.SetIfAbsent k v m =
    (fun r => (r.1, negb r.2.2)) <$> cmap.GetOrSet k v m.
Proof.
  intros _ Hwf. destruct (getShard_is_Some m k Hwf) as [items Hs].
  unfold cmap.find, cmap.SetIfAbsent, cmap.GetOrSet. rewrite Hs. simpl.
  destruct (items !! k) as [x|] eqn:Hk.
  - by rewrite (commaOk_Some _ _ _ Hk).
  - rewrite (commaOk_None _ _ Hk). split; [|done].
    destruct (Set_spec m k v Hwf) as (m' & HSet & Hwf' & Hk' & _).
    exists m'. unfold cmap.Set_ in *. rewrite Hs in *. simpl in *.
    inversion HSet as [Hm']. rewrite Hm'.
    split; [done|]. split; [done|]. by rewrite Get_spec, Hk'.
Qed.

(** X4. For a key type compared by identity (no float, complex,
    interface or array part), [Compute(k, fn)] gives [fn] the option
    [Get(k)] returns,
    stores what [fn] returns as [Set] would and returns it; the other
    keys keep what they had. *)
Theorem Compute_spec m k (fn : optional.Option V → V) :
  exact_keys K →
  cmap.wf m →
  ∃ m' o, cmap.Get k m = Some (m, o) ∧
          cmap.Compute k fn m = Some (m', fn o) ∧
          cmap.Set_ k (fn o) m = Some (m', tt) ∧
          cmap.Get k m' = Some (m', optional.Some (fn o)) ∧
          ∀ k', k' ≠ k → snd <$> cmap.Get k' m' = snd <$> cmap.Get k' m.
Proof.
  intros _ Hwf. destruct (getShard_is_Some m k Hwf) as [items Hs].
  destruct (cmap.commaOk items k) as [old ok] eqn:Hc.
  set (o := optional.FromPair old ok).
  destruct (Set_spec m k (fn o) Hwf) as (m' & HSet & Hwf' & Hk' & Hother).
  exists m', o.
  split; [unfold cmap.Get; by rewrite Hs; simpl; rewrite Hc|].
  split.
  { unfold cmap.Compute. rewrite Hs. simpl. rewrite Hc. fold o.
    unfold cmap.Set_ in HSet. rewrite Hs in HSet. simpl in HSet.
    by inversion HSet. }
  split; [done|]. split; [by rewrite Get_spec, Hk'|].
  intros k' Hne. rewrite !Get_spec by done. simpl. by rewrite Hother.
Qed.

(** X5. [Clear] empties every shard and keeps their number, the mask,
    the hasher and the seed: afterwards [Len()] is 0 and no key is
    held. *)
Theorem Clear_spec m :
  ∃ m', cmap.Clear m = Some (m', tt) ∧
        same_routing m m' ∧
        cmap.Len m' = Some (m', 0) ∧
        holds m' ∅ ∧
        (∀ k, cmap.find m' k = None) ∧
        (cmap.wf m → ∀ k, cmap.Get k m' = Some (m', optional.None) ∧
                          cmap.Has k m' = Some (m', false)).
Proof.
  eexists. split; [reflexivity|].
  set (m' := cmap.mkMap _ _ _ _).
  assert (Hempty : ∀ i items, cmap.shards m' !! i = Some items → items = ∅).
  { intros i items. simpl. rewrite list_lookup_fmap.
    destruct (cmap.shards m !! i); simpl; [|done]. by intros [= <-]. }
  assert (Hfind : ∀ k, cmap.find m' k = None).
  { intros k. unfold cmap.find.
    destruct (cmap.getShard m' k) as [items|] eqn:Hs; [|done]. simpl.
    unfold cmap.getShard in Hs. by rewrite (Hempty _ _ Hs). }
  split; [unfold same_routing; simpl; by rewrite length_fmap|].
  split.
  { rewrite Len_totalSize. do 2 f_equal. unfold totalSize. simpl.
    replace (sum_list_with (fun items : gmap K V => size items)
               ((fun _ => ∅) <$> cmap.shards m)) with 0%nat; [done|].
    clear. induction (cmap.shards m) as [|x l IH]; [done|]. simpl.
    by rewrite map_size_empty. }
  split.
  { intros i items k Hi. rewrite (Hempty _ _ Hi), lookup_empty.
    split; [by intros [? ?]|]. intros [Hin _]. by apply elem_of_empty in Hin. }
  split; [done|].
  intros Hwf k.
  assert (Hwf' : cmap.wf m').
  { unfold cmap.wf in *. simpl. by rewrite length_fmap. }
  rewrite Has_spec, Get_spec, Hfind by done. by split.
Qed.
End cmap_compose.

(** ** Package cmap: what every call keeps *)

Section cmap_invariants.
Context {K V : Type} {Keq : EqDecision K} {Kcnt : Countable K}.
Context {KT : hash.KeyType K} {RT : maphash.Runtime} {ZV : ZeroValue V}.
Implicit Types (m : cmap.ConcurrentMap K V) (k key : K) (v : V).
Implicit Types (live : gset K) (c : cmap.Call K V) (cs : list (cmap.Call K V)).

Lemma sized_wf m : sized m → cmap.wf m.
Proof.
  intros (j & Hj & Hlen & Hmask). unfold cmap.wf. rewrite Hlen, Hmask.
  assert (0 < 2 ^ j) by (apply Z.pow_pos_nonneg; lia). lia.
Qed.

Lemma same_routing_sized m m' : same_routing m m' → sized m → sized m'.
Proof.
  intros (_ & _ & H3 & H4) (j & Hj & Hlen & Hmask).
  exists j. by rewrite H3, H4.
Qed.

(** Storing a value for [k] in its shard, and removing [k] from it. *)
Lemma insert_step m live k v (items : gmap K V) :
  cmap.wf m → holds m live → totalSize m = size live →
  cmap.getShard m k = Some items →
  holds (cmap.putShard m k (<[k := v]> items)) ({[k]} ∪ live) ∧
  totalSize (cmap.putShard m k (<[k := v]> items)) = size ({[k]} ∪ live).
Proof.
  intros Hwf Hh Hsz Hs.
  destruct (write_step m live (cmap.WSet k v) Hwf Hh Hsz)
    as (m' & Hex & _ & Hh' & Hsz').
  simpl in Hex. unfold cmap.Set_ in Hex. rewrite Hs in Hex. simpl in Hex.
  inversion Hex; subst m'. done.
Qed.

Lemma delete_step m live k (items : gmap K V) :
  cmap.wf m → holds m live → totalSize m = size live →
  cmap.getShard m k = Some items →
  holds (cmap.putShard m k (delete k items)) (live ∖ {[k]}) ∧
  totalSize (cmap.putShard m k (delete k items)) = size (live ∖ {[k]}).
Proof.
  intros Hwf Hh Hsz Hs.
  destruct (write_step m live (cmap.WDelete k) Hwf Hh Hsz)
    as (m' & Hex & _ & Hh' & Hsz').
  simpl in Hex. unfold cmap.Delete in Hex. rewrite Hs in Hex. simpl in Hex.
  inversion Hex; subst m'. done.
Qed.

Lemma cleared_holds m m' :
  cmap.Clear m = Some (m', tt) → holds m' ∅ ∧ totalSize m' = 0%nat.
Proof.
  unfold cmap.Clear. intros [= <-]. split.
  - intros i items k. simpl. rewrite list_lookup_fmap.
    destruct (cmap.shards m !! i); simpl; [|done]. intros [= <-].
    rewrite lookup_empty. split; [by intros [? ?]|].
    intros [Hin _]. by apply elem_of_empty in Hin.
  - unfold totalSize. simpl. clear.
    induction (cmap.shards m) as [|x l IH]; [done|]. simpl.
    by rewrite map_size_empty.
Qed.

(** Every call keeps the keys in the shards they hash to and the sizes
    in step. *)
Lemma exec_holds c m live m' :
  cmap.wf m → holds m live → totalSize m = size live →
  cmap.exec c m = Some m' →
  ∃ live', holds m' live' ∧ totalSize m' = size live'.
Proof.
  intros Hwf Hh Hsz.
  destruct c; simpl;
    unfold cmap.Set_, cmap.Get, cmap.Delete, cmap.Has, cmap.Get,
      cmap.GetOrSet, cmap.SetIfAbsent, cmap.Remove, cmap.Compute,
      cmap.Len, cmap.Clear;
    try (destruct (getShard_is_Some m key Hwf) as [items Hs]; rewrite Hs;
         simpl; try destruct (cmap.commaOk items key) as [val []]; simpl;
         intros [= <-];
         first [ by exists live
               | eexists; by apply (insert_step m live key _ items)
               | eexists; by apply (delete_step m live key items) ]).
  - intros [= <-]. by exists live.
  - intros [= <-]. exists ∅. rewrite size_empty. by apply (cleared_holds m).
Qed.

Lemma run_holds cs : ∀ m live,
  cmap.wf m → holds m live → totalSize m = size live →
  ∃ m' live', cmap.run cs m = Some m' ∧ same_routing m m' ∧
              holds m' live' ∧ totalSize m' = size live'.
Proof.
  induction cs as [|c cs IH]; intros m live Hwf Hh Hsz; simpl.
  - exists m, live. split; [done|]. split; [apply same_routing_refl|done].
  - destruct (exec_is_Some c m Hwf) as [m1 H1]. rewrite H1. simpl.
    pose proof (exec_same_routing c m m1 H1) as Hr1.
    destruct (exec_holds c m live m1 Hwf Hh Hsz H1) as (live1 & Hh1 & Hsz1).
    destruct (IH m1 live1 (same_routing_wf _ _ Hr1 Hwf) Hh1 Hsz1)
      as (m' & live' & Hrun & Hr & Hh' & Hsz').
    exists m', live'. split; [done|].
    split; [by apply (same_routing_trans m m1 m')|done].
Qed.

Lemma nextPowerOf2_pow2 j : 0 ≤ j ≤ 32 → cmap.nextPowerOf2 (2 ^ j) = 2 ^ j.
Proof.
  intros Hj.
  assert (0 < 2 ^ j) by (apply Z.pow_pos_nonneg; lia).
  assert (2 ^ j ≤ 2 ^ 32) by (apply Z.pow_le_mono_r; lia).
  destruct (nextPowerOf2_in_range (2 ^ j) ltac:(lia))
    as (k & Hk & -> & Hle & Hmin).
  specialize (Hmin j ltac:(lia) ltac:(lia)). lia.
Qed.

Lemma uint32_mask j : 0 ≤ j ≤ 32 → uint32 (2 ^ j - 1) = 2 ^ j - 1.
Proof.
  intros Hj. unfold uint32.
  assert (0 < 2 ^ j) by (apply Z.pow_pos_nonneg; lia).
  assert (2 ^ j ≤ 2 ^ 32) by (apply Z.pow_le_mono_r; lia).
  apply Z.mod_small. lia.
Qed.

Lemma WithShards_sized hint seed0
    (opts : list (cmap.Option (K := K) (V := V))) m :
  is_int hint → hint ≤ 2 ^ 32 →
  Forall cmap.keeps_shards opts →
  cmap.WithShards hint seed0 opts = Some m →
  sized m.
Proof.
  intros Hint Hle Hopts Hm.
  destruct (WithShards_shape _ _ _ _ Hint Hopts Hm) as (Hpos & Hsh & Hmask & _).
  simpl in *.
  set (n := if hint <=? 0 then cmap.SHARD_COUNT else hint) in *.
  assert (Hn : 0 < n ≤ 2 ^ 32).
  { unfold n, cmap.SHARD_COUNT. destruct (hint <=? 0) eqn:E; lia. }
  destruct (nextPowerOf2_in_range n Hn) as (j & Hj & Hp & _).
  rewrite Hp in *. exists j. split; [done|].
  rewrite Hsh, Hmask, length_replicate, Z2Nat.id by lia.
  split; [done|]. by apply uint32_mask.
Qed.

(** X6. For a key type compared by identity (no float, complex,
    interface or array part), on a map built with a hint up to 2^32,
    whatever calls are made
    afterwards: no call panics, the number of shards stays the power
    of two it was with the mask one less, every key the map holds is
    stored in the shard it hashes to and in no other, and the shard
    sizes add up to the number of keys held. *)
Theorem run_keeps_invariants hint seed0
    (opts : list (cmap.Option (K := K) (V := V))) m cs :
  exact_keys K →
  is_int hint → hint ≤ 2 ^ 32 →
  Forall cmap.keeps_shards opts →
  cmap.WithShards hint seed0 opts = Some m →
  ∃ m' live, cmap.run cs m = Some m' ∧
             sized m' ∧
             length (cmap.shards m') = length (cmap.shards m) ∧
             holds m' live ∧
             totalSize m' = size live.
Proof.
  intros _ Hint Hle Hopts Hm.
  destruct (fresh_holds _ _ _ _ Hint Hopts Hm) as (Hwf & Hh & Hsz).
  rewrite <- (size_empty (C := gset K)) in Hsz.
  destruct (run_holds cs m ∅ Hwf Hh Hsz) as (m' & live & Hrun & Hr & Hh' & Hsz').
  exists m', live. split; [done|].
  split; [apply (same_routing_sized m); [done|by apply (WithShards_sized hint seed0 opts)]|].
  split; [by destruct Hr as (_ & _ & _ & ?)|done].
Qed.

(** X7. The shard of a key is its digest modulo the number of shards. *)
Theorem shardIndex_mod m k :
  sized m →
  Z.of_nat (cmap.shardIndex m k) =
    cmap.hashFunc m (cmap.seed m) k mod Z.of_nat (length (cmap.shards m)).
Proof.
  intros (j & Hj & Hlen & Hmask). unfold cmap.shardIndex.
  rewrite Hlen, Hmask. simpl.
  replace (2 ^ j - 1) with (Z.ones j) by (rewrite Z.ones_equiv; lia).
  rewrite Z.land_ones by lia.
  rewrite Z2Nat.id; [done|]. apply Z.mod_pos_bound. apply Z.pow_pos_nonneg; lia.
Qed.
End cmap_invariants.

(** ** Package cmap: iteration and snapshots *)

Section cmap_range.
Context {K V : Type} {Keq : EqDecision K} {Kcnt : Countable K}.
Context {KT : hash.KeyType K} {RT : maphash.Runtime} {ZV : ZeroValue V}.
Implicit Types (m : cmap.ConcurrentMap K V) (k key : K) (v : V).
Implicit Types (live : gset K) (ord : cmap.MapOrder K V).
Implicit Types (kvs : list (K * V)) (shs : list (gmap K V)).

Lemma rangeItems_app {S : Type} (fn : K → V → S → S * bool) kvs1 kvs2 (s : S) :
  cmap.rangeItems fn (kvs1 ++ kvs2) s =
    (if (cmap.rangeItems fn kvs1 s).2
     then cmap.rangeItems fn kvs2 (cmap.rangeItems fn kvs1 s).1
     else cmap.rangeItems fn kvs1 s).
Proof.
  revert s. induction kvs1 as [|[k v] kvs1 IH]; intros s; simpl; [done|].
  destruct (fn k v s) as [s' []]; simpl; [apply IH|done].
Qed.

Lemma rangeItems_stopped {S : Type} (fn : K → V → S → S * bool) kvs (s : S) :
  (cmap.rangeItems fn kvs s).2 = false →
  cmap.rangeItems fn kvs s = ((cmap.rangeItems fn kvs s).1, false).
Proof. destruct (cmap.rangeItems fn kvs s) as [s' b]. simpl. by intros ->. Qed.

Lemma rangeShards_flat {S : Type} ord (fn : K → V → S → S * bool) shs (s : S) :
  cmap.rangeShards ord fn shs s = (cmap.rangeItems fn (shs ≫= ord) s).1.
Proof.
  revert s. induction shs as [|items shs IH]; intros s; [done|].
  rewrite bind_cons, rangeItems_app. simpl.
  destruct (cmap.rangeItems fn (ord items) s) as [s' []]; simpl; [apply IH|done].
Qed.

(** A callback that never stops folds over the entries. *)
Lemma rangeItems_foldl {S : Type} (f : S → K * V → S) kvs (s : S) :
  cmap.rangeItems (fun k v s => (f s (k, v), true)) kvs s = (foldl f s kvs, true).
Proof.
  revert s. induction kvs as [|[k v] kvs IH]; intros s; simpl; [done|apply IH].
Qed.

(** X8. [Range] is one loop over the entries of the shards, shard after
    shard, that ends with the first [false] of the callback: a
    callback that stops at once is called on the first entry only, and
    not at all on an empty map. *)
Theorem Range_flat {S : Type} ord (fn : K → V → S → S * bool) (s : S) m :
  cmap.Range ord fn s m = (cmap.rangeItems fn (entries ord m) s).1 ∧
  (∀ k v rest, entries ord m = (k, v) :: rest → (fn k v s).2 = false →
               cmap.Range ord fn s m = (fn k v s).1) ∧
  (entries ord m = [] → cmap.Range ord fn s m = s).
Proof.
  unfold cmap.Range, entries. rewrite rangeShards_flat.
  split; [done|]. split.
  - intros k v rest -> Hstop. simpl.
    destruct (fn k v s) as [s' b]. simpl in *. by subst b.
  - by intros ->.
Qed.

Lemma foldl_snoc_fmap {A B : Type} (f : A → B) (l : list A) (acc : list B) :
  foldl (fun acc x => acc ++ [f x]) acc l = acc ++ (f <$> l).
Proof.
  revert acc. induction l as [|x l IH]; intros acc; simpl.
  - by rewrite app_nil_r.
  - rewrite IH. by rewrite <- app_assoc.
Qed.

Lemma valid_order_entries ord m :
  valid_order ord → entries ord m ≡ₚ cmap.shards m ≫= map_to_list.
Proof.
  intros Hord. unfold entries.
  induction (cmap.shards m) as [|items shs IH]; [done|].
  rewrite !bind_cons. by rewrite IH, (Hord items).
Qed.

Lemma length_entries ord m :
  valid_order ord → length (entries ord m) = totalSize m.
Proof.
  intros Hord. rewrite (valid_order_entries ord m Hord).
  unfold totalSize. induction (cmap.shards m) as [|items shs IH]; [done|].
  rewrite bind_cons, length_app, IH. simpl. by rewrite length_map_to_list.
Qed.

Lemma elem_of_entries ord m k v :
  valid_order ord →
  (k, v) ∈ entries ord m ↔
    ∃ i items, cmap.shards m !! i = Some items ∧ items !! k = Some v.
Proof.
  intros Hord. rewrite (valid_order_entries ord m Hord).
  rewrite list_elem_of_bind. split.
  - intros (items & Hkv & Hin). apply elem_of_map_to_list in Hkv.
    apply list_elem_of_lookup in Hin as [i Hi]. by exists i, items.
  - intros (i & items & Hi & Hkv). exists items.
    split; [by apply elem_of_map_to_list|by apply (list_elem_of_lookup_2 _ i)].
Qed.

(** On a map whose keys are in the shards they hash to, the entries
    are the pairs the map holds. *)
Lemma elem_of_entries_find ord m live k v :
  valid_order ord → holds m live →
  (k, v) ∈ entries ord m ↔ cmap.find m k = Some v.
Proof.
  intros Hord Hh. rewrite elem_of_entries by done. unfold cmap.find, cmap.getShard.
  split.
  - intros (i & items & Hi & Hkv).
    destruct (Hh i items k Hi) as [Hidx _].
    destruct Hidx as [_ Hidx]; [by eexists|]. by rewrite Hidx, Hi.
  - destruct (cmap.shards m !! cmap.shardIndex m k) as [items|] eqn:Hi; [|done].
    simpl. intros Hkv. by exists (cmap.shardIndex m k), items.
Qed.

Lemma NoDup_shard_keys shs :
  (∀ i j (a b : gmap K V) k,
     shs !! i = Some a → shs !! j = Some b →
     is_Some (a !! k) → is_Some (b !! k) → i = j) →
  NoDup ((shs ≫= map_to_list).*1).
Proof.
  induction shs as [|a shs IH]; intros Hinj; [constructor|].
  rewrite bind_cons, fmap_app. apply NoDup_app. split; [|split].
  - apply NoDup_fst_map_to_list.
  - intros k Hk Hk'.
    apply list_elem_of_fmap in Hk as ([k1 v1] & -> & Hk).
    apply elem_of_map_to_list in Hk.
    apply list_elem_of_fmap in Hk' as ([k2 v2] & Heq & Hk'). simpl in Heq.
    subst k2. apply list_elem_of_bind in Hk' as (b & Hkv & Hb).
    apply elem_of_map_to_list in Hkv.
    apply list_elem_of_lookup in Hb as [j Hj].
    assert (0%nat = S j) as Hbad; [|done].
    apply (Hinj 0%nat (S j) a b k1); [done|done|by eexists|by eexists].
  - apply IH. intros i j a' b k Hi Hj Ha Hb.
    assert (S i = S j) as Heq; [|by inversion Heq].
    by apply (Hinj (S i) (S j) a' b k).
Qed.

Lemma NoDup_entries_keys ord m live :
  valid_order ord → holds m live → NoDup ((entries ord m).*1).
Proof.
  intros Hord Hh. rewrite (valid_order_entries ord m Hord).
  apply NoDup_shard_keys. intros i j a b k Hi Hj Ha Hb.
  destruct (Hh i a k Hi) as [Hia _]. destruct (Hh j b k Hj) as [Hjb _].
  destruct (Hia Ha) as [_ <-]. by destruct (Hjb Hb) as [_ <-].
Qed.

Lemma entries_keys_live ord m live :
  valid_order ord → cmap.wf m → holds m live →
  (entries ord m).*1 ≡ₚ elements live.
Proof.
  intros Hord Hwf Hh. apply NoDup_Permutation.
  - by apply (NoDup_entries_keys ord m live).
  - apply NoDup_elements.
  - intros k. rewrite elem_of_elements. split.
    + intros Hk. apply list_elem_of_fmap in Hk as ([k1 v1] & -> & Hk).
      apply elem_of_entries in Hk as (i & items & Hi & Hkv); [|done].
      destruct (Hh i items k1 Hi) as [Hin _].
      destruct Hin as [Hin _]; [by eexists|done].
    + intros Hk. destruct (getShard_is_Some m k Hwf) as [items Hs].
      destruct (Hh _ items k Hs) as [_ Hin].
      destruct Hin as [v Hv]; [done|].
      apply list_elem_of_fmap. exists (k, v). split; [done|].
      apply elem_of_entries; [done|]. by exists (cmap.shardIndex m k), items.
Qed.

(** What the three snapshots return. *)
Lemma Keys_entries ord m :
  Z.of_nat (totalSize m) < 2 ^ 63 →
  cmap.Keys ord m = Some (m, (entries ord m).*1).
Proof.
  intros Hsz. unfold cmap.Keys. rewrite Len_totalSize. simpl.
  rewrite int64_small by lia.
  destruct (_ <? 0) eqn:E; [lia|]. do 2 f_equal.
  unfold cmap.Range. rewrite rangeShards_flat.
  rewrite (rangeItems_foldl (fun keys kv => keys ++ [kv.1])). simpl.
  by rewrite foldl_snoc_fmap.
Qed.

Lemma Values_entries ord m :
  Z.of_nat (totalSize m) < 2 ^ 63 →
  cmap.Values ord m = Some (m, (entries ord m).*2).
Proof.
  intros Hsz. unfold cmap.Values. rewrite Len_totalSize. simpl.
  rewrite int64_small by lia.
  destruct (_ <? 0) eqn:E; [lia|]. do 2 f_equal.
  unfold cmap.Range. rewrite rangeShards_flat.
  rewrite (rangeItems_foldl (fun values kv => values ++ [kv.2])). simpl.
  by rewrite foldl_snoc_fmap.
Qed.

Lemma Items_entries ord m :
  Z.of_nat (totalSize m) < 2 ^ 63 →
  cmap.Items ord m =
    Some (m, (fun kv => cmap.mkItem kv.1 kv.2) <$> entries ord m).
Proof.
  intros Hsz. unfold cmap.Items. rewrite Len_totalSize. simpl.
  rewrite int64_small by lia.
  destruct (_ <? 0) eqn:E; [lia|]. do 2 f_equal.
  unfold cmap.Range. rewrite rangeShards_flat.
  rewrite (rangeItems_foldl (fun items kv => items ++ [cmap.mkItem kv.1 kv.2])).
  simpl. by rewrite foldl_snoc_fmap.
Qed.

(** X9. For a key type compared by identity (no float, complex,
    interface or array part), [Items] returns the pairs the map holds,
    each key once, and as
    many of them as [Len] counts. *)
Theorem Items_spec ord m live :
  exact_keys K →
  valid_order ord → cmap.wf m → holds m live →
  Z.of_nat (totalSize m) < 2 ^ 63 →
  ∃ its, cmap.Items ord m = Some (m, its) ∧
         NoDup (cmap.Key <$> its) ∧
         (∀ k v, cmap.mkItem k v ∈ its ↔ cmap.find m k = Some v) ∧
         cmap.Len m = Some (m, Z.of_nat (length its)).
Proof.
  intros _ Hord Hwf Hh Hsz. eexists. split; [by apply Items_entries|].
  split; [|split].
  - rewrite <- list_fmap_compose.
    replace (cmap.Key ∘ _) with (fst : K * V → K) by done.
    by apply (NoDup_entries_keys ord m live).
  - intros k v. rewrite <- (elem_of_entries_find ord m live) by done.
    rewrite list_elem_of_fmap. split.
    + intros ([k1 v1] & Heq & Hin). simpl in Heq. by inversion Heq; subst.
    + intros Hin. by exists (k, v).
  - rewrite Len_totalSize, length_fmap, length_entries by done.
    by rewrite int64_small by lia.
Qed.

(** X10. For a key type compared by identity (no float, complex,
    interface or array part), [Keys] returns the keys the map holds,
    each once, in some
    order; [Keys] and [Values] return the keys and the values of the
    pairs [Items] returns, up to the order, whatever the orders of the
    three iterations. *)
Theorem Keys_Values_spec ord1 ord2 ord3 m live :
  exact_keys K →
  valid_order ord1 → valid_order ord2 → valid_order ord3 →
  cmap.wf m → holds m live →
  Z.of_nat (totalSize m) < 2 ^ 63 →
  ∃ ks vs its, cmap.Keys ord1 m = Some (m, ks) ∧
               cmap.Values ord2 m = Some (m, vs) ∧
               cmap.Items ord3 m = Some (m, its) ∧
               ks ≡ₚ elements live ∧
               ks ≡ₚ cmap.Key <$> its ∧
               vs ≡ₚ cmap.Value <$> its.
Proof.
  intros _ Ho1 Ho2 Ho3 Hwf Hh Hsz. eexists _, _, _.
  split; [by apply Keys_entries|]. split; [by apply Values_entries|].
  split; [by apply Items_entries|].
  split; [by apply entries_keys_live|].
  rewrite <- !list_fmap_compose.
  replace (cmap.Key ∘ _) with (fst : K * V → K) by done.
  replace (cmap.Value ∘ _) with (snd : K * V → V) by done.
  rewrite (valid_order_entries ord1), (valid_order_entries ord2),
    (valid_order_entries ord3) by done.
  done.
Qed.
End cmap_range.

(** ** Package cmap: Clone and New *)

Section cmap_clone.
Context {K V : Type} {Keq : EqDecision K} {Kcnt : Countable K}.
Context {KT : hash.KeyType K} {RT : maphash.Runtime} {ZV : ZeroValue V}.
Implicit Types (m c : cmap.ConcurrentMap K V) (k key : K) (v : V).
Implicit Types (live : gset K) (ord : cmap.MapOrder K V).
Implicit Types (kvs : list (K * V)).

(** The loop of [Clone]: every entry is stored in the clone, no call
    of [Set] panics, and the clone ends up holding the entries over
    what it held. *)
Lemma clone_loop kvs : ∀ c live,
  NoDup (kvs.*1) →
  cmap.wf c → holds c live → totalSize c = size live →
  ∃ c' live',
    cmap.rangeItems
      (fun key value (clone : option (cmap.ConcurrentMap K V)) =>
         match (clone ≫= cmap.Set_ key value) with
         | Some (clone', _) => (Some clone', true)
         | None => (None, false)
         end) kvs (Some c) = (Some c', true) ∧
    same_routing c c' ∧ holds c' live' ∧ totalSize c' = size live' ∧
    ∀ k v, cmap.find c' k = Some v ↔
           (k, v) ∈ kvs ∨ ((k ∉ kvs.*1) ∧ cmap.find c k = Some v).
Proof.
  induction kvs as [|[k0 v0] kvs IH]; intros c live Hnd Hwf Hh Hsz.
  - exists c, live. split; [done|]. split; [apply same_routing_refl|].
    split; [done|]. split; [done|]. intros k v. split.
    + intros Hf. right. split; [apply not_elem_of_nil|done].
    + intros [Hin|[_ Hf]]; [by apply elem_of_nil in Hin|done].
  - apply NoDup_cons in Hnd as [Hk0 Hnd]. simpl.
    destruct (Set_spec c k0 v0 Hwf) as (c1 & HSet & Hwf1 & Hk1 & Hother).
    rewrite HSet.
    destruct (getShard_is_Some c k0 Hwf) as [items Hs].
    destruct (insert_step c live k0 v0 items Hwf Hh Hsz Hs) as [Hh1 Hsz1].
    assert (Hc1 : c1 = cmap.putShard c k0 (<[k0 := v0]> items)).
    { unfold cmap.Set_ in HSet. rewrite Hs in HSet. simpl in HSet.
      by inversion HSet. }
    rewrite <- Hc1 in Hh1, Hsz1.
    destruct (IH c1 _ Hnd Hwf1 Hh1 Hsz1) as (c' & live' & Hloop & Hr & Hh' & Hsz' & Hfind).
    exists c', live'. split; [done|].
    split.
    { apply (same_routing_trans c c1 c'); [|done].
      rewrite Hc1. apply same_routing_putShard. }
    split; [done|]. split; [done|].
    intros k v. rewrite Hfind, elem_of_cons. rewrite ?fmap_cons. simpl.
    rewrite not_elem_of_cons. split.
    + intros [Hin|[Hnin Hf]]; [by left; right|].
      destruct (decide (k = k0)) as [->|Hne].
      * rewrite Hk1 in Hf. inversion Hf; subst. by left; left.
      * rewrite Hother in Hf by done. by right.
    + intros [[Heq|Hin]|[[Hne Hnin] Hf]].
      * inversion Heq; subst. right. by rewrite Hk1.
      * by left.
      * right. split; [done|]. by rewrite Hother.
Qed.

(** Two maps that route alike and hold the same value for every key,
    each key in the shard it hashes to, are equal. *)
Lemma routed_map_eq m c live live' :
  same_routing m c → holds m live → holds c live' →
  (∀ k, cmap.find c k = cmap.find m k) →
  c = m.
Proof.
  intros Hr Hh Hh' Hfind.
  pose proof Hr as (H1 & H2 & H3 & H4).
  destruct m as [sh mask hf sd], c as [sh' mask' hf' sd']. simpl in *.
  subst. f_equal. apply list_eq_same_length with (length sh); [done..|].
  intros i a' a Hi Ha' Ha. apply map_eq. intros k.
  set (m := cmap.mkMap sh mask hf sd) in *.
  set (c := cmap.mkMap sh' mask hf sd) in *.
  assert (Hidx : cmap.shardIndex c k = cmap.shardIndex m k) by done.
  destruct (decide (cmap.shardIndex m k = i)) as [Heq|Hne].
  - specialize (Hfind k). unfold cmap.find, cmap.getShard in Hfind.
    rewrite Hidx, Heq in Hfind. simpl in Hfind.
    by rewrite Ha', Ha in Hfind.
  - destruct (a' !! k) as [x|] eqn:Hx.
    { destruct (Hh' i a' k Ha') as [Hc _].
      destruct Hc as [_ Hc]; [by eexists|]. by rewrite Hidx in Hc. }
    destruct (a !! k) as [y|] eqn:Hy; [|done].
    destruct (Hh i a k Ha) as [Hc _].
    destruct Hc as [_ Hc]; [by eexists|]. done.
Qed.

(** X11. [Clone] of a map whose keys are in the shards they hash to
    returns a map equal to the original: as many shards, the same
    mask, hasher and seed, and in every shard the same entries; the
    original is left as it is and no call of [Set] on the clone
    panics. *)
Theorem Clone_spec ord freshSeed m live :
  valid_order ord →
  sized m → holds m live →
  is_Some (hash.GetHashFunc (K := K)) →
  cmap.Clone ord freshSeed m = Some (m, m).
Proof.
  intros Hord Hsized Hh [h Hh0].
  pose proof (sized_wf m Hsized) as Hwf.
  destruct Hsized as (j & Hj & Hlen & Hmask).
  assert (Hpos : 0 < 2 ^ j) by (apply Z.pow_pos_nonneg; lia).
  set (c0 := cmap.mkMap (K := K) (V := V)
               (replicate (length (cmap.shards m)) ∅)
               (cmap.shardMask m) (cmap.hashFunc m) (cmap.seed m)).
  assert (Hc0 : cmap.WithShards (Z.of_nat (length (cmap.shards m))) freshSeed
                  [cmap.WithHash (cmap.hashFunc m); cmap.WithSeed (cmap.seed m)]
                = Some c0).
  { unfold cmap.WithShards. rewrite Hlen.
    destruct (2 ^ j <=? 0) eqn:E; [lia|].
    rewrite nextPowerOf2_pow2 by done.
    destruct (2 ^ j <? 0) eqn:E'; [lia|].
    assert (2 ^ j ≤ 2 ^ 32) by (apply Z.pow_le_mono_r; lia).
    destruct (cmap.maxAlloc <? 8 * 2 ^ j) eqn:E'';
      [unfold cmap.maxAlloc in E''; lia|].
    rewrite Hh0. simpl.
    unfold cmap.WithSeed, cmap.WithHash, c0. simpl.
    rewrite uint32_mask, <- Hmask, <- Hlen, Nat2Z.id by done. done. }
  assert (Hr0 : same_routing m c0).
  { unfold same_routing, c0. simpl. by rewrite length_replicate. }
  assert (Hwf0 : cmap.wf c0) by (by apply (same_routing_wf m)).
  assert (Hempty : ∀ i (items : gmap K V),
             cmap.shards c0 !! i = Some items → items = ∅).
  { intros i items Hi. simpl in Hi. by apply lookup_replicate in Hi as [-> _]. }
  assert (Hh0' : holds c0 ∅).
  { intros i items k Hi. rewrite (Hempty _ _ Hi), lookup_empty.
    split; [by intros [? ?]|]. intros [Hin _]. by apply elem_of_empty in Hin. }
  assert (Hsz0 : totalSize c0 = size (∅ : gset K)).
  { rewrite size_empty. unfold totalSize, c0. simpl. clear.
    induction (length _) as [|n IH]; [done|]. simpl.
    by rewrite map_size_empty. }
  assert (Hfind0 : ∀ k, cmap.find c0 k = None).
  { intros k. unfold cmap.find.
    destruct (cmap.getShard c0 k) as [items|] eqn:Hs; [|done]. simpl.
    unfold cmap.getShard in Hs. by rewrite (Hempty _ _ Hs). }
  destruct (clone_loop (entries ord m) c0 ∅
              (NoDup_entries_keys ord m live Hord Hh) Hwf0 Hh0' Hsz0)
    as (c' & live' & Hloop & Hr & Hh' & _ & Hfind).
  assert (Hc' : c' = m).
  { apply (routed_map_eq m c' live live'); [|done|done|].
    - by apply (same_routing_trans m c0 c').
    - intros k. apply option_eq. intros v. rewrite Hfind.
      rewrite (elem_of_entries_find ord m live) by done.
      rewrite Hfind0. split; [by intros [?|[_ ?]]|by left]. }
  unfold cmap.Clone. rewrite Hc0. simpl.
  unfold cmap.Range. rewrite rangeShards_flat.
  fold (entries ord m). rewrite Hloop. simpl. by rewrite Hc'.
Qed.
End cmap_clone.

Section cmap_new.
Context {K V : Type} {Keq : EqDecision K} {Kcnt : Countable K}.
Context {KT : hash.KeyType K} {RT : maphash.Runtime} {ZV : ZeroValue V}.
Implicit Types (m c : cmap.ConcurrentMap K V) (k key : K) (v : V).

Lemma GetHashFunc_is_Some :
  is_Some (hash.GetHashFunc (K := K)) ↔ is_Some (hash.typeOf (K := K)).
Proof.
  unfold hash.GetHashFunc.
  destruct (hash.typeOf (K := K)) as [[[]|k|fs]|];
    try case_bool_decide; split; intros [x Hx]; first [done | by eexists].
Qed.

(** X12. [New] panics when the key type is an interface type and
    otherwise returns a map of 32 empty shards with the mask 31:
    [Len()] is 0 and [Get] of any key is [None]. *)
Theorem New_spec seed0 (opts : list (cmap.Option (K := K) (V := V))) :
  Forall cmap.keeps_shards opts →
  match hash.typeOf (K := K) with
  | None => cmap.New seed0 opts = None
  | Some _ =>
      ∃ m, cmap.New seed0 opts = Some m ∧
           length (cmap.shards m) = 32%nat ∧
           cmap.shardMask m = 31 ∧
           cmap.Len m = Some (m, 0) ∧
           ∀ k, cmap.Get k m = Some (m, optional.None)
  end.
Proof.
  intros Hopts. pose proof GetHashFunc_is_Some as Hiff.
  destruct (hash.typeOf (K := K)) as [t|] eqn:Ht.
  - destruct Hiff as [_ Hh]. destruct Hh as [h Hh]; [by eexists|].
    assert (Hnew : ∃ m, cmap.New seed0 opts = Some m).
    { unfold cmap.New, cmap.WithShards. rewrite Hh. by eexists. }
    destruct Hnew as [m Hm]. exists m. split; [done|].
    unfold cmap.New in Hm.
    assert (Hint : is_int cmap.SHARD_COUNT) by (unfold is_int, cmap.SHARD_COUNT; lia).
    destruct (WithShards_shape _ _ _ _ Hint Hopts Hm) as (_ & Hsh & Hmask & Hwf).
    destruct (fresh_holds _ _ _ _ Hint Hopts Hm) as (_ & Hholds & Hsz).
    split; [by rewrite Hsh|]. split; [by rewrite Hmask|].
    split; [by rewrite Len_totalSize, Hsz|].
    intros k. rewrite Get_spec by done.
    destruct (cmap.find m k) as [x|] eqn:Hx; [|done].
    unfold cmap.find in Hx.
    destruct (cmap.getShard m k) as [items|] eqn:Hs; [|done]. simpl in Hx.
    destruct (Hholds _ items k Hs) as [Hc _].
    destruct Hc as [Hc _]; [by eexists|]. by apply elem_of_empty in Hc.
  - unfold cmap.New, cmap.WithShards.
    destruct (hash.GetHashFunc (K := K)) as [h|] eqn:Hh; [|done].
    destruct Hiff as [Hc _]. destruct Hc as [? ?]; [by eexists|done].
Qed.
End cmap_new.

(** ** Package hash: key types without a derived digest, and nesting *)

Lemma flattenStruct_inlined off fs base :
  hash.flattenStruct (reflect.TStruct (inlined off fs)) base =
    hash.flattenStruct (reflect.TStruct fs) (base + off).
Proof.
  induction fs as [|[[name o] ft] rest IH]; [done|].
  unfold inlined in *. rewrite fmap_cons.
  rewrite flattenStruct_cons, IH, (flattenStruct_cons name o ft rest).
  f_equal. simpl. rewrite !app_nil_r, Z.add_assoc. done.
Qed.

Section hash_extra.
Context {K V : Type} {Keq : EqDecision K} {Kcnt : Countable K}.
Context {KT : hash.KeyType K} {RT : maphash.Runtime}.
Implicit Types (m : cmap.ConcurrentMap K V).

(** X15. Nesting does not show in the digest: a key type with a nested
    struct field gets the descriptors, and so the hasher, of the type
    that has the fields of the nested struct in its place, at the
    offsets they have in the key. *)
Theorem flattenStruct_inline pre name off inner post :
  name ≠ "_"%string →
  hash.flattenStruct
    (reflect.TStruct (pre ++ (name, off, reflect.TStruct inner) :: post)) 0 =
  hash.flattenStruct (reflect.TStruct (pre ++ inlined off inner ++ post)) 0 ∧
  hash.CreateStructHasher (K := K)
    (reflect.TStruct (pre ++ (name, off, reflect.TStruct inner) :: post)) =
  hash.CreateStructHasher
    (reflect.TStruct (pre ++ inlined off inner ++ post)).
Proof.
  intros Hname.
  assert (H : hash.flattenStruct
    (reflect.TStruct (pre ++ (name, off, reflect.TStruct inner) :: post)) 0 =
  hash.flattenStruct (reflect.TStruct (pre ++ inlined off inner ++ post)) 0).
  { rewrite !flattenStruct_app, flattenStruct_cons, flattenStruct_inlined.
    do 2 f_equal. simpl. rewrite app_nil_r.
    destruct (String.eqb name "_") eqn:E; [|done].
    by apply String.eqb_eq in E. }
  split; [done|]. unfold hash.CreateStructHasher. by rewrite H.
Qed.

Lemma flattenStruct_skipped fs base :
  Forall skipped fs → hash.flattenStruct (reflect.TStruct fs) base = [].
Proof.
  induction 1 as [|[[name o] ft] rest Hf _ IH]; [done|].
  rewrite flattenStruct_cons, IH, app_nil_r.
  destruct Hf as [Hb|[Hns Hk]]; cbn [fst snd] in *.
  - rewrite Hb. apply flattenStruct_blank.
  - by apply flattenStruct_undescribed.
Qed.

(** X14. A struct key type none of whose fields has a descriptor (no
    fields at all, or only blank fields, arrays, channels, interfaces,
    complex numbers and the like) gets the digest 0 for every key and
    seed: a map with the derived hasher keeps all its keys in shard
    0. *)
Theorem struct_without_descriptors fs :
  hash.typeOf (K := K) = Some (reflect.TStruct fs) →
  Forall skipped fs →
  ∃ h, hash.GetHashFunc (K := K) = Some h ∧
       (∀ seed key, h seed key = 0) ∧
       ∀ m key, cmap.hashFunc m = h → cmap.shardIndex m key = 0%nat.
Proof.
  intros Ht Hfs. eexists. split; [by apply GetHashFunc_struct|].
  assert (H0 : ∀ seed (key : K),
             hash.CreateStructHasher (reflect.TStruct fs) seed key = 0).
  { intros seed key. unfold hash.CreateStructHasher.
    by rewrite flattenStruct_skipped. }
  split; [done|].
  intros m key Hm. unfold cmap.shardIndex. by rewrite Hm, H0.
Qed.

(** X13. A key type that is neither one of the fifteen types of the
    type switch nor a struct (a defined type such as [type ID int], an
    array, a pointer, a complex number) and has no [Hash] method is
    hashed through its [String] method alone: keys with the same
    [String()] get the same digest, and without a [String] method
    every key gets the same digest, so that a map with the derived
    hasher keeps all its keys in one shard. *)
Theorem fallback_digest t :
  hash.typeOf (K := K) = Some t →
  (∃ k, t = reflect.TDefined k ∧ k ≠ reflect.Struct) ∨
    t = reflect.TBuiltin reflect.Complex64 ∨
    t = reflect.TBuiltin reflect.Complex128 →
  hash.hashMethod (K := K) = None →
  ∃ h, hash.GetHashFunc (K := K) = Some h ∧
       (∀ seed k1 k2,
          match hash.stringMethod (K := K) with
          | Some stringOf => stringOf k1 = stringOf k2
          | None => True
          end → h seed k1 = h seed k2) ∧
       (∀ seed key,
          h seed key =
            match hash.stringMethod (K := K) with
            | Some stringOf => hash.StringHasher seed (stringOf key)
            | None => uint32 (maphash.Bytes seed [])
            end) ∧
       ∀ m k1 k2, cmap.hashFunc m = h →
                  hash.stringMethod (K := K) = None →
                  cmap.shardIndex m k1 = cmap.shardIndex m k2.
Proof.
  intros Ht Hcases Hm. exists hash.fallbackHasher.
  split.
  { unfold hash.GetHashFunc. rewrite Ht.
    destruct Hcases as [(k & -> & Hk)|[->| ->]]; [|done|done].
    simpl. by rewrite bool_decide_eq_false_2. }
  unfold hash.fallbackHasher. rewrite Hm.
  split; [|split].
  - intros seed k1 k2. destruct (hash.stringMethod (K := K)); [by intros ->|done].
  - intros seed key. by destruct (hash.stringMethod (K := K)).
  - intros m k1 k2 Hh Hs. unfold cmap.shardIndex. rewrite Hh.
    cbv beta. by rewrite Hs.
Qed.
End hash_extra.

(** ** Package optional: accessors and combinators *)

Ltac opt_cases :=
  repeat match goal with
         | o : optional.Option _ |- _ => destruct o as [[] ?]
         end.

Section optional_extra.
Context {T : Type} {ZV : ZeroValue T}.
Implicit Types (o other p : optional.Option T) (v d : T).

Lemma built_value_zero (T' : Type) (ZV' : ZeroValue T') (o : optional.Option T') :
  built T' ZV' o →
  optional.st o ≠ optional.statePresent → optional.value o = zeroValue.
Proof.
  induction 1 as
    [ | | | ? ? []| ? ? ? v | ? ? ? [] | ? ? o p Ho IH | ? ? o p Ho IHo Hp IHp
    | ? ? o p Ho IHo Hp IHp | ? ? o s Ho IHo Hs IHs | ? ? o p Ho IHo Hp IHp
    | ? ? ? ? o f Ho IHo | ? ? ? ? o f Ho IHo Hf IHf | ? ? ? ? o f Ho IHo ];
    simpl; try done.
  - unfold optional.FromZero. case_bool_decide; simpl; done.
  - unfold optional.Filter. destruct o as [[] x]; simpl in *; try done.
    destruct (p x); simpl; done.
  - unfold optional.And. destruct o as [[] x]; simpl in *; done.
  - unfold optional.Or. destruct o as [[] x]; simpl in *; done.
  - unfold optional.OrElseOption. destruct o as [[] x]; simpl in *; done.
  - unfold optional.Xor.
    destruct o as [[] x], p as [[] y]; simpl in *; done.
  - unfold optional.Map. destruct o as [[] x]; simpl in *; done.
  - unfold optional.FlatMap. destruct o as [[] x]; simpl in *; try done.
    apply IHf.
  - unfold optional.TryMap. destruct o as [[] x]; simpl in *; try done.
    destruct (f x) as [r [e|]]; simpl; done.
Qed.

(** X16. An option built by the package's constructors and combinators
    that holds no value carries the zero value of its type: [Get()]
    answers what [OrEmpty()] answers. *)
Theorem built_Get_OrEmpty o :
  built T ZV o → optional.Get o = optional.OrEmpty o.
Proof.
  intros Hb. pose proof (built_value_zero _ _ _ Hb) as Hz.
  unfold optional.Get, optional.OrEmpty.
  destruct o as [[] x]; simpl in *; try done; by apply Hz.
Qed.

(** X17. [Or] as the code has it answers like [And]: the result holds a
    value exactly when both options do, and it is then [other]; a
    receiver without a value is returned as it is.
    [OrElseOption(supplier)] is [Or(supplier())]. *)
Theorem Or_answers_like_And o other d :
  optional.IsPresent (optional.Or o other) =
    optional.IsPresent o && optional.IsPresent other ∧
  optional.IsPresent (optional.Or o other) =
    optional.IsPresent (optional.And o other) ∧
  optional.OrElse (optional.Or o other) d =
    optional.OrElse (optional.And o other) d ∧
  optional.MustGet (optional.Or o other) =
    optional.MustGet (optional.And o other) ∧
  optional.Or (optional.Some d) other = other ∧
  optional.Or optional.None other = optional.None ∧
  (∀ supplier, optional.OrElseOption o supplier =
                 optional.Or o (supplier tt)).
Proof.
  repeat split; opt_cases; done.
Qed.

(** X18. [Xor] does not depend on the order of its operands and holds a
    value exactly when one of the two does. *)
Theorem Xor_comm o other :
  optional.Xor o other = optional.Xor other o ∧
  optional.IsPresent (optional.Xor o other) =
    xorb (optional.IsPresent o) (optional.IsPresent other).
Proof. split; opt_cases; done. Qed.

(** X19. Filtering twice is filtering by the conjunction; an option
    without a value passes through [Filter] as it is. *)
Theorem Filter_Filter o (p q : T → bool) :
  optional.Filter (optional.Filter o p) q =
    optional.Filter o (fun x => p x && q x) ∧
  optional.IsPresent (optional.Filter o p) =
    optional.IsPresent o && p (optional.value o) ∧
  (optional.IsPresent o = false → optional.Filter o p = o).
Proof.
  repeat split; destruct o as [[] x]; unfold optional.Filter; simpl;
    try done; destruct (p x) eqn:Hp; simpl; rewrite ?Hp; try done;
    destruct (q x); done.
Qed.

(** X21. [FromZero] and [OrEmpty] are a round trip on values; [FromPtr]
    and [Ptr] on pointers. *)
Theorem FromZero_OrEmpty {Teq : EqDecision T} v (ptr : option T) o :
  optional.OrEmpty (optional.FromZero v) = v ∧
  optional.IsPresent (optional.FromZero v) = bool_decide (v ≠ zeroValue) ∧
  optional.Ptr (optional.FromPtr ptr) = ptr ∧
  optional.FromPtr (optional.Ptr o) =
    (if optional.IsPresent o then o else optional.None).
Proof.
  repeat split.
  - unfold optional.FromZero. case_bool_decide; simpl; done.
  - unfold optional.FromZero. repeat case_bool_decide; simpl; done.
  - by destruct ptr.
  - by opt_cases.
Qed.

(** X22. The accessors agree with each other: [MustGet] panics exactly
    when [Ptr] is nil and returns what [Ptr] points to, [OrPanic]
    panics with its message exactly when [MustGet] panics, [GetErr]
    returns an error exactly when the option holds no value and
    returns with it what [OrEmpty] returns, [OrEmpty] is [OrElse] with
    the zero value and [OrElseGet] is [OrElse] with the supplier's
    value. *)
Theorem accessors_agree o d (msg : string) (supplier : unit → T)
    (failure : unit → option optional.error) :
  optional.MustGet o = optional.Ptr o ∧
  optional.OrPanic o msg =
    match optional.MustGet o with Some v => inr v | None => inl msg end ∧
  (optional.GetErr o).1 = optional.OrEmpty o ∧
  (optional.OrElseErr o failure).1 = optional.OrEmpty o ∧
  optional.IsPresent o = bool_decide ((optional.GetErr o).2 = None) ∧
  optional.IsPresent o = bool_decide (is_Some (optional.MustGet o)) ∧
  optional.OrEmpty o = optional.OrElse o zeroValue ∧
  optional.OrElseGet o supplier = optional.OrElse o (supplier tt) ∧
  (optional.IsPresent o = true → optional.OrElse o d = optional.Get o).
Proof. repeat split; destruct o as [[] ?]; done. Qed.

(** X23. [Equal] is an equivalence when the comparison it is given is
    one; options in different states are never equal. *)
Theorem Equal_equivalence (eq : T → T → bool) :
  (∀ x, eq x x = true) →
  (∀ x y, eq x y = true → eq y x = true) →
  (∀ x y z, eq x y = true → eq y z = true → eq x z = true) →
  (∀ o, optional.Equal o o eq = true) ∧
  (∀ o p, optional.Equal o p eq = true → optional.Equal p o eq = true) ∧
  (∀ o p q, optional.Equal o p eq = true → optional.Equal p q eq = true →
            optional.Equal o q eq = true) ∧
  (∀ o p, optional.Equal o p eq = true → optional.st o = optional.st p).
Proof.
  intros Hr Hs Ht. unfold optional.Equal. repeat split.
  - intros o. rewrite bool_decide_true by done. simpl. apply Hr.
  - intros o p. destruct (decide (optional.st o = optional.st p)) as [He|He].
    + rewrite !bool_decide_true by done. simpl. apply Hs.
    + by rewrite bool_decide_false.
  - intros o p q.
    destruct (decide (optional.st o = optional.st p)) as [He|He];
      [|by rewrite bool_decide_false].
    destruct (decide (optional.st p = optional.st q)) as [He'|He'];
      [|by rewrite (bool_decide_false _ He')].
    rewrite !bool_decide_true by congruence. simpl. apply Ht.
  - intros o p. case_bool_decide; simpl; done.
Qed.
End optional_extra.

Section optional_monad.
Context {T U W : Type} {ZT : ZeroValue T} {ZU : ZeroValue U} {ZW : ZeroValue W}.

(** X20. [FlatMap] with [Some] obeys the monad laws up to the state of
    an option without a value, which [Map] and [FlatMap] turn into
    [None]; [Map] is [FlatMap] into [Some] and commutes with
    composition. *)
Theorem FlatMap_laws (o : optional.Option T) (v : T)
    (f : T → optional.Option U) (g : U → optional.Option W)
    (f' : T → U) (g' : U → W) :
  optional.FlatMap (optional.Some v) f = f v ∧
  optional.FlatMap o optional.Some =
    (if optional.IsPresent o then o else optional.None) ∧
  optional.FlatMap (optional.FlatMap o f) g =
    optional.FlatMap o (fun x => optional.FlatMap (f x) g) ∧
  optional.Map o f' = optional.FlatMap o (fun x => optional.Some (f' x)) ∧
  optional.Map (optional.Map o f') g' = optional.Map o (fun x => g' (f' x)).
Proof. repeat split; opt_cases; done. Qed.
End optional_monad.

(** ** Packages stream and collectors *)

Section stream_facts.
Context {T : Type} {ZV : ZeroValue T}.
Implicit Types (xs : list T) (less : T → T → bool).

(** A loop body that never leaves the loop folds over the slice. *)
Lemma rangeSlice_foldl {S : Type} (f : S → T → S) xs (s : S) :
  stream.rangeSlice xs (fun v s => (f s v, true)) s = foldl f s xs.
Proof. revert s. induction xs as [|x xs IH]; intros s; simpl; [done|apply IH]. Qed.

Lemma foldl_snoc {A : Type} (l acc : list A) :
  foldl (fun acc v => acc ++ [v]) acc l = acc ++ l.
Proof.
  revert acc. induction l as [|x l IH]; intros acc; simpl.
  - by rewrite app_nil_r.
  - rewrite IH. by rewrite <- app_assoc.
Qed.

(** The loop of [Filter] over a slice is the loop over the elements
    the predicate keeps. *)
Lemma seq_Filter_From {S : Type} xs (p : T → bool)
    (yield : T → S → S * bool) (s : S) :
  stream.seq (stream.Filter (stream.From xs) p) yield s =
    stream.seq (stream.From (List.filter p xs)) yield s.
Proof.
  simpl. revert s. induction xs as [|x xs IH]; intros s; simpl; [done|].
  destruct (p x); simpl.
  - destruct (yield x s) as [s' []]; [apply IH|done].
  - apply IH.
Qed.

(** X26. A slice comes back from its stream: [ToSlice] and the [ToSlice]
    collector return the elements in order, and after [Filter] those
    the predicate keeps. *)
Theorem ToSlice_From xs (p : T → bool) :
  stream.ToSlice (stream.From xs) = xs ∧
  stream.CollectTo (stream.From xs) collectors.ToSlice = xs ∧
  stream.ToSlice (stream.Filter (stream.From xs) p) = List.filter p xs.
Proof.
  assert (H : ∀ l : list T, stream.ToSlice (stream.From l) = l).
  { intros l. unfold stream.ToSlice. simpl.
    rewrite (rangeSlice_foldl (fun acc v => acc ++ [v])). apply foldl_snoc. }
  split; [apply H|]. split.
  - unfold stream.CollectTo. simpl.
    rewrite (rangeSlice_foldl (fun acc v => acc ++ [v])). apply foldl_snoc.
  - unfold stream.ToSlice. rewrite seq_Filter_From. apply H.
Qed.

(** X27. [FindFirst] returns the first element of the slice, after
    [Filter] the first one the predicate keeps, and [None] when there
    is none. *)
Theorem FindFirst_From xs (p : T → bool) :
  stream.FindFirst (stream.From xs) = optional.FromPtr (head xs) ∧
  stream.FindFirst (stream.Filter (stream.From xs) p) =
    optional.FromPtr (List.find p xs).
Proof.
  assert (H : ∀ l : list T,
             stream.FindFirst (stream.From l) = optional.FromPtr (head l)).
  { intros [|x l]; done. }
  split; [apply H|].
  unfold stream.FindFirst. rewrite seq_Filter_From.
  fold (stream.FindFirst (stream.From (List.filter p xs))). rewrite H.
  f_equal. induction xs as [|x xs IH]; simpl; [done|].
  destruct (p x); simpl; done.
Qed.

(** X28. [ReduceOptional] of an empty stream is [None]; otherwise it is
    [Reduce] from the first element over the rest. *)
Theorem ReduceOptional_Reduce xs (f : T → T → T) :
  stream.ReduceOptional (stream.From xs) f =
    match xs with
    | [] => optional.None
    | x :: rest => optional.Some (stream.Reduce (stream.From rest) x f)
    end.
Proof.
  destruct xs as [|x rest]; [done|].
  unfold stream.ReduceOptional, stream.Reduce. simpl.
  assert (H : ∀ l r,
    stream.rangeSlice (S := T * bool) l
      (fun v '(result, first) =>
         if first then ((v, false), true) else ((f result v, first), true))
      (r, false) =
    (stream.rangeSlice l (fun v result => (f result v, true)) r, false)).
  { induction l as [|y l IH]; intros r; simpl; [done|apply IH]. }
  by rewrite H.
Qed.

Lemma Min_loop less xs : ∀ m,
  stream.rangeSlice (S := T * bool) xs
    (fun v '(min, first) =>
       if first || less v min then ((v, false), true)
       else ((min, first), true))
    (m, false) =
  (foldl (fun m v => if less v m then v else m) m xs, false).
Proof.
  induction xs as [|x xs IH]; intros m; simpl; [done|].
  destruct (less x m); apply IH.
Qed.

Lemma Max_loop less xs : ∀ m,
  stream.rangeSlice (S := T * bool) xs
    (fun v '(max, first) =>
       if first || less max v then ((v, false), true)
       else ((max, first), true))
    (m, false) =
  (foldl (fun m v => if less m v then v else m) m xs, false).
Proof.
  induction xs as [|x xs IH]; intros m; simpl; [done|].
  destruct (less m x); apply IH.
Qed.

(** The least element the loop of [Min] ends with. *)
Lemma least_foldl less l :
  (∀ x, less x x = false) →
  (∀ x y z, less x y = true → less y z = true → less x z = true) →
  ∀ m, let r := foldl (fun m v => if less v m then v else m) m l in
       (r = m ∨ (r ∈ l ∧ less r m = true)) ∧
       ∀ x, x ∈ l → less x r = false.
Proof.
  intros Hirr Htr. induction l as [|y l IH]; intros m; simpl.
  - split; [by left|]. intros x Hx. by apply elem_of_nil in Hx.
  - destruct (less y m) eqn:Hy.
    + destruct (IH y) as (Hr & Hall). simpl in *.
      set (r := foldl _ y l) in *.
      assert (Hyr : less y r = false).
      { destruct Hr as [->|[_ Hr]]; [apply Hirr|].
        destruct (less y r) eqn:Hc; [|done].
        pose proof (Htr _ _ _ Hc Hr) as Hbad. by rewrite Hirr in Hbad. }
      split.
      * right. destruct Hr as [->|[Hin Hr]].
        -- split; [by left|done].
        -- split; [by right|by apply (Htr _ y)].
      * intros x Hx. apply elem_of_cons in Hx as [->|Hx]; [done|by apply Hall].
    + destruct (IH m) as (Hr & Hall). simpl in *.
      set (r := foldl _ m l) in *.
      split.
      * destruct Hr as [->|[Hin Hr]]; [by left|right]. split; [by right|done].
      * intros x Hx. apply elem_of_cons in Hx as [->|Hx]; [|by apply Hall].
        destruct Hr as [->|[_ Hr]]; [done|].
        destruct (less y r) eqn:Hc; [|done].
        by rewrite (Htr _ _ _ Hc Hr) in Hy.
Qed.

(** X25. For a strict order [less] (irreflexive and transitive), [Min]
    of a non-empty slice returns one of its elements that none of them
    is less than, [Max] one that is less than none of them; both
    return [None] for the empty slice. *)
Theorem Min_Max_From less xs :
  (∀ x, less x x = false) →
  (∀ x y z, less x y = true → less y z = true → less x z = true) →
  match xs with
  | [] => stream.Min (stream.From xs) less = optional.None ∧
          stream.Max (stream.From xs) less = optional.None
  | _ :: _ =>
      ∃ lo hi,
        stream.Min (stream.From xs) less = optional.Some lo ∧
        stream.Max (stream.From xs) less = optional.Some hi ∧
        lo ∈ xs ∧ hi ∈ xs ∧
        ∀ x, x ∈ xs → less x lo = false ∧ less hi x = false
  end.
Proof.
  intros Hirr Htr. destruct xs as [|x0 xs]; [done|].
  pose proof (least_foldl less xs Hirr Htr x0) as [Hlo Hlo'].
  pose proof (least_foldl (fun a b => less b a) xs) as Hhi.
  destruct (Hhi Hirr (fun x y z H1 H2 => Htr z y x H2 H1) x0) as [Hhi1 Hhi2].
  clear Hhi. simpl in *.
  set (lo := foldl _ x0 xs) in *. set (hi := foldl _ x0 xs) in Hhi1, Hhi2.
  exists lo, hi.
  unfold stream.Min, stream.Max. simpl. rewrite Min_loop, Max_loop.
  fold lo. fold hi.
  split; [done|]. split; [done|].
  assert (Hx0lo : less x0 lo = false).
  { destruct Hlo as [->|[_ Hr]]; [apply Hirr|].
    destruct (less x0 lo) eqn:Hc; [|done].
    pose proof (Htr _ _ _ Hc Hr) as Hbad. by rewrite Hirr in Hbad. }
  assert (Hx0hi : less hi x0 = false).
  { destruct Hhi1 as [->|[_ Hr]]; [apply Hirr|].
    destruct (less hi x0) eqn:Hc; [|done].
    pose proof (Htr _ _ _ Hr Hc) as Hbad. by rewrite Hirr in Hbad. }
  split; [destruct Hlo as [->|[? _]]; [by left|by right]|].
  split; [destruct Hhi1 as [->|[? _]]; [by left|by right]|].
  intros x Hx. apply elem_of_cons in Hx as [->|Hx]; [done|].
  split; [by apply Hlo'|by apply Hhi2].
Qed.

Lemma MinBy_loop less xs : ∀ e,
  foldl (collectors.Accumulator (collectors.MinBy less)) (optional.Some e) xs =
    optional.Some (default e (last xs)).
Proof.
  induction xs as [|x xs IH]; intros e; [done|].
  simpl. rewrite IH, last_cons. by destruct (last xs).
Qed.

Lemma MaxBy_loop less xs : ∀ e,
  foldl (collectors.Accumulator (collectors.MaxBy less)) (optional.Some e) xs =
    optional.Some (default e (last xs)).
Proof.
  induction xs as [|x xs IH]; intros e; [done|].
  simpl. rewrite IH, last_cons. by destruct (last xs).
Qed.

(** X24. [MinBy] as the code has it, with the [IsAbsent] of the
    package: the accumulator stays [None] until an element is less
    than the zero value of [T], and from then on it is replaced by
    every element: the collector returns the last element of the
    slice if some element is less than the zero value, and [None]
    otherwise.  [MaxBy] likewise, for an element the zero value is
    less than. *)
Theorem MinBy_MaxBy_From less xs :
  stream.CollectTo (stream.From xs) (collectors.MinBy less) =
    (if existsb (fun x => less x zeroValue) xs
     then optional.FromPtr (last xs) else optional.None) ∧
  stream.CollectTo (stream.From xs) (collectors.MaxBy less) =
    (if existsb (fun x => less zeroValue x) xs
     then optional.FromPtr (last xs) else optional.None).
Proof.
  unfold stream.CollectTo. simpl.
  rewrite (rangeSlice_foldl (collectors.Accumulator (collectors.MinBy less))).
  rewrite (rangeSlice_foldl (collectors.Accumulator (collectors.MaxBy less))).
  split.
  - induction xs as [|x xs IH]; [done|].
    cbn [foldl existsb].
    change (collectors.Accumulator (collectors.MinBy less) optional.None x)
      with (if less x zeroValue then optional.Some x else optional.None).
    destruct (less x zeroValue); cbn [orb].
    + rewrite MinBy_loop, last_cons. by destruct (last xs).
    + rewrite IH, last_cons. destruct (existsb _ xs) eqn:He; [|done].
      destruct xs; [done|]. rewrite last_cons. by destruct (last xs).
  - induction xs as [|x xs IH]; [done|].
    cbn [foldl existsb].
    change (collectors.Accumulator (collectors.MaxBy less) optional.None x)
      with (if less zeroValue x then optional.Some x else optional.None).
    destruct (less zeroValue x); cbn [orb].
    + rewrite MaxBy_loop, last_cons. by destruct (last xs).
    + rewrite IH, last_cons. destruct (existsb _ xs) eqn:He; [|done].
      destruct xs; [done|]. rewrite last_cons. by destruct (last xs).
Qed.
End stream_facts.

(** ** Composition, snapshots, hashers, options and streams at
    concrete inputs *)

Lemma twoShards_sized : sized twoShards.
Proof. exists 1. simpl. lia. Qed.

Lemma twoShards_a_sized : sized twoShards_a.
Proof. exists 1. simpl. lia. Qed.

Lemma twoShards_a_holds : holds twoShards_a ({["a"%string]} ∪ ∅).
Proof.
  destruct (fresh_holds (RT := sampleRuntime) 2 1 [] twoShards) as (Hwf & Hh & Hsz);
    [unfold is_int; lia|constructor|exact eq_refl|].
  rewrite <- (size_empty (C := gset string)) in Hsz.
  by destruct (insert_step twoShards ∅ "a"%string 1 ∅ Hwf Hh Hsz eq_refl).
Qed.

Lemma map_to_list_valid {K V : Type} {Keq : EqDecision K} {Kcnt : Countable K} :
  valid_order (K := K) (V := V) map_to_list.
Proof. by intros items. Qed.

Lemma Set_then_Get_witness :
  exact_keys string ∧
  cmap.wf twoShards ∧
  ∃ m', cmap.Set_ "a"%string 1 twoShards = Some (m', tt) ∧
        cmap.Get "a"%string m' = Some (m', optional.Some 1) ∧
        cmap.Has "a"%string m' = Some (m', true) ∧
        ∀ k', k' ≠ "a"%string →
              snd <$> cmap.Get k' m' = snd <$> cmap.Get k' twoShards.
Proof.
  split; [exact string_keys_exact|]. split; [exact twoShards_wf|].
  exact (Set_then_Get twoShards "a"%string 1 string_keys_exact twoShards_wf).
Defined.

Lemma Delete_then_Get_witness :
  exact_keys string ∧
  cmap.wf twoShards_a ∧
  ∃ m', cmap.Delete "a"%string twoShards_a = Some (m', tt) ∧
        cmap.Get "a"%string m' = Some (m', optional.None) ∧
        cmap.Has "a"%string m' = Some (m', false) ∧
        (∀ k', k' ≠ "a"%string →
               snd <$> cmap.Get k' m' = snd <$> cmap.Get k' twoShards_a) ∧
        cmap.Delete "a"%string m' = Some (m', tt).
Proof.
  split; [exact string_keys_exact|]. split; [exact twoShards_a_wf|].
  exact (Delete_then_Get twoShards_a "a"%string string_keys_exact
           twoShards_a_wf).
Defined.

Lemma SetIfAbsent_spec_witness :
  exact_keys string ∧
  cmap.wf twoShards_a ∧
  match cmap.find twoShards_a "a"%string with
  | Some x => cmap.SetIfAbsent "a"%string 5 twoShards_a = Some (twoShards_a, false)
  | None => ∃ m', cmap.SetIfAbsent "a"%string 5 twoShards_a = Some (m', true) ∧
                  cmap.Set_ "a"%string 5 twoShards_a = Some (m', tt) ∧
                  cmap.Get "a"%string m' = Some (m', optional.Some 5)
  end ∧
  cmap.SetIfAbsent "a"%string 5 twoShards_a =
    (fun r => (r.1, negb r.2.2)) <$> cmap.GetOrSet "a"%string 5 twoShards_a.
Proof.
  split; [exact string_keys_exact|]. split; [exact twoShards_a_wf|].
  exact (SetIfAbsent_spec twoShards_a "a"%string 5 string_keys_exact
           twoShards_a_wf).
Defined.

Lemma Compute_spec_witness :
  let fn := fun o : optional.Option Z => optional.OrElse o 0 + 1 in
  exact_keys string ∧
  cmap.wf twoShards_a ∧
  ∃ m' o, cmap.Get "a"%string twoShards_a = Some (twoShards_a, o) ∧
          cmap.Compute "a"%string fn twoShards_a = Some (m', fn o) ∧
          cmap.Set_ "a"%string (fn o) twoShards_a = Some (m', tt) ∧
          cmap.Get "a"%string m' = Some (m', optional.Some (fn o)) ∧
          ∀ k', k' ≠ "a"%string →
                snd <$> cmap.Get k' m' = snd <$> cmap.Get k' twoShards_a.
Proof.
  intros fn. split; [exact string_keys_exact|]. split; [exact twoShards_a_wf|].
  exact (Compute_spec twoShards_a "a"%string fn string_keys_exact
           twoShards_a_wf).
Defined.

Lemma run_keeps_invariants_witness :
  let cs := [cmap.CallSet "a"%string 1; cmap.CallGetOrSet "b"%string 2;
             cmap.CallCompute "a"%string (fun o => optional.OrElse o 0 + 1);
             cmap.CallRemove "b"%string] in
  exact_keys string ∧
  is_int 2 ∧ 2 ≤ 2 ^ 32 ∧
  Forall cmap.keeps_shards ([] : list (cmap.Option (K := string) (V := Z))) ∧
  cmap.WithShards (RT := sampleRuntime) 2 1 [] = Some twoShards ∧
  ∃ m' live, cmap.run cs twoShards = Some m' ∧
             sized m' ∧
             length (cmap.shards m') = length (cmap.shards twoShards) ∧
             holds m' live ∧
             totalSize m' = size live.
Proof.
  intros cs.
  assert (Hint : is_int 2) by (unfold is_int; lia).
  assert (Hle : 2 ≤ 2 ^ 32) by lia.
  split; [exact string_keys_exact|].
  split; [exact Hint|]. split; [exact Hle|]. split; [constructor|].
  split; [exact eq_refl|].
  exact (run_keeps_invariants (RT := sampleRuntime) 2 1 [] twoShards cs
           string_keys_exact Hint Hle (Forall_nil_2 _) eq_refl).
Defined.

Lemma shardIndex_mod_witness :
  sized twoShards_a ∧
  Z.of_nat (cmap.shardIndex twoShards_a "a"%string) =
    cmap.hashFunc twoShards_a (cmap.seed twoShards_a) "a"%string
      mod Z.of_nat (length (cmap.shards twoShards_a)).
Proof.
  split; [exact twoShards_a_sized|].
  exact (shardIndex_mod twoShards_a "a"%string twoShards_a_sized).
Defined.

Lemma Items_spec_witness :
  exact_keys string ∧
  valid_order (K := string) (V := Z) map_to_list ∧
  cmap.wf twoShards_a ∧
  holds twoShards_a ({["a"%string]} ∪ ∅) ∧
  Z.of_nat (totalSize twoShards_a) < 2 ^ 63 ∧
  ∃ its, cmap.Items map_to_list twoShards_a = Some (twoShards_a, its) ∧
         NoDup (cmap.Key <$> its) ∧
         (∀ k v, cmap.mkItem k v ∈ its ↔ cmap.find twoShards_a k = Some v) ∧
         cmap.Len twoShards_a = Some (twoShards_a, Z.of_nat (length its)).
Proof.
  assert (Hsz : Z.of_nat (totalSize twoShards_a) < 2 ^ 63) by (vm_compute; reflexivity).
  split; [exact string_keys_exact|].
  split; [exact map_to_list_valid|]. split; [exact twoShards_a_wf|].
  split; [exact twoShards_a_holds|]. split; [exact Hsz|].
  exact (Items_spec map_to_list twoShards_a _ string_keys_exact
           map_to_list_valid twoShards_a_wf twoShards_a_holds Hsz).
Defined.

Lemma Keys_Values_spec_witness :
  exact_keys string ∧
  valid_order (K := string) (V := Z) map_to_list ∧
  valid_order (K := string) (V := Z) (fun items => reverse (map_to_list items)) ∧
  cmap.wf twoShards_a ∧
  holds twoShards_a ({["a"%string]} ∪ ∅) ∧
  Z.of_nat (totalSize twoShards_a) < 2 ^ 63 ∧
  ∃ ks vs its,
    cmap.Keys map_to_list twoShards_a = Some (twoShards_a, ks) ∧
    cmap.Values (fun items => reverse (map_to_list items)) twoShards_a
      = Some (twoShards_a, vs) ∧
    cmap.Items map_to_list twoShards_a = Some (twoShards_a, its) ∧
    ks ≡ₚ elements ({["a"%string]} ∪ ∅ : gset string) ∧
    ks ≡ₚ cmap.Key <$> its ∧
    vs ≡ₚ cmap.Value <$> its.
Proof.
  assert (Hsz : Z.of_nat (totalSize twoShards_a) < 2 ^ 63) by (vm_compute; reflexivity).
  assert (Hrev : valid_order (K := string) (V := Z)
                   (fun items => reverse (map_to_list items)))
    by (intros items; apply reverse_Permutation).
  split; [exact string_keys_exact|].
  split; [exact map_to_list_valid|]. split; [exact Hrev|].
  split; [exact twoShards_a_wf|].
  split; [exact twoShards_a_holds|]. split; [exact Hsz|].
  exact (Keys_Values_spec map_to_list _ map_to_list twoShards_a _
           string_keys_exact map_to_list_valid Hrev map_to_list_valid
           twoShards_a_wf twoShards_a_holds Hsz).
Defined.

Lemma Clone_spec_witness :
  valid_order (K := string) (V := Z) map_to_list ∧
  sized twoShards_a ∧
  holds twoShards_a ({["a"%string]} ∪ ∅) ∧
  is_Some (hash.GetHashFunc (K := string) (RT := sampleRuntime)) ∧
  cmap.Clone (RT := sampleRuntime) map_to_list 9 twoShards_a
    = Some (twoShards_a, twoShards_a).
Proof.
  assert (Hh : is_Some (hash.GetHashFunc (K := string) (RT := sampleRuntime)))
    by (eexists; exact eq_refl).
  split; [exact map_to_list_valid|]. split; [exact twoShards_a_sized|].
  split; [exact twoShards_a_holds|]. split; [exact Hh|].
  exact (Clone_spec (RT := sampleRuntime) map_to_list 9 twoShards_a _
           map_to_list_valid twoShards_a_sized twoShards_a_holds Hh).
Defined.

Lemma New_spec_witness :
  Forall cmap.keeps_shards [cmap.WithSeed (K := string) (V := Z) 7] ∧
  ∃ m, cmap.New (V := Z) (RT := sampleRuntime) 1 [cmap.WithSeed 7] = Some m ∧
       length (cmap.shards m) = 32%nat ∧
       cmap.shardMask m = 31 ∧
       cmap.Len m = Some (m, 0) ∧
       ∀ k : string, cmap.Get k m = Some (m, optional.None).
Proof.
  assert (Hopts : Forall cmap.keeps_shards
                    [cmap.WithSeed (K := string) (V := Z) 7])
    by (constructor; [apply WithSeed_keeps_shards|constructor]).
  split; [exact Hopts|].
  exact (New_spec (KT := string_key) (RT := sampleRuntime) 1
           [cmap.WithSeed 7] Hopts).
Defined.

Lemma fallback_digest_witness :
  hash.typeOf (KeyType := UserID_key) = Some (reflect.TDefined reflect.Int) ∧
  ((∃ k, reflect.TDefined reflect.Int = reflect.TDefined k ∧ k ≠ reflect.Struct) ∨
     reflect.TDefined reflect.Int = reflect.TBuiltin reflect.Complex64 ∨
     reflect.TDefined reflect.Int = reflect.TBuiltin reflect.Complex128) ∧
  hash.hashMethod (KeyType := UserID_key) = None ∧
  ∃ h, hash.GetHashFunc (KT := UserID_key) (RT := sampleRuntime) = Some h ∧
       (∀ seed k1 k2,
          match hash.stringMethod (KeyType := UserID_key) with
          | Some stringOf => stringOf k1 = stringOf k2
          | None => True
          end → h seed k1 = h seed k2) ∧
       (∀ seed key,
          h seed key =
            match hash.stringMethod (KeyType := UserID_key) with
            | Some stringOf => hash.StringHasher (RT := sampleRuntime) seed (stringOf key)
            | None => uint32 (maphash.Bytes (Runtime := sampleRuntime) seed [])
            end) ∧
       ∀ (m : cmap.ConcurrentMap Z Z) k1 k2,
         cmap.hashFunc m = h →
         hash.stringMethod (KeyType := UserID_key) = None →
         cmap.shardIndex m k1 = cmap.shardIndex m k2.
Proof.
  assert (H2 : (∃ k, reflect.TDefined reflect.Int = reflect.TDefined k ∧
                     k ≠ reflect.Struct) ∨
     reflect.TDefined reflect.Int = reflect.TBuiltin reflect.Complex64 ∨
     reflect.TDefined reflect.Int = reflect.TBuiltin reflect.Complex128)
    by (left; exists reflect.Int; split; [reflexivity|discriminate]).
  split; [exact eq_refl|]. split; [exact H2|]. split; [exact eq_refl|].
  exact (fallback_digest (V := Z) (KT := UserID_key) (RT := sampleRuntime)
           (reflect.TDefined reflect.Int) eq_refl H2 eq_refl).
Defined.

Lemma struct_without_descriptors_witness :
  let fs := [("Sum"%string, 0, reflect.TDefined reflect.Array)] in
  hash.typeOf (KeyType := Blob_key) = Some (reflect.TStruct fs) ∧
  Forall skipped fs ∧
  ∃ h, hash.GetHashFunc (KT := Blob_key) (RT := sampleRuntime) = Some h ∧
       (∀ seed key, h seed key = 0) ∧
       ∀ (m : cmap.ConcurrentMap (list Z) Z) key,
         cmap.hashFunc m = h → cmap.shardIndex m key = 0%nat.
Proof.
  intros fs.
  assert (Hfs : Forall skipped fs).
  { constructor; [|constructor]. right. split; [discriminate|reflexivity]. }
  split; [exact eq_refl|]. split; [exact Hfs|].
  exact (struct_without_descriptors (V := Z) (KT := Blob_key)
           (RT := sampleRuntime) fs eq_refl Hfs).
Defined.

Lemma flattenStruct_inline_witness :
  let pre := [("Name"%string, 0, reflect.TBuiltin reflect.String);
              ("_"%string, 16, reflect.TBuiltin reflect.Int32);
              ("Tags"%string, 24, reflect.TDefined reflect.Array)] in
  let inner := [("X"%string, 0, reflect.TBuiltin reflect.Int);
                ("Y"%string, 8, reflect.TBuiltin reflect.Int)] in
  "Pos"%string ≠ "_"%string ∧
  hash.flattenStruct
    (reflect.TStruct (pre ++ ("Pos"%string, 40, reflect.TStruct inner) :: [])) 0 =
  hash.flattenStruct (reflect.TStruct (pre ++ inlined 40 inner ++ [])) 0 ∧
  hash.CreateStructHasher (K := Point) (RT := sampleRuntime)
    (reflect.TStruct (pre ++ ("Pos"%string, 40, reflect.TStruct inner) :: [])) =
  hash.CreateStructHasher (K := Point) (RT := sampleRuntime)
    (reflect.TStruct (pre ++ inlined 40 inner ++ [])).
Proof.
  intros pre inner.
  assert (Hn : "Pos"%string ≠ "_"%string) by discriminate.
  split; [exact Hn|].
  exact (flattenStruct_inline (K := Point) (RT := sampleRuntime)
           pre "Pos"%string 40 inner [] Hn).
Defined.

Lemma built_Get_OrEmpty_witness :
  let o := optional.Filter (optional.Some 3) (fun x => x <? 2) in
  built Z Z_zero o ∧ optional.Get o = optional.OrEmpty o.
Proof.
  intros o.
  assert (Hb : built Z Z_zero o) by (apply built_Filter, built_Some).
  split; [exact Hb|]. exact (built_Get_OrEmpty o Hb).
Defined.

Lemma Equal_equivalence_witness :
  (∀ x, (x =? x) = true) ∧
  (∀ x y, (x =? y) = true → (y =? x) = true) ∧
  (∀ x y z, (x =? y) = true → (y =? z) = true → (x =? z) = true) ∧
  (∀ o : optional.Option Z, optional.Equal o o Z.eqb = true) ∧
  (∀ o p : optional.Option Z,
     optional.Equal o p Z.eqb = true → optional.Equal p o Z.eqb = true) ∧
  (∀ o p q : optional.Option Z,
     optional.Equal o p Z.eqb = true → optional.Equal p q Z.eqb = true →
     optional.Equal o q Z.eqb = true) ∧
  (∀ o p : optional.Option Z,
     optional.Equal o p Z.eqb = true → optional.st o = optional.st p).
Proof.
  assert (Hr : ∀ x, (x =? x) = true) by (intros; apply Z.eqb_refl).
  assert (Hs : ∀ x y, (x =? y) = true → (y =? x) = true)
    by (intros x y; rewrite !Z.eqb_eq; congruence).
  assert (Ht : ∀ x y z, (x =? y) = true → (y =? z) = true → (x =? z) = true)
    by (intros x y z; rewrite !Z.eqb_eq; congruence).
  split; [exact Hr|]. split; [exact Hs|]. split; [exact Ht|].
  exact (Equal_equivalence Z.eqb Hr Hs Ht).
Defined.

Lemma Min_Max_From_witness :
  (∀ x, (x <? x) = false) ∧
  (∀ x y z, (x <? y) = true → (y <? z) = true → (x <? z) = true) ∧
  ∃ lo hi,
    stream.Min (stream.From [3; 1; 2]) Z.ltb = optional.Some lo ∧
    stream.Max (stream.From [3; 1; 2]) Z.ltb = optional.Some hi ∧
    lo ∈ [3; 1; 2] ∧ hi ∈ [3; 1; 2] ∧
    ∀ x, x ∈ [3; 1; 2] → (x <? lo) = false ∧ (hi <? x) = false.
Proof.
  assert (Hi : ∀ x, (x <? x) = false) by (intros; apply Z.ltb_irrefl).
  assert (Ht : ∀ x y z, (x <? y) = true → (y <? z) = true → (x <? z) = true)
    by (intros x y z; rewrite !Z.ltb_lt; lia).
  split; [exact Hi|]. split; [exact Ht|].
  exact (Min_Max_From Z.ltb [3; 1; 2] Hi Ht).
Defined.

(** ** More on how the calls compose, and on Nil *)

Section cmap_undo.
Context {K V : Type} {Keq : EqDecision K} {Kcnt : Countable K}.
Context {KT : hash.KeyType K} {RT : maphash.Runtime} {ZV : ZeroValue V}.
Implicit Types (m : cmap.ConcurrentMap K V) (k key : K) (v : V).

Lemma putShard_putShard m k (a b : gmap K V) :
  cmap.putShard (cmap.putShard m k a) k b = cmap.putShard m k b.
Proof.
  unfold cmap.putShard. simpl. f_equal.
  change (cmap.shardIndex (cmap.mkMap _ _ _ _) k) with (cmap.shardIndex m k).
  apply list_insert_insert_eq.
Qed.

(** X29. [Set] then [Remove], for a key type compared by identity (no float,
    complex, interface or array part):
    [Remove(k)] after [Set(k, v)] returns
    [Some(v)] and the map holds nothing for [k]; when the map did not
    hold [k] before, it is back to what it was. *)
Theorem Set_then_Remove m k v :
  exact_keys K →
  cmap.wf m →
  ∃ m1 m2, cmap.Set_ k v m = Some (m1, tt) ∧
           cmap.Remove k m1 = Some (m2, optional.Some v) ∧
           cmap.Get k m2 = Some (m2, optional.None) ∧
           (∀ k', k' ≠ k → snd <$> cmap.Get k' m2 = snd <$> cmap.Get k' m) ∧
           (cmap.find m k = None → m2 = m).
Proof.
  intros _ Hwf. destruct (getShard_is_Some m k Hwf) as [items Hs].
  set (m1 := cmap.putShard m k (<[k := v]> items)).
  set (m2 := cmap.putShard m k (delete k items)).
  assert (Hwf2 : cmap.wf m2) by (by apply wf_putShard).
  destruct (putShard_delete m k items Hwf Hs) as [Hgone Hother].
  fold m2 in Hgone, Hother.
  exists m1, m2. split; [unfold cmap.Set_; by rewrite Hs|].
  split.
  { unfold cmap.Remove, m1. rewrite getShard_putShard by done.
    rewrite decide_True by done. simpl.
    rewrite (commaOk_Some _ _ v) by apply lookup_insert_eq.
    by rewrite putShard_putShard, delete_insert_eq. }
  split; [by rewrite Get_spec, Hgone|].
  split; [intros k' Hk'; rewrite !Get_spec by done; simpl; by rewrite Hother|].
  unfold cmap.find. rewrite Hs. simpl. intros Hk. unfold m2.
  rewrite delete_id by done. by apply putShard_same.
Qed.
End cmap_undo.

Section optional_nil.
Context {T U : Type} {ZT : ZeroValue T} {ZU : ZeroValue U}.

(** X30. For two options without a value, be they [None], [Nil] or
    left with a stale value, [MustGet], [OrElse], [OrEmpty], [Ptr],
    the value of [GetErr], [Map], [FlatMap], [TryMap], [And] and [Xor]
    answer the same, while [Filter], [Or] and [OrElseOption] return
    such a receiver as it is, with its state.  [Nil] and [None] differ
    under [IsZero], [IsAbsent], [Equal] and in the error of
    [GetErr]. *)
Theorem Nil_like_None (o p other : optional.Option T) (d : T)
    (f : T → U) (g : T → optional.Option U)
    (h : T → U * option optional.error) (eq : T → T → bool)
    (predicate : T → bool) (supplier : unit → optional.Option T) :
  optional.IsPresent o = false → optional.IsPresent p = false →
  optional.Filter o predicate = o ∧
  optional.Or o other = o ∧
  optional.OrElseOption o supplier = o ∧
  optional.MustGet o = optional.MustGet p ∧
  optional.OrElse o d = optional.OrElse p d ∧
  optional.OrEmpty o = optional.OrEmpty p ∧
  optional.Ptr o = optional.Ptr p ∧
  (optional.GetErr o).1 = (optional.GetErr p).1 ∧
  optional.Map o f = optional.Map p f ∧
  optional.FlatMap o g = optional.FlatMap p g ∧
  optional.TryMap o h = optional.TryMap p h ∧
  optional.And o other = optional.And p other ∧
  optional.Xor o other = optional.Xor p other ∧
  optional.IsZero (optional.Nil (T := T)) = false ∧
  optional.IsZero (optional.None (T := T)) = true ∧
  optional.IsAbsent (optional.Nil (T := T)) = true ∧
  optional.IsAbsent (optional.None (T := T)) = false ∧
  optional.Equal optional.Nil optional.None eq = false ∧
  (optional.GetErr (optional.Nil (T := T))).2 ≠
    (optional.GetErr (optional.None (T := T))).2.
Proof.
  intros Ho Hp.
  destruct o as [[] x], p as [[] y]; try discriminate Ho; try discriminate Hp;
    repeat split; destruct other as [[] ?]; done.
Qed.
End optional_nil.

Lemma Set_then_Remove_witness :
  exact_keys string ∧
  cmap.wf twoShards ∧
  ∃ m1 m2, cmap.Set_ "a"%string 1 twoShards = Some (m1, tt) ∧
           cmap.Remove "a"%string m1 = Some (m2, optional.Some 1) ∧
           cmap.Get "a"%string m2 = Some (m2, optional.None) ∧
           (∀ k', k' ≠ "a"%string →
                  snd <$> cmap.Get k' m2 = snd <$> cmap.Get k' twoShards) ∧
           (cmap.find twoShards "a"%string = None → m2 = twoShards).
Proof.
  split; [exact string_keys_exact|]. split; [exact twoShards_wf|].
  exact (Set_then_Remove twoShards "a"%string 1 string_keys_exact twoShards_wf).
Defined.

Lemma Nil_like_None_witness :
  let f := fun x : Z => x + 1 in
  let g := fun x : Z => optional.Some (x + 1) in
  let h := fun x : Z => (x + 1, None : option optional.error) in
  optional.IsPresent (optional.Nil (T := Z)) = false ∧
  optional.IsPresent (optional.mkOption optional.stateNil 5) = false ∧
  optional.Filter (optional.Nil (T := Z)) (fun x => x <? 2) = optional.Nil ∧
  optional.Or optional.Nil (optional.Some 1) = optional.Nil (T := Z) ∧
  optional.OrElseOption optional.Nil (fun _ => optional.Some 1)
    = optional.Nil (T := Z) ∧
  optional.MustGet (optional.Nil (T := Z)) =
    optional.MustGet (optional.mkOption optional.stateNil 5) ∧
  optional.OrElse optional.Nil 7 =
    optional.OrElse (optional.mkOption optional.stateNil 5) 7 ∧
  optional.OrEmpty (optional.Nil (T := Z)) =
    optional.OrEmpty (optional.mkOption optional.stateNil 5) ∧
  optional.Ptr (optional.Nil (T := Z)) =
    optional.Ptr (optional.mkOption optional.stateNil 5) ∧
  (optional.GetErr (optional.Nil (T := Z))).1 =
    (optional.GetErr (optional.mkOption optional.stateNil 5)).1 ∧
  optional.Map optional.Nil f =
    optional.Map (optional.mkOption optional.stateNil 5) f ∧
  optional.FlatMap optional.Nil g =
    optional.FlatMap (optional.mkOption optional.stateNil 5) g ∧
  optional.TryMap optional.Nil h =
    optional.TryMap (optional.mkOption optional.stateNil 5) h ∧
  optional.And optional.Nil (optional.Some 1) =
    optional.And (optional.mkOption optional.stateNil 5) (optional.Some 1) ∧
  optional.Xor optional.Nil (optional.Some 1) =
    optional.Xor (optional.mkOption optional.stateNil 5) (optional.Some 1) ∧
  optional.IsZero (optional.Nil (T := Z)) = false ∧
  optional.IsZero (optional.None (T := Z)) = true ∧
  optional.IsAbsent (optional.Nil (T := Z)) = true ∧
  optional.IsAbsent (optional.None (T := Z)) = false ∧
  optional.Equal optional.Nil optional.None Z.eqb = false ∧
  (optional.GetErr (optional.Nil (T := Z))).2 ≠
    (optional.GetErr (optional.None (T := Z))).2.
Proof.
  intros f g h. split; [exact eq_refl|]. split; [exact eq_refl|].
  exact (Nil_like_None optional.Nil (optional.mkOption optional.stateNil 5)
           (optional.Some 1) 7 f g h Z.eqb (fun x => x <? 2)
           (fun _ => optional.Some 1) eq_refl eq_refl).
Defined.

(** ** Float keys: two equal keys in two shards

    [Float64Hasher] hashes the bits of its key, the native map of a
    shard compares keys with [==].  The runs below hold one entry per
    shard at most, and the shard that [-0.0] selects is empty when it
    is consulted, so that looking a key up by its bits and by [==]
    give the same answer at every step. *)

(** C1 at [float64] keys.  In the map of 256 shards, [Set(0.0, 1)]
    stores its key in shard 177; [-0.0] is the same key for the [==]
    of the native map but has other bits and hashes to shard 49:
    [GetOrSet(-0.0, 5)] finds nothing there, stores a second entry and
    returns [(5, false)], although the key is present. *)
Theorem GetOrSet_float_zero :
  cmap.WithShards (KT := Float64_key) (RT := sampleRuntime) 256 1 []
    = Some floatShards ∧
  cmap.Set_ posZero 1 floatShards = Some (floatShards_pos, tt) ∧
  float64_eq negZero posZero = true ∧
  cmap.shardIndex floatShards_pos posZero = 177%nat ∧
  cmap.shardIndex floatShards_pos negZero = 49%nat ∧
  cmap.shards floatShards_pos !! 49%nat = Some ∅ ∧
  ∃ m', cmap.GetOrSet negZero 5 floatShards_pos = Some (m', (5, false)) ∧
        snd <$> cmap.Get posZero m' = Some (optional.Some 1) ∧
        snd <$> cmap.Get negZero m' = Some (optional.Some 5) ∧
        snd <$> cmap.Len m' = Some 2.
Proof.
  split; [exact eq_refl|]. split; [exact eq_refl|].
  split; [reflexivity|].
  split; [vm_compute; reflexivity|]. split; [vm_compute; reflexivity|].
  split; [vm_compute; reflexivity|].
  exists (cmap.putShard floatShards_pos negZero {[negZero := 5]}).
  split; [exact eq_refl|].
  split; [vm_compute; reflexivity|].
  split; vm_compute; reflexivity.
Qed.

(** C8 at [float64] keys.  After [Set(0.0, 1)] the key [-0.0], equal
    to [0.0], is present, yet [Remove(-0.0)] looks in shard 49,
    returns [None] and leaves the entry of shard 177 where it is. *)
Theorem Remove_float_zero :
  cmap.WithShards (KT := Float64_key) (RT := sampleRuntime) 256 1 []
    = Some floatShards ∧
  cmap.Set_ posZero 1 floatShards = Some (floatShards_pos, tt) ∧
  float64_eq negZero posZero = true ∧
  cmap.shardIndex floatShards_pos posZero = 177%nat ∧
  cmap.shardIndex floatShards_pos negZero = 49%nat ∧
  cmap.shards floatShards_pos !! 49%nat = Some ∅ ∧
  cmap.Remove negZero floatShards_pos
    = Some (floatShards_pos, optional.None) ∧
  snd <$> cmap.Get posZero floatShards_pos = Some (optional.Some 1) ∧
  snd <$> cmap.Len floatShards_pos = Some 1.
Proof.
  split; [exact eq_refl|]. split; [exact eq_refl|].
  split; [reflexivity|].
  split; [vm_compute; reflexivity|]. split; [vm_compute; reflexivity|].
  split; [vm_compute; reflexivity|].
  split; [exact eq_refl|].
  split; vm_compute; reflexivity.
Qed.

(** C9 at [float64] keys.  [Set(0.0, 1)] and [Set(-0.0, 2)] name one
    key, which is not deleted; the two calls store an entry each, in
    shards 177 and 49, and [Len()] is 2: the key resides in two
    shards. *)
Theorem Len_float_zero :
  cmap.WithShards (KT := Float64_key) (RT := sampleRuntime) 256 1 []
    = Some floatShards ∧
  float64_eq posZero negZero = true ∧
  ∃ m', cmap.run (cmap.call_of <$> [cmap.WSet posZero 1; cmap.WSet negZero 2])
                 floatShards = Some m' ∧
        snd <$> cmap.Len m' = Some 2 ∧
        size <$> cmap.shards m' !! 177%nat = Some 1%nat ∧
        size <$> cmap.shards m' !! 49%nat = Some 1%nat.
Proof.
  split; [exact eq_refl|]. split; [reflexivity|].
  exists (cmap.putShard floatShards_pos negZero {[negZero := 2]}).
  split; [exact eq_refl|].
  split; [vm_compute; reflexivity|].
  split; vm_compute; reflexivity.
Qed.

(** A float field is hashed by its bits: [Temp{1, 0.0}] and
    [Temp{1, -0.0}], equal for [==], do not hold the same stored value
    in the field [T] and get different digests. *)
Example float_field_hashed_by_bits :
  float64_eq posZero negZero = true ∧
  hash.flattenStruct Temp_type 0 =
    [hash.mkFieldInfo 0 reflect.Int; hash.mkFieldInfo 8 reflect.Float64] ∧
  hash.numAt (KeyType := Temp_key) (mkTemp 1 posZero) 8 ≠
    hash.numAt (KeyType := Temp_key) (mkTemp 1 negZero) 8 ∧
  hash.CreateStructHasher (KT := Temp_key) (RT := sampleRuntime) Temp_type 1
      (mkTemp 1 posZero) ≠
    hash.CreateStructHasher (KT := Temp_key) (RT := sampleRuntime) Temp_type 1
      (mkTemp 1 negZero).
Proof.
  split; [reflexivity|]. split; [reflexivity|].
  split; vm_compute; discriminate.
Qed.
